(** * Muon optimizer and training schedules of nanogpt/train_spectral_normalize.py

    A shallow embedding of the optimizer core: the Newton-Schulz
    [orthogonalize], the power iteration [_power_iteration], the momentum
    blend and the sharded, pipelined [Muon.step] with its [update_prev];
    and of what the training loop builds around it: the schedules [get_lr]
    and [get_window_size_blocks] with the momentum warmup, the distributed
    data loader, the projection of the output head and the residual
    connections of [Block.forward].

    Tensor entries are modelled as real numbers: the development follows the
    algorithm, not the rounding of a reduced-precision kernel.  The lines of
    [update_prev] whose behaviour depends on NaN and infinity are modelled a
    second time over IEEE binary32 ([Module F32]), and the power iteration
    with them ([Module F32Estimate]) to follow an overflow through the
    estimate.  The schedules are computed over the rationals, with exact
    quotients. *)

From Stdlib Require Import Reals Lra Lia List Arith ZArith QArith Floats.SpecFloat.
From Stdlib Require Import FunctionalExtensionality.
From Stdlib Require Lqa.
From stdpp Require Import base list gmap.
Import ListNotations.

(** ** Python exceptions and the error monad *)

Inductive exn : Type :=
| IndexError
| RuntimeError
| AssertionError
| AttributeError
| ValueError
| TypeError
| ZeroDivisionError.

Inductive result (A : Type) : Type :=
| Ok (a : A)
| Raise (e : exn).
Arguments Ok {A} a.
Arguments Raise {A} e.

Definition bind {A B : Type} (c : result A) (k : A -> result B) : result B :=
  match c with
  | Ok a => k a
  | Raise e => Raise e
  end.

Notation "'let*' x ':=' c 'in' k" := (bind c (fun x => k))
  (at level 10, x pattern, c at level 100, k at level 200).

(** Two results of one shape, related on success. *)
Definition rel_result {A : Type} (P : A -> A -> Prop) (r1 r2 : result A) : Prop :=
  match r1, r2 with
  | Ok a, Ok b => P a b
  | Raise x, Raise y => x = y
  | _, _ => False
  end.

(** ** Matrices with real entries *)

Module Tensor.
Local Open Scope R_scope.

(** A 2-D tensor: its shape and its rows. *)
Record Mat : Type := mkMat { nrows : nat; ncols : nat; rows : list (list R) }.

Definition wf (M : Mat) : Prop :=
  length (rows M) = nrows M /\ Forall (fun r => length r = ncols M) (rows M).

Definition get (M : Mat) (i j : nat) : R := nth j (nth i (rows M) []) 0.

Definition build (r c : nat) (f : nat -> nat -> R) : Mat :=
  mkMat r c (map (fun i => map (fun j => f i j) (seq 0 c)) (seq 0 r)).

(** [rsum n f] is f 0 + ... + f (n-1). *)
Definition rsum (n : nat) (f : nat -> R) : R :=
  fold_right Rplus 0 (map f (seq 0 n)).

(** [X.mT] *)
Definition mT (X : Mat) : Mat := build (ncols X) (nrows X) (fun i j => get X j i).

(** [A @ B]; torch raises a RuntimeError when the inner sizes differ. *)
Definition matmul_raw (A B : Mat) : Mat :=
  build (nrows A) (ncols B) (fun i j => rsum (ncols A) (fun k => get A i k * get B k j)).

Definition matmul (A B : Mat) : result Mat :=
  if Nat.eqb (ncols A) (nrows B) then Ok (matmul_raw A B) else Raise RuntimeError.

(** [c * X] and [X / d] for a scalar. *)
Definition smul (c : R) (X : Mat) : Mat :=
  mkMat (nrows X) (ncols X) (map (map (Rmult c)) (rows X)).

Definition sdiv (X : Mat) (d : R) : Mat :=
  mkMat (nrows X) (ncols X) (map (map (fun x => x / d)) (rows X)).

(** [X + Y] for tensors of one shape. *)
Definition madd_raw (X Y : Mat) : Mat :=
  build (nrows X) (ncols X) (fun i j => get X i j + get Y i j).

Definition same_shape (X Y : Mat) : bool :=
  Nat.eqb (nrows X) (nrows Y) && Nat.eqb (ncols X) (ncols Y).

Definition madd (X Y : Mat) : result Mat :=
  if same_shape X Y then Ok (madd_raw X Y) else Raise RuntimeError.

(** [X.flatten()]: the entries in row-major order. *)
Definition flatten (X : Mat) : list R := concat (rows X).

Definition sumsq (v : list R) : R := fold_right Rplus 0 (map (fun x => x * x) v).

(** [v.norm()] of a vector and the Frobenius norm [X.norm(dim=(-2, -1))]. *)
Definition vnorm (v : list R) : R := sqrt (sumsq v).
Definition fnorm (X : Mat) : R := vnorm (flatten X).

Definition zeros (r c : nat) : Mat := build r c (fun _ _ => 0).

(** The 2 x 2 diagonal matrix, used for concrete runs. *)
Definition diag2 (x y : R) : Mat := mkMat 2 2 [[x; 0]; [0; y]].

End Tensor.

(** ** Newton-Schulz orthogonalization *)

Module NewtonSchulz.
Import Tensor.
Local Open Scope R_scope.

(** The coefficient table of [orthogonalize]. *)
Definition abc_list : list (R * R * R) :=
  [ (4.0848, -6.8946, 2.9270);
    (3.9505, -6.3029, 2.6377);
    (3.7418, -5.5913, 2.3037);
    (2.8769, -3.1427, 1.2046);
    (2.8366, -3.0525, 1.2012) ].

(** [M.bfloat16()]: a cast, the identity on exact entries. *)
Definition bfloat16 (M : Mat) : Mat := M.

(** One pass of the loop body:
    [A = X @ X.mT; B = b * A + c * A @ A; X = a * X + B @ X].
    Python parses [c * A @ A] as [(c * A) @ A]. *)
Definition ns_body (abc : R * R * R) (X : Mat) : result Mat :=
  let '(a, b, c) := abc in
  let* A := matmul X (mT X) in
  let* cAA := matmul (smul c A) A in
  let* B := madd (smul b A) cAA in
  let* BX := matmul B X in
  madd (smul a X) BX.

(** [for a, b, c in abc_list: ...] *)
Fixpoint ns_loop (l : list (R * R * R)) (X : Mat) : result Mat :=
  match l with
  | [] => Ok X
  | abc :: l' => let* X' := ns_body abc X in ns_loop l' X'
  end.

(** [orthogonalize(M)] on a 2-D tensor. *)
Definition orthogonalize (M : Mat) : result Mat :=
  let X := bfloat16 M in
  let transpose := Nat.ltb (ncols X) (nrows X) in
  let X := if transpose then mT X else X in
  let X := sdiv X (fnorm X + 1e-7) in
  let* X := ns_loop abc_list X in
  Ok (if transpose then mT X else X).

(** The algorithm as the specification words it. *)
Definition quintic_step (abc : R * R * R) (X : Mat) : Mat :=
  let '(a, b, c) := abc in
  let A := matmul_raw X (mT X) in
  let B := madd_raw (smul b A) (smul c (matmul_raw A A)) in
  madd_raw (smul a X) (matmul_raw B X).

Definition widen (G : Mat) : Mat := if Nat.ltb (ncols G) (nrows G) then mT G else G.

Definition orthogonalize_spec (table : list (R * R * R)) (G : Mat) : Mat :=
  let X0 := sdiv (widen G) (fnorm (widen G) + 1e-7) in
  let Xn := fold_left (fun X abc => quintic_step abc X) table X0 in
  if Nat.ltb (ncols G) (nrows G) then mT Xn else Xn.

(** What one step does to a diagonal entry. *)
Definition quintic (abc : R * R * R) (x : R) : R :=
  let '(a, b, c) := abc in a * x + (b * (x * x) + c * ((x * x) * (x * x))) * x.

(** Tensors of any rank: a shape and the entries in row-major order. *)
Record NdTensor : Type := mkNd { shape : list nat; data : list R }.

Definition numel (sh : list nat) : nat := fold_right Nat.mul 1%nat sh.

(** The [k]-th matrix of a batch of [r] x [c] matrices stored flat. *)
Definition batch_get (r c : nat) (d : list R) (k : nat) : Mat :=
  build r c (fun i j => nth (k * (r * c) + i * c + j)%nat d 0).

Fixpoint map_result {A B : Type} (f : A -> result B) (l : list A) : result (list B) :=
  match l with
  | [] => Ok []
  | x :: l' => let* y := f x in let* ys := map_result f l' in Ok (y :: ys)
  end.

(** [orthogonalize] on a tensor of any rank.  [X.shape[-2]] raises an
    IndexError below two dimensions; with more than two, [.mT], [.norm] and
    [@] work on the last two dimensions, one matrix of the batch at a time. *)
Definition orthogonalize_nd (t : NdTensor) : result NdTensor :=
  match rev (shape t) with
  | c :: r :: batch =>
      let n := numel batch in
      let* outs := map_result (fun k => orthogonalize (batch_get r c (data t) k)) (seq 0 n) in
      Ok (mkNd (shape t) (concat (map flatten outs)))
  | _ => Raise IndexError
  end.

(** The result on an input with at least two dimensions. *)
Definition orthogonalize_batch (c r : nat) (batch : list nat) (t : NdTensor) : NdTensor :=
  mkNd (shape t)
       (concat (map flatten
          (map (fun k => orthogonalize_spec abc_list (batch_get r c (data t) k))
               (seq 0%nat (numel batch))))).

(** A batch of two 1 x 1 matrices: three dimensions. *)
Definition batch_input : NdTensor := mkNd [2; 1; 1]%nat [3; 4].

End NewtonSchulz.

(** ** Power iteration, the capped update and the momentum blend *)

Module Update.
Import Tensor NewtonSchulz.
Local Open Scope R_scope.

(** [u @ M] for a vector [u]. *)
Definition vecmat_raw (u : list R) (M : Mat) : list R :=
  map (fun j => rsum (nrows M) (fun i => nth i u 0 * get M i j)) (seq 0 (ncols M)).

Definition vecmat (u : list R) (M : Mat) : result (list R) :=
  if Nat.eqb (length u) (nrows M) then Ok (vecmat_raw u M) else Raise RuntimeError.

Definition vdiv (u : list R) (d : R) : list R := map (fun x => x / d) u.

(** The body of [for _ in range(26)], repeated [n] times. *)
Fixpoint power_loop (n : nat) (M : Mat) (u : list R) : result (list R) :=
  match n with
  | O => Ok u
  | S n' =>
      let* v := vecmat u M in
      let* u := vecmat v (mT M) in
      power_loop n' M (vdiv u (vnorm u + 1e-8))
  end.

(** [_power_iteration(M)]; [noise] is the draw of [torch.randn]. *)
Definition _power_iteration (noise : nat -> R) (M : Mat) : result R :=
  let u := map noise (seq 0 (nrows M)) in
  let* u := power_loop 26 M u in
  let* w := vecmat u M in
  Ok (vnorm w).

(** [torch.sqrt(torch.tensor(p.size(-2) / p.size(-1)))]; the quotient is a
    Python division of integers. *)
Definition shape_scale (p : Mat) : result R :=
  if Nat.eqb (ncols p) 0 then Raise ZeroDivisionError
  else Ok (sqrt (INR (nrows p) / INR (ncols p))).

(** [g.view_as(p)] for a flat [g]. *)
Definition view_as (g : list R) (p : Mat) : result Mat :=
  if Nat.eqb (length g) (nrows p * ncols p)
  then Ok (build (nrows p) (ncols p) (fun i j => nth (i * ncols p + j) g 0))
  else Raise RuntimeError.

(** [p.add_(other, alpha=alpha)] *)
Definition add_ (p other : Mat) (alpha : R) : result Mat :=
  if same_shape p other
  then Ok (build (nrows p) (ncols p) (fun i j => get p i j + alpha * get other i j))
  else Raise RuntimeError.

(** [torch.maximum(torch.tensor(1.0), sigma_max / (w_max * scale))] *)
Definition scale_down_of (w_max scale sigma_max : R) : R :=
  Rmax 1 (sigma_max / (w_max * scale)).

(** The body of the loop of [update_prev] for one pair
    [(p_world, g_world)]. *)
Definition apply_update (lr w_max : R) (noise : nat -> R) (p_world : Mat)
    (g_world : list R) : result Mat :=
  let* scale := shape_scale p_world in
  let* g := view_as g_world p_world in
  let* p := add_ p_world g (- lr * scale) in
  let* sigma_max := _power_iteration noise p in
  let scale_down := scale_down_of w_max scale sigma_max in
  Ok (sdiv p (scale_down + 1e-12)).

(** [start.lerp_(end, weight)]: start + weight * (end - start). *)
Definition lerp_ (start end_ : Mat) (weight : R) : result Mat :=
  if same_shape start end_
  then Ok (build (nrows start) (ncols start)
             (fun i j => get start i j + weight * (get end_ i j - get start i j)))
  else Raise RuntimeError.

Definition zeros_like (g : Mat) : Mat := zeros (nrows g) (ncols g).

(** Lines 287-291 of [Muon.step]: the stored buffer (if any) and the
    gradient give the new buffer, the gradient as [lerp_] leaves it, and the
    update handed to [orthogonalize]. *)
Definition momentum_update (momentum : R) (nesterov : bool) (stored : option Mat)
    (g : Mat) : result (Mat * Mat * Mat) :=
  let buf := match stored with Some b => b | None => zeros_like g end in
  let* buf := lerp_ buf g (1 - momentum) in
  if nesterov
  then let* g := lerp_ g buf momentum in Ok (buf, g, g)
  else Ok (buf, g, buf).

(** The blend as the specification words it, entry by entry. *)
Definition ema_spec (momentum : R) (buf g : Mat) : Mat :=
  build (nrows g) (ncols g) (fun i j => get buf i j * momentum + get g i j * (1 - momentum)).

Definition lookahead_spec (momentum : R) (buf g : Mat) : Mat :=
  build (nrows g) (ncols g) (fun i j => get g i j * (1 - momentum) + get buf i j * momentum).

(** [power_loop] without its shape checks. *)
Fixpoint power_raw (n : nat) (M : Mat) (u : list R) : list R :=
  match n with
  | O => u
  | S n' =>
      let w := vecmat_raw (vecmat_raw u M) (mT M) in
      power_raw n' M (vdiv w (vnorm w + 1e-8))
  end.

(** [_power_iteration] without its shape checks. *)
Definition sigma_raw (noise : nat -> R) (M : Mat) : R :=
  vnorm (vecmat_raw (power_raw 26 M (map noise (seq 0 (nrows M)))) M).


(** [p - lr * sqrt(rows / cols) * update], entry by entry. *)
Definition updated (lr : R) (p : Mat) (g : list R) : Mat :=
  build (nrows p) (ncols p)
    (fun i j => get p i j
                - lr * sqrt (INR (nrows p) / INR (ncols p)) * nth (i * ncols p + j) g 0).

(** The divisor of the final [div_]. *)
Definition cap_divisor (w_max scale sigma : R) : R :=
  Rmax 1 (sigma / (w_max * scale)) + 1e-12.

(** [sigma] is a singular value of [X]: unit vectors [u], [v] with
    u X = sigma v and v X^T = sigma u. *)
Definition singular_value (X : Mat) (sigma : R) : Prop :=
  0 <= sigma /\
  exists u v : list R,
    length u = nrows X /\ length v = ncols X /\
    vnorm u = 1 /\ vnorm v = 1 /\
    vecmat_raw u X = map (Rmult sigma) v /\
    vecmat_raw v (mT X) = map (Rmult sigma) u.

End Update.

(** ** Lines 276-280 of [update_prev] over IEEE binary32 *)

Module F32.

Definition prec : Z := 24.
Definition emax : Z := 128.

Definition add : spec_float -> spec_float -> spec_float := SFadd prec emax.
Definition mul : spec_float -> spec_float -> spec_float := SFmul prec emax.
Definition div : spec_float -> spec_float -> spec_float := SFdiv prec emax.

Definition one : spec_float := S754_finite false 8388608 (-23).
(** 1e-12 rounded to binary32. *)
Definition eps12 : spec_float := S754_finite false 9223372 (-63).

Definition is_nan (x : spec_float) : bool :=
  match x with S754_nan => true | _ => false end.

(** [torch.maximum]: a NaN operand gives NaN. *)
Definition maximum (a b : spec_float) : spec_float :=
  if is_nan a || is_nan b then S754_nan
  else if SFltb a b then b else a.

Definition scale_down_of (w_max scale sigma_max : spec_float) : spec_float :=
  maximum one (div sigma_max (mul w_max scale)).

(** [p_world.div_(scale_down + 1e-12)] *)
Definition rescale (w_max scale sigma_max : spec_float) (p : list (list spec_float))
    : list (list spec_float) :=
  let scale_down := scale_down_of w_max scale sigma_max in
  map (map (fun x => div x (add scale_down eps12))) p.

Definition pos_inf : spec_float := S754_infinity false.

Definition finite_entry (x : spec_float) : bool :=
  match x with S754_zero _ | S754_finite _ _ _ => true | _ => false end.

Definition is_zero (x : spec_float) : bool :=
  match x with S754_zero _ => true | _ => false end.

End F32.

(** ** The sharded, pipelined step *)

Module Muon.
Import Tensor NewtonSchulz Update.

(** [range(stop)[::step]] iterates 0, step, 2*step, ... below [stop]; a
    zero step raises a ValueError. *)
Fixpoint range_from (fuel start stop step : nat) : list nat :=
  match fuel with
  | O => []
  | S fuel' =>
      if Nat.ltb start stop
      then start :: range_from fuel' (start + step) stop step
      else []
  end.

Definition range_step (stop step : nat) : result (list nat) :=
  if Nat.eqb step 0 then Raise ValueError else Ok (range_from stop 0 stop step).

(** The indices selected by the slice [[lo : hi]] of a list of [n] items. *)
Definition slice_idx (lo hi n : nat) : list nat := seq lo (Nat.min hi n - lo).

(** [Muon.__init__]: one group per element count. *)
Definition mat_numel (p : Mat) : nat := nrows p * ncols p.

Definition init_groups (ps : list Mat) : list (list Mat) :=
  map (fun size => filter (fun p => mat_numel p = size) ps)
      (remove_dups (map mat_numel ps)).

Record config : Type := mkConfig {
  lr : R; momentum : R; nesterov : bool; w_max : R;
  rank : nat; world_size : nat }.

(** What the step draws from outside the device: the contribution
    [peer base_i r] of rank [r] to the gather issued at [base_i], and the
    [k]-th draw [noise k] of [torch.randn]. *)
Record env : Type := mkEnv {
  peer : nat -> nat -> list R;
  noise : nat -> nat -> R }.

Inductive event : Type :=
| EvCompute (base_i idx : nat)
| EvPlaceholder (base_i : nat)
| EvGather (base_i : nat)
| EvWait (base_i : nat)
| EvUpdate (base_i idx : nat).

(** A pending all-gather: the shard it was issued for and what every rank
    contributed. *)
Record gather : Type := mkGather { h_base : nat; h_slots : list (list R) }.

(** The group as one device sees it.  Parameters are named by their index
    in [group["params"]]; [handle] and [params_world] are the two closure
    variables of [step]; [pending] lists the gathers issued and not yet
    awaited; [trace] records the operations in program order. *)
Record state : Type := mkState {
  params : list Mat;
  grads : list (option Mat);
  momentum_buffer : gmap nat Mat;
  update_buffer : list (list R);
  handle : option gather;
  params_world : option (list nat);
  pending : list nat;
  rng : nat;
  trace : list event }.

Definition log (e : event) (st : state) : state :=
  mkState (params st) (grads st) (momentum_buffer st) (update_buffer st)
          (handle st) (params_world st) (pending st) (rng st) (trace st ++ [e]).

(** [handle.wait()]: the gathered slots land in [update_buffer]. *)
Definition wait (h : gather) (st : state) : state :=
  mkState (params st) (grads st) (momentum_buffer st) (h_slots h)
          (handle st) (params_world st)
          (filter (fun b => b <> h_base h) (pending st)) (rng st)
          (trace st ++ [EvWait (h_base h)]).

(** One pass of the loop of [update_prev]. *)
Definition update_one (c : config) (e : env) (base_i : nat) (st : state)
    (pg : nat * list R) : result state :=
  let '(idx, g_world) := pg in
  match params st !! idx with
  | None => Raise IndexError
  | Some p_world =>
      let* p := apply_update (lr c) (w_max c) (noise e (rng st)) p_world g_world in
      Ok (mkState (<[idx := p]> (params st)) (grads st) (momentum_buffer st)
                  (update_buffer st) (handle st) (params_world st) (pending st)
                  (S (rng st)) (trace st ++ [EvUpdate base_i idx]))
  end.

Fixpoint foldM {A S : Type} (f : S -> A -> result S) (l : list A) (s : S) : result S :=
  match l with
  | [] => Ok s
  | a :: l' => let* s' := f s a in foldM f l' s'
  end.

Definition update_prev (c : config) (e : env) (st : state) : result state :=
  match handle st with
  | None => Raise AttributeError
  | Some h =>
      let st := wait h st in
      match params_world st with
      | None => Raise TypeError
      | Some pw => foldM (update_one c e (h_base h)) (zip pw (update_buffer st)) st
      end
  end.

(** What the variable [g] names after lines 282-294: a fresh tensor, or the
    view [update_buffer_views[r]], which shares the memory of
    [update_buffer] and so shows whatever a later [wait] writes there. *)
Inductive tensor_ref : Type :=
| Fresh (v : list R)
| BufferView (r : nat).

Definition deref (st : state) (g : tensor_ref) : result (list R) :=
  match g with
  | Fresh v => Ok v
  | BufferView r =>
      match update_buffer st !! r with
      | Some v => Ok v
      | None => Raise IndexError
      end
  end.

(** Lines 282-294: the contribution of this rank to the gather of
    [base_i]. *)
Definition local_update (c : config) (st : state) (base_i : nat)
    : result (state * tensor_ref) :=
  let idx := base_i + rank c in
  if Nat.ltb idx (length (params st)) then
    match grads st !! idx with
    | Some (Some g) =>
        let* (buf, g', upd) :=
          momentum_update (momentum c) (nesterov c) (momentum_buffer st !! idx) g in
        let* o := orthogonalize upd in
        Ok (mkState (params st) (<[idx := Some g']> (grads st))
                    (<[idx := buf]> (momentum_buffer st)) (update_buffer st)
                    (handle st) (params_world st) (pending st) (rng st)
                    (trace st ++ [EvCompute base_i idx]),
            Fresh (flatten o))
    | _ => Raise AssertionError
    end
  else
    match update_buffer st !! rank c with
    | Some _ => Ok (log (EvPlaceholder base_i) st, BufferView (rank c))
    | None => Raise IndexError
    end.

(** [dist.all_gather_into_tensor(update_buffer, g, async_op=True)], with
    [g] holding [v] when the gather is issued, followed by
    [params_world = params[base_i : base_i + world_size]]. *)
Definition all_gather (c : config) (e : env) (base_i : nat) (g : list R) : gather :=
  mkGather base_i
    (map (fun r => if Nat.eqb r (rank c) then g else peer e base_i r)
         (seq 0 (world_size c))).

Definition issue (c : config) (e : env) (base_i : nat) (g : list R) (st : state) : state :=
  mkState (params st) (grads st) (momentum_buffer st) (update_buffer st)
          (Some (all_gather c e base_i g))
          (Some (slice_idx base_i (base_i + world_size c) (length (params st))))
          (pending st ++ [base_i]) (rng st)
          (trace st ++ [EvGather base_i]).

(** The body of [for base_i in range(len(params))[::self.world_size]]. *)
Definition step_body (c : config) (e : env) (st : state) (base_i : nat) : result state :=
  let* (st, g) := local_update c st base_i in
  let* st := if Nat.ltb 0 base_i then update_prev c e st else Ok st in
  let* v := deref st g in
  Ok (issue c e base_i v st).

(** The body of [for group in self.param_groups] on one group. *)
Definition enter (st : state) : state :=
  mkState (params st) (grads st) (momentum_buffer st) (update_buffer st)
          None None (pending st) (rng st) (trace st).

Definition step_group (c : config) (e : env) (st : state) : result state :=
  let st := enter st in
  let* bases := range_step (length (params st)) (world_size c) in
  let* st := foldM (step_body c e) bases st in
  update_prev c e st.

(** The number of shard steps of a group of [n] parameters. *)
Definition shards (n w : nat) : nat := (n + w - 1) / w.

(** The operations of one step in program order, for a group of [n]
    parameters: shard [k] computes (or takes its placeholder), applies shard
    [k - 1] when there is one, and issues its gather; the last shard is
    applied after the loop. *)
Definition local_event (c : config) (n b : nat) : event :=
  if Nat.ltb (b + rank c) n then EvCompute b (b + rank c) else EvPlaceholder b.

Definition apply_events (c : config) (n b : nat) : list event :=
  EvWait b :: map (EvUpdate b) (slice_idx b (b + world_size c) n).

Definition iteration_events (c : config) (n k : nat) : list event :=
  local_event c n (k * world_size c)
  :: match k with
     | O => []
     | S k' => apply_events c n (k' * world_size c)
     end
  ++ [EvGather (k * world_size c)].

Definition pipeline (c : config) (n k : nat) : list event :=
  flat_map (iteration_events c n) (seq 0 k).

Definition schedule (c : config) (n : nat) : list event :=
  pipeline c n (shards n (world_size c))
  ++ apply_events c n ((shards n (world_size c) - 1) * world_size c).

Definition shp (p : Mat) : nat * nat := (nrows p, ncols p).

(** A group as [Muon.__init__] and the training loop leave it before a
    step: at least one parameter, every parameter with [size] entries and a
    gradient of its shape, stored momentum buffers of the parameter's shape,
    one buffer view per rank, peers contributing [size] entries for the
    parameters that exist, and no gather in flight. *)
Record group_ok (c : config) (e : env) (size : nat) (st : state) : Prop := {
  ok_world : 0 < world_size c;
  ok_rank : rank c < world_size c;
  ok_nonempty : 0 < length (params st);
  ok_shapes : Forall (fun p => 0 < nrows p /\ 0 < ncols p /\ mat_numel p = size) (params st);
  ok_grads : forall i p, params st !! i = Some p ->
             exists g, grads st !! i = Some (Some g) /\ shp g = shp p;
  ok_momentum : forall i b p, momentum_buffer st !! i = Some b ->
                params st !! i = Some p -> shp b = shp p;
  ok_buffer : length (update_buffer st) = world_size c;
  ok_peer : forall b r, b + r < length (params st) -> length (peer e b r) = size;
  ok_pending : pending st = [] }.

(** What the loop of [update_prev] needs of a pair (index, gathered view). *)
Definition appliable (sh : list (nat * nat)) (pg : nat * list R) : Prop :=
  exists r c, sh !! pg.1 = Some (r, c) /\ 0 < r /\ 0 < c /\ length pg.2 = r * c.

(** What every pass of the loop keeps, for parameters of shapes [sh]:
    gradients and momentum buffers of those shapes, one view per rank. *)
Record core_inv (c : config) (sh : list (nat * nat)) (st : state) : Prop := {
  inv_shapes : shp <$> params st = sh;
  inv_grads : forall i s, sh !! i = Some s ->
              exists g, grads st !! i = Some (Some g) /\ shp g = s;
  inv_mom : forall i b s, momentum_buffer st !! i = Some b -> sh !! i = Some s -> shp b = s;
  inv_buf : length (update_buffer st) = world_size c }.
Arguments inv_shapes {c sh} st _.
Arguments inv_grads {c sh} st _.
Arguments inv_mom {c sh} st _.
Arguments inv_buf {c sh} st _.

(** The gather in flight after [k] passes of the loop. *)
Definition in_flight (c : config) (e : env) (size : nat) (sh : list (nat * nat))
    (k : nat) (st : state) : Prop :=
  match k with
  | O => handle st = None /\ pending st = []
  | S k' =>
      exists g,
        handle st = Some (all_gather c e (k' * world_size c) g) /\
        params_world st
          = Some (slice_idx (k' * world_size c) (k' * world_size c + world_size c)
                    (length sh)) /\
        pending st = [k' * world_size c] /\
        (k' * world_size c + rank c < length sh -> length g = size)
  end.

(** The state after [k] passes of the loop, started with trace [tr0]. *)
Record loop_inv (c : config) (e : env) (size : nat) (sh : list (nat * nat))
    (tr0 : list event) (k : nat) (st : state) : Prop := {
  inv_core : core_inv c sh st;
  inv_handle : in_flight c e size sh k st;
  inv_trace : trace st = tr0 ++ pipeline c (length sh) k }.
Arguments inv_core {c e size sh tr0 k} st _.

(** Two states of one device that agree on everything the step reads
    except the contents of the buffer and of the slots that no parameter
    is zipped with. *)
Record sim (st1 st2 : state) : Prop := {
  sim_params : params st1 = params st2;
  sim_grads : grads st1 = grads st2;
  sim_mom : momentum_buffer st1 = momentum_buffer st2;
  sim_buflen : length (update_buffer st1) = length (update_buffer st2);
  sim_pw : params_world st1 = params_world st2;
  sim_rng : rng st1 = rng st2;
  sim_handle :
    match handle st1, handle st2 with
    | None, None => True
    | Some h1, Some h2 =>
        h_base h1 = h_base h2 /\
        length (h_slots h1) = length (h_slots h2) /\
        forall pw, params_world st1 = Some pw ->
                   zip pw (h_slots h1) = zip pw (h_slots h2)
    | _, _ => False
    end }.

(** The contribution of the rank: the same reference in both runs, and a
    fresh tensor whenever the rank has a parameter. *)
Definition sim_local (c : config) (b : nat) (r1 r2 : state * tensor_ref) : Prop :=
  sim r1.1 r2.1 /\ r1.2 = r2.2 /\
  length (params r1.1) = length (params r2.1) /\
  (b + rank c < length (params r1.1) -> exists v, r1.2 = Fresh v).

(** Both runs are at states that agree, over [N] parameters. *)
Definition simN (N : nat) (st1 st2 : state) : Prop :=
  sim st1 st2 /\ length (params st1) = N.

(** The scenario of the specification: three parameters of one size, two
    devices, seen from rank 1; the buffer holds what an earlier use left. *)
Definition demo_config : config := mkConfig 0.02 0.95 true 1 1 2.

Definition demo_env : env := mkEnv (fun _ _ => [0; 0; 0; 0]%R) (fun _ _ => 1%R).

Definition demo_state : state :=
  mkState [diag2 1 1; diag2 1 1; diag2 1 1]
          [Some (diag2 256 1); Some (diag2 256 1); Some (diag2 256 1)]
          ∅
          [[0; 0; 0; 0]%R; [7; 0; 0; 7]%R]
          None None [] 0 [].

(** The same scenario with other leftovers in the buffer and other
    contributions of the peers where no parameter exists. *)
Definition demo_env' : env :=
  mkEnv (fun b r => if Nat.ltb (b + r) 3 then [0; 0; 0; 0]%R else [9; 9; 9; 9]%R)
        (fun _ _ => 1%R).

Definition demo_state' : state :=
  mkState [diag2 1 1; diag2 1 1; diag2 1 1]
          [Some (diag2 256 1); Some (diag2 256 1); Some (diag2 256 1)]
          ∅
          [[5; 5; 5; 5]%R; [0; 0; 0; 0]%R]
          None None [] 0 [].

End Muon.

(** ** The schedules of the training loop *)

(** A failed [assert]. *)
Definition assert (b : bool) : result unit := if b then Ok tt else Raise AssertionError.

Module Schedule.
Local Open Scope Q_scope.

(** The fields of [Hyperparameters] that the schedules read. *)
Record Hyperparameters : Type := mkArgs { num_iterations : Z; cooldown_frac : Q }.

Definition args : Hyperparameters := mkArgs 1770 0.4.

(** [a / b] on Python integers. *)
Definition truediv (a b : Z) : result Q :=
  if Z.eqb b 0 then Raise ZeroDivisionError else Ok (inject_Z a / inject_Z b).

Definition Qlt_bool (x y : Q) : bool := negb (Qle_bool y x).

(** [get_lr(step)] *)
Definition get_lr (a : Hyperparameters) (step : Z) : result Q :=
  let* x := truediv step (num_iterations a) in
  let* _ := assert (Qle_bool 0 x && Qlt_bool x 1) in
  if Qlt_bool x (1 - cooldown_frac a) then Ok 1
  else
    if Qeq_bool (cooldown_frac a) 0 then Raise ZeroDivisionError
    else
      let w := (1 - x) / cooldown_frac a in
      Ok (w * 1 + (1 - w) * 0.1).

(** Python's [min(a, b)]: [b] when it is smaller, else [a]. *)
Definition min (a b : Q) : Q := if Qlt_bool b a then b else a.

(** The momentum warmup of the training loop:
    [frac = min(step / 300, 1); (1 - frac) * 0.85 + frac * 0.95]. *)
Definition momentum_warmup (step : Z) : Q :=
  let frac := min (inject_Z step / 300) 1 in
  (1 - frac) * 0.85 + frac * 0.95.

(** What a generator expression under [next] can raise besides the
    built-in exceptions of [exn]. *)
Inductive raised : Type :=
| Builtin (e : exn)
| StopIteration.

(** [len(range(start, stop, step))] for a non-zero step. *)
Definition range_len (start stop step : Z) : Z :=
  if (0 <? step)%Z
  then (if (start <? stop)%Z then ((stop - start - 1) / step + 1)%Z else 0%Z)
  else (if (stop <? start)%Z then ((start - stop - 1) / (- step) + 1)%Z else 0%Z).

(** [range(start, stop, step)] *)
Definition range (start stop step : Z) : result (list Z) :=
  if (step =? 0)%Z then Raise ValueError
  else Ok (map (fun i => (start + Z.of_nat i * step)%Z)
               (seq 0 (Z.to_nat (range_len start stop step)))).

(** [int(v)]: truncation toward zero. *)
Definition int (v : Q) : Z := Z.quot (Qnum v) (Zpos (Qden v)).

(** [next(x for x in range(n, int(v) + 1 + n, n) if x >= v)] *)
Definition next_multiple_of_n (v : Q) (n : Z) : raised + Z :=
  match range n (int v + 1 + n) n with
  | Raise e => inl (Builtin e)
  | Ok xs =>
      match List.find (fun x => Qle_bool v (inject_Z x)) xs with
      | Some x => inr x
      | None => inl StopIteration
      end
  end.

(** [get_window_size_blocks(step)]: the number of 128-token blocks of the
    sliding window. *)
Definition get_window_size_blocks (a : Hyperparameters) (step : Z) : raised + Z :=
  match truediv step (num_iterations a) with
  | Raise e => inl (Builtin e)
  | Ok x =>
      if Qle_bool 0 x && Qle_bool x 1
      then match next_multiple_of_n (1728 * x) 128 with
           | inr window_size => inr (window_size / 128)%Z
           | inl r => inl r
           end
      else inl (Builtin AssertionError)
  end.

End Schedule.

(** ** The distributed data loader *)

Module DataLoader.
Local Open Scope nat_scope.

(** A data file, in host byte order: the 32-bit words it starts with (256
    of them in a complete header) and the 16-bit words that follow byte
    1024.  A trailing odd byte holds no token and is not modelled. *)
Record file : Type := mkFile { header : list Z; payload : list Z }.

(** [_load_data_shard(file)]: [torch.from_file] refuses a file shorter than
    the header, [torch.empty] a negative size; [readinto] reads as many of
    the [2 * num_tokens] bytes as the file holds. *)
Definition _load_data_shard (f : file) : result (list Z) :=
  if length (header f) <? 256 then Raise RuntimeError
  else
    let* _ := assert (nth 0 (header f) 0 =? 20240520)%Z in
    let* _ := assert (nth 1 (header f) 0 =? 1)%Z in
    let num_tokens := nth 2 (header f) 0%Z in
    if (num_tokens <? 0)%Z then Raise RuntimeError
    else
      let tokens := take (Z.to_nat num_tokens) (payload f) in
      let nbytes := 2 * length tokens in
      let* _ := assert (nbytes =? 2 * Z.to_nat num_tokens) in
      Ok tokens.

(** The arguments of [distributed_data_generator] after the file pattern;
    [files] below is the sorted list of the files it matches. *)
Record settings : Type := mkSettings { batch_size : nat; rank : nat; world_size : nat }.

(** The local variables of the suspended generator. *)
Record loader : Type := mkLoader {
  local_batch_size : nat;
  file_iter : list file;
  tokens : list Z;
  pos : nat }.

(** [_load_data_shard(next(file_iter))]: the StopIteration of an exhausted
    iterator, raised inside a generator, reaches the caller as a
    RuntimeError. *)
Definition next_shard (it : list file) : result (list Z * list file) :=
  match it with
  | [] => Raise RuntimeError
  | f :: it' => let* t := _load_data_shard f in Ok (t, it')
  end.

(** The generator up to its [while True]. *)
Definition start (s : settings) (files : list file) : result loader :=
  if world_size s =? 0 then Raise ZeroDivisionError
  else
    let* _ := assert (batch_size s mod world_size s =? 0) in
    let local_batch_size := batch_size s / world_size s in
    let* (t, it) := next_shard files in
    Ok (mkLoader local_batch_size it t 0).

(** One pass of the loop, up to its [yield]. *)
Definition produce (s : settings) (l : loader)
    : result ((list Z * list Z) * loader) :=
  let* l :=
    if length (tokens l) <=? pos l + batch_size s + 1
    then let* (t, it) := next_shard (file_iter l) in
         Ok (mkLoader (local_batch_size l) it t 0)
    else Ok l in
  let buf :=
    take (local_batch_size l + 1) (drop (pos l + rank s * local_batch_size l) (tokens l)) in
  let inputs := removelast buf in
  let targets := tl buf in
  Ok ((inputs, targets),
      mkLoader (local_batch_size l) (file_iter l) (tokens l) (pos l + batch_size s)).

(** A generator object: not yet started, or suspended at its [yield]. *)
Inductive generator : Type :=
| Unstarted (files : list file)
| Suspended (l : loader).

(** [next(generator)] *)
Definition next (s : settings) (g : generator)
    : result ((list Z * list Z) * generator) :=
  let* l := match g with Unstarted files => start s files | Suspended l => Ok l end in
  let* (b, l) := produce s l in
  Ok (b, Suspended l).

(** [n] calls of [next] in a row. *)
Fixpoint batches (s : settings) (n : nat) (g : generator)
    : result (list (list Z * list Z) * generator) :=
  match n with
  | O => Ok ([], g)
  | S n' =>
      let* (b, g) := next s g in
      let* (bs, g) := batches s n' g in
      Ok (b :: bs, g)
  end.

(** A well-formed file holding the tokens [ts]. *)
Definition shard (ts : list Z) : file :=
  mkFile ([20240520; 1; Z.of_nat (length ts)]%Z ++ repeat 0%Z 253) ts.

End DataLoader.

(** ** Views of a group and of its trace *)

Module Group.
Import Tensor Muon.

(** The parameters that a trace updates, in the order of the updates. *)
Definition updated_indices (tr : list event) : list nat :=
  flat_map (fun ev => match ev with EvUpdate _ idx => [idx] | _ => [] end) tr.

(** The group with [p.grad = None] for parameter [idx]. *)
Definition clear_grad (idx : nat) (st : state) : state :=
  mkState (params st) (<[idx := None]> (grads st)) (momentum_buffer st)
          (update_buffer st) (handle st) (params_world st) (pending st)
          (rng st) (trace st).

(** Two states that differ at most in the gradient of parameter [idx],
    which the first one lacks. *)
Record grad_missing (idx : nat) (s s' : state) : Prop := {
  gm_params : params s = params s';
  gm_grads : grads s = <[idx := None]> (grads s');
  gm_mom : momentum_buffer s = momentum_buffer s';
  gm_buf : update_buffer s = update_buffer s';
  gm_handle : handle s = handle s';
  gm_pw : params_world s = params_world s';
  gm_pending : pending s = pending s';
  gm_rng : rng s = rng s';
  gm_trace : trace s = trace s' }.

(** The update that this rank computes for parameter [idx]: lines 285-294
    of [Muon.step] on the gradient and the stored momentum of [st]. *)
Definition own_update (c : config) (st : state) (idx : nat) : result (list R) :=
  match grads st !! idx with
  | Some (Some g) =>
      let* (buf, g', upd) :=
        Update.momentum_update (momentum c) (nesterov c) (momentum_buffer st !! idx) g in
      let* o := NewtonSchulz.orthogonalize upd in
      Ok (flatten o)
  | _ => Raise AssertionError
  end.

(** The update that the gather of its shard delivers for parameter [idx]:
    the rank's own one, or the contribution of the rank in charge. *)
Definition gathered (c : config) (e : env) (st : state) (idx : nat) : result (list R) :=
  if Nat.eqb (idx mod world_size c) (rank c) then own_update c st idx
  else Ok (peer e (world_size c * (idx / world_size c)) (idx mod world_size c)).

(** In [s], the parameters below [d] of the group [st0] carry their
    update, each with the random draw of its index; the others are as in
    [st0]. *)
Record applied_upto (c : config) (e : env) (st0 : state) (d : nat) (s : state) : Prop := {
  au_rng : rng s = rng st0 + d;
  au_done : forall idx p, idx < d -> params st0 !! idx = Some p ->
            exists u p',
              gathered c e st0 idx = Ok u /\
              Update.apply_update (lr c) (w_max c) (noise e (rng st0 + idx)) p u = Ok p' /\
              params s !! idx = Some p';
  au_rest : forall idx, d <= idx -> params s !! idx = params st0 !! idx }.

(** Before shard [k] is computed: gradients and momentum buffers from that
    shard on are those of [st0], and the gather in flight carries the
    update that the rank computed for the shard before. *)
Record awaiting (c : config) (e : env) (st0 : state) (k : nat) (s : state) : Prop := {
  aw_fresh : forall idx, k * world_size c <= idx ->
             grads s !! idx = grads st0 !! idx /\
             momentum_buffer s !! idx = momentum_buffer st0 !! idx;
  aw_handle : forall k', k = S k' ->
              exists v,
                handle s = Some (all_gather c e (k' * world_size c) v) /\
                (k' * world_size c + rank c < length (params st0) ->
                 own_update c st0 (k' * world_size c + rank c) = Ok v) }.

End Group.

(** ** Matrices as functions of their indices *)

Module Entries.
Import Tensor.
Local Open Scope R_scope.

(** The product of an (.. x n) and an (n x ..) family of entries, the
    transpose, and the linear combinations. *)
Definition mm (n : nat) (f g : nat -> nat -> R) : nat -> nat -> R :=
  fun i j => rsum n (fun k => f i k * g k j).

Definition tr (f : nat -> nat -> R) : nat -> nat -> R := fun i j => f j i.

Definition padd (f g : nat -> nat -> R) : nat -> nat -> R := fun i j => f i j + g i j.

Definition pscal (k : R) (f : nat -> nat -> R) : nat -> nat -> R := fun i j => k * f i j.

(** The entries of [quintic_step abc X] from the entries [x] of an
    [r] x [c] matrix [X]. *)
Definition qs (abc : R * R * R) (r c : nat) (x : nat -> nat -> R) : nat -> nat -> R :=
  let '(a, b, c') := abc in
  let A := mm c x (tr x) in
  let B := padd (pscal b A) (pscal c' (mm r A A)) in
  padd (pscal a x) (mm r B x).

(** [-G] *)
Definition neg (G : Mat) : Mat := smul (-1) G.


End Entries.

(** ** The projection of the output head and the residual block *)

Module Model.
Import Tensor.
Local Open Scope R_scope.

(** The divisor of one row in [project_embed_unembed_weights]:
    [torch.maximum(rms, w) / w + 1e-12] with
    [rms = norm(row) * shape[-1]**0.5]. *)
Definition row_divisor (w_max : R) (d : nat) (row : list R) : R :=
  Rmax (vnorm row * sqrt (INR d)) w_max / w_max + 1e-12.

(** [project_embed_unembed_weights(model)] on [model.lm_head.weight]. *)
Definition project_embed_unembed_weights (lm_head_muon : bool) (lm_head_w_max : R)
    (weight : Mat) : Mat :=
  if lm_head_muon then weight
  else
    mkMat (nrows weight) (ncols weight)
      (map (fun row => map (fun x => x / row_divisor lm_head_w_max (ncols weight) row) row)
           (rows weight)).

(** [a * x + b * y] on activations of one shape, entry by entry. *)
Fixpoint axpby (a : R) (x : list R) (b : R) (y : list R) : list R :=
  match x, y with
  | xi :: x', yi :: y' => (a * xi + b * yi) :: axpby a x' b y'
  | _, _ => []
  end.

(** One residual connection [(1 - s) * x + s * f(x)]; the activations are
    modelled flat, and a sub-module that returns another number of entries
    is refused, as an addition of shapes that do not match is. *)
Definition residual (s : R) (f : list R -> list R) (x : list R) : result (list R) :=
  let y := f x in
  if Nat.eqb (length y) (length x) then Ok (axpby (1 - s) x s y) else Raise RuntimeError.

(** [Block.forward]; [attn] and [mlp] are the two sub-modules, taken as
    functions on the activations.  [residual_scale] is 1 and [res_denom] is
    [2 * num_layers]. *)
Definition Block_forward (num_layers : nat) (attn mlp : list R -> list R)
    (x : list R) : result (list R) :=
  if Nat.eqb (2 * num_layers) 0 then Raise ZeroDivisionError
  else
    let s := 1 / INR (2 * num_layers) in
    let* x := residual s attn x in
    residual s mlp x.

(** [x - y], entry by entry. *)
Definition vsub (x y : list R) : list R := axpby 1 x (-1) y.

(** The inner product of two activations. *)
Fixpoint dot (x y : list R) : R :=
  match x, y with
  | xi :: x', yi :: y' => xi * yi + dot x' y'
  | _, _ => 0
  end.

(** [f] keeps the length of its argument and moves two activations of
    length [n] no further apart than they are. *)
Definition nonexpansive (n : nat) (f : list R -> list R) : Prop :=
  (forall x, length x = n -> length (f x) = n) /\
  (forall x y, length x = n -> length y = n ->
               vnorm (vsub (f x) (f y)) <= vnorm (vsub x y)).

End Model.

(** ** The random draw of the estimate and its float32 evaluation *)

Module Cap.
Import Tensor.
Local Open Scope R_scope.




End Cap.

(** Lines 212-218 and 276-280 over IEEE binary32, for a matrix given by its
    rows.  Sums run in index order, an order torch leaves open: the
    evaluation is used for overflow, where every order gives the same
    infinities, NaNs and zeros. *)
Module F32Estimate.
Import F32.

Definition sqrt : spec_float -> spec_float := SFsqrt prec emax.
Definition zero : spec_float := S754_zero false.
(** 1e-8, 1e19 and 1e30 rounded to binary32. *)
Definition eps8 : spec_float := S754_finite false 11258999 (-50).


Definition sum (l : list spec_float) : spec_float := fold_left add l zero.

(** [u.norm()] *)
Definition norm (u : list spec_float) : spec_float :=
  sqrt (sum (map (fun x => mul x x) u)).

(** [u @ M] for a matrix of [cols] columns. *)
Definition vecmat (u : list spec_float) (M : list (list spec_float)) (cols : nat)
    : list spec_float :=
  map (fun j => sum (map (fun xr => mul (fst xr) (nth j (snd xr) zero)) (combine u M)))
      (seq 0 cols).

(** [M.t()] *)
Definition transpose (M : list (list spec_float)) (cols : nat) : list (list spec_float) :=
  map (fun j => map (fun row => nth j row zero) M) (seq 0 cols).

Fixpoint power_loop (n : nat) (M Mt : list (list spec_float)) (rows cols : nat)
    (u : list spec_float) : list spec_float :=
  match n with
  | O => u
  | S n' =>
      let v := vecmat u M cols in
      let u := vecmat v Mt rows in
      power_loop n' M Mt rows cols (map (fun x => div x (add (norm u) eps8)) u)
  end.

(** [_power_iteration(M)] with the draw [u] of [torch.randn]. *)
Definition _power_iteration (u : list spec_float) (M : list (list spec_float))
    : spec_float :=
  let rows := length M in
  let cols := length (hd [] M) in
  let u := power_loop 26 M (transpose M cols) rows cols u in
  norm (vecmat u M cols).


End F32Estimate.

(** * Properties *)

(** ** Runs on small inputs *)

Section Examples.
Import NewtonSchulz Muon.

Example range_3_2 : range_step 3 2 = Ok [0; 2].
Proof. reflexivity. Qed.

Example range_7_3 : range_step 7 3 = Ok [0; 3; 6].
Proof. reflexivity. Qed.

Example range_step_zero : range_step 5 0 = Raise ValueError.
Proof. reflexivity. Qed.

Example last_slice : slice_idx 2 4 3 = [2].
Proof. reflexivity. Qed.

Example vector_input : orthogonalize_nd (mkNd [5] [1; 2; 3; 4; 5]%R) = Raise IndexError.
Proof. reflexivity. Qed.

Example scalar_input : orthogonalize_nd (mkNd [] [1%R]) = Raise IndexError.
Proof. reflexivity. Qed.

(** In binary32 the guard 1e-12 is absorbed by a factor of 1.0. *)
Example guard_absorbed : F32.add F32.one F32.eps12 = F32.one.
Proof. reflexivity. Qed.

(** An estimate of 2.0 under a cap of 1.0 halves the entry 1.0. *)
Example halved :
  F32.rescale F32.one F32.one (F32.add F32.one F32.one) [[F32.one]]
  = [[S754_finite false 8388608 (-24)]].
Proof. reflexivity. Qed.

(** Two parameters on one device: every shard holds one parameter. *)
Example schedule_single_device :
  schedule (mkConfig 0.02 0.95 true 1 0 1) 2 =
  [ EvCompute 0 0; EvGather 0;
    EvCompute 1 1; EvWait 0; EvUpdate 0 0; EvGather 1;
    EvWait 1; EvUpdate 1 1 ].
Proof. reflexivity. Qed.

End Examples.

(** ** Facts about matrices *)

Section TensorFacts.
Import Tensor.
Local Open Scope R_scope.

Lemma nth_map_seq {A : Type} (f : nat -> A) (n i : nat) (d : A) :
  (i < n)%nat -> nth i (map f (seq 0 n)) d = f i.
Proof.
  intros Hi.
  rewrite (nth_indep _ d (f 0%nat)) by (rewrite length_map, length_seq; exact Hi).
  rewrite (map_nth f (seq 0 n) 0%nat i), seq_nth by exact Hi.
  reflexivity.
Qed.

Lemma get_build (r c : nat) (f : nat -> nat -> R) (i j : nat) :
  (i < r)%nat -> (j < c)%nat -> get (build r c f) i j = f i j.
Proof.
  intros Hi Hj. unfold get, build; cbn [rows].
  rewrite (nth_map_seq (fun i => map (fun j => f i j) (seq 0 c))) by exact Hi.
  apply (nth_map_seq (f i)); exact Hj.
Qed.

Lemma build_ext (r c : nat) (f g : nat -> nat -> R) :
  (forall i j, (i < r)%nat -> (j < c)%nat -> f i j = g i j) ->
  build r c f = build r c g.
Proof.
  intros H. unfold build. f_equal.
  apply map_ext_in; intros i Hi. apply in_seq in Hi.
  apply map_ext_in; intros j Hj. apply in_seq in Hj.
  apply H; lia.
Qed.

Lemma wf_build (r c : nat) (f : nat -> nat -> R) : wf (build r c f).
Proof.
  split; cbn [rows nrows ncols build].
  - now rewrite length_map, length_seq.
  - apply List.Forall_forall; intros row Hrow.
    apply in_map_iff in Hrow as (i & <- & _).
    now rewrite length_map, length_seq.
Qed.

Lemma get_smul (c : R) (X : Mat) (i j : nat) : get (smul c X) i j = c * get X i j.
Proof.
  unfold get, smul; cbn [rows].
  replace (@nil R) with (map (Rmult c) []) at 1 by reflexivity.
  rewrite (map_nth (map (Rmult c))).
  replace 0 with (c * 0) at 1 by ring.
  apply (map_nth (Rmult c)).
Qed.

Lemma get_sdiv (X : Mat) (d : R) (i j : nat) : get (sdiv X d) i j = get X i j / d.
Proof.
  unfold get, sdiv; cbn [rows].
  replace (@nil R) with (map (fun x => x / d) []) at 1 by reflexivity.
  rewrite (map_nth (map (fun x => x / d))).
  replace 0 with (0 / d) at 1 by (unfold Rdiv; ring).
  apply (map_nth (fun x => x / d)).
Qed.

Lemma smul_build (k : R) (r c : nat) (f : nat -> nat -> R) :
  smul k (build r c f) = build r c (fun i j => k * f i j).
Proof.
  unfold smul, build; cbn [rows nrows ncols]. f_equal.
  rewrite map_map. apply map_ext; intros i. now rewrite map_map.
Qed.

Lemma rsum_ext (n : nat) (f g : nat -> R) :
  (forall k, (k < n)%nat -> f k = g k) -> rsum n f = rsum n g.
Proof.
  intros H. unfold rsum. f_equal.
  apply map_ext_in; intros k Hk. apply in_seq in Hk. apply H; lia.
Qed.

Lemma fold_plus_scal (k : R) (l : list R) :
  fold_right Rplus 0 (map (Rmult k) l) = k * fold_right Rplus 0 l.
Proof.
  induction l as [|x l IH]; cbn [map fold_right].
  - ring.
  - rewrite IH. ring.
Qed.

Lemma rsum_scal (k : R) (n : nat) (f : nat -> R) :
  rsum n (fun i => k * f i) = k * rsum n f.
Proof.
  unfold rsum. rewrite <- fold_plus_scal, map_map. reflexivity.
Qed.

(** [(c * A) @ B] is [c * (A @ B)]. *)
Lemma matmul_raw_smul_l (c : R) (A B : Mat) :
  matmul_raw (smul c A) B = smul c (matmul_raw A B).
Proof.
  unfold matmul_raw. rewrite smul_build. cbn [smul nrows ncols].
  apply build_ext; intros i j _ _.
  rewrite <- rsum_scal. apply rsum_ext; intros k _.
  rewrite get_smul. ring.
Qed.

End TensorFacts.

(** ** [orthogonalize] against the algorithm of the specification *)

Section OrthogonalizeFacts.
Import Tensor NewtonSchulz.
Local Open Scope R_scope.

Lemma quintic_step_shape (abc : R * R * R) (X : Mat) :
  nrows (quintic_step abc X) = nrows X /\ ncols (quintic_step abc X) = ncols X.
Proof. destruct abc as [[a b] c]. split; reflexivity. Qed.

Lemma matmul_ok (A B : Mat) :
  ncols A = nrows B -> matmul A B = Ok (matmul_raw A B).
Proof. intros H. unfold matmul. now rewrite H, Nat.eqb_refl. Qed.

Lemma madd_ok (X Y : Mat) :
  nrows X = nrows Y -> ncols X = ncols Y -> madd X Y = Ok (madd_raw X Y).
Proof. intros Hr Hc. unfold madd, same_shape. now rewrite Hr, Hc, !Nat.eqb_refl. Qed.

(** Every shape check of the loop body passes, whatever the shape of [X]. *)
Lemma ns_body_ok (abc : R * R * R) (X : Mat) :
  ns_body abc X = Ok (quintic_step abc X).
Proof.
  destruct abc as [[a b] c]. unfold ns_body, quintic_step.
  rewrite matmul_ok by reflexivity. cbn [bind].
  rewrite matmul_ok by reflexivity. cbn [bind].
  rewrite madd_ok by reflexivity. cbn [bind].
  rewrite matmul_ok by reflexivity. cbn [bind].
  rewrite madd_ok by reflexivity.
  rewrite (matmul_raw_smul_l c). reflexivity.
Qed.

Lemma ns_loop_ok (l : list (R * R * R)) (X : Mat) :
  ns_loop l X = Ok (fold_left (fun X abc => quintic_step abc X) l X).
Proof.
  revert X. induction l as [|abc l IH]; intros X; cbn [ns_loop fold_left].
  - reflexivity.
  - rewrite ns_body_ok. cbn [bind]. apply IH.
Qed.

Lemma fold_quintic_shape (l : list (R * R * R)) (X : Mat) :
  nrows (fold_left (fun X abc => quintic_step abc X) l X) = nrows X /\
  ncols (fold_left (fun X abc => quintic_step abc X) l X) = ncols X.
Proof.
  revert X. induction l as [|abc l IH]; intros X; cbn [fold_left].
  - split; reflexivity.
  - destruct (IH (quintic_step abc X)) as [Hr Hc].
    destruct (quintic_step_shape abc X) as [Hr' Hc']. split; congruence.
Qed.

Lemma orthogonalize_ok (M : Mat) :
  orthogonalize M = Ok (orthogonalize_spec abc_list M).
Proof.
  unfold orthogonalize, orthogonalize_spec, widen, bfloat16.
  rewrite ns_loop_ok. reflexivity.
Qed.

Lemma orthogonalize_spec_shape (M : Mat) :
  nrows (orthogonalize_spec abc_list M) = nrows M /\
  ncols (orthogonalize_spec abc_list M) = ncols M.
Proof.
  unfold orthogonalize_spec, widen.
  destruct (Nat.ltb (ncols M) (nrows M)).
  - split; reflexivity.
  - apply (fold_quintic_shape abc_list (sdiv M (fnorm M + 1e-7))).
Qed.

Lemma concat_length_rect (rs : list (list R)) (c : nat) :
  Forall (fun r => length r = c) rs -> length (concat rs) = (length rs * c)%nat.
Proof.
  induction 1 as [|row rs Hrow _ IH]; cbn [concat length].
  - reflexivity.
  - rewrite length_app, IH, Hrow. lia.
Qed.

Lemma wf_flatten_length (M : Mat) :
  wf M -> length (flatten M) = (nrows M * ncols M)%nat.
Proof.
  intros [Hlen Hrows]. unfold flatten. rewrite <- Hlen.
  now apply concat_length_rect.
Qed.

Lemma wf_quintic_step (abc : R * R * R) (X : Mat) : wf (quintic_step abc X).
Proof. destruct abc as [[a b] c]. apply wf_build. Qed.

Lemma wf_fold_quintic (l : list (R * R * R)) (X : Mat) :
  l <> [] \/ wf X -> wf (fold_left (fun X abc => quintic_step abc X) l X).
Proof.
  revert X. induction l as [|abc l IH]; intros X H; cbn [fold_left].
  - destruct H as [H|H]; [congruence | exact H].
  - apply IH. right. apply wf_quintic_step.
Qed.

Lemma wf_orthogonalize_spec (M : Mat) : wf (orthogonalize_spec abc_list M).
Proof.
  unfold orthogonalize_spec.
  destruct (Nat.ltb (ncols M) (nrows M)).
  - apply wf_build.
  - apply wf_fold_quintic. left. discriminate.
Qed.

Lemma orthogonalize_flat_length (M : Mat) :
  length (flatten (orthogonalize_spec abc_list M)) = (nrows M * ncols M)%nat.
Proof.
  rewrite wf_flatten_length by apply wf_orthogonalize_spec.
  destruct (orthogonalize_spec_shape M) as [-> ->]. reflexivity.
Qed.

Lemma widen_wide (G : Mat) : (nrows (widen G) <= ncols (widen G))%nat.
Proof.
  unfold widen. destruct (Nat.ltb_spec (ncols G) (nrows G)); cbn [mT build nrows ncols]; lia.
Qed.

(** C3: on every matrix [orthogonalize] returns what the algorithm of the
    specification computes: transpose when there are more rows than columns
    (so the iteration runs on a matrix with no more rows than columns),
    divide by the Frobenius norm plus 1e-7, run the five quintic steps
    A = X X^T, B = b A + c A^2, X = a X + B X of the coefficient table, and
    transpose back. *)
Theorem C3_orthogonalize_is_spec_algorithm (G : Mat) :
  orthogonalize G = Ok (orthogonalize_spec abc_list G) /\
  (nrows (widen G) <= ncols (widen G))%nat /\
  length abc_list = 5%nat.
Proof. split; [apply orthogonalize_ok | split; [apply widen_wide | reflexivity]]. Qed.

End OrthogonalizeFacts.

(** ** A singular value above one *)

Section Overshoot.
Import Tensor NewtonSchulz Update.
Local Open Scope R_scope.

Lemma quintic_step_diag2 (abc : R * R * R) (x y : R) :
  quintic_step abc (diag2 x y) = diag2 (quintic abc x) (quintic abc y).
Proof.
  destruct abc as [[a b] c].
  cbv [quintic_step quintic madd_raw matmul_raw smul build mT get rsum diag2
       rows nrows ncols map seq nth fold_right].
  repeat f_equal; ring.
Qed.

Lemma sdiv_diag2 (x y d : R) : sdiv (diag2 x y) d = diag2 (x / d) (y / d).
Proof.
  cbv [sdiv diag2 rows nrows ncols map].
  repeat f_equal; unfold Rdiv; ring.
Qed.

Lemma fnorm_diag2 (x y : R) : fnorm (diag2 x y) = sqrt (x * x + y * y).
Proof.
  cbv [fnorm vnorm sumsq flatten diag2 rows concat app map fold_right].
  f_equal. ring.
Qed.

Lemma orthogonalize_spec_diag2 (x y : R) :
  orthogonalize_spec abc_list (diag2 x y) =
  let d := sqrt (x * x + y * y) + 1e-7 in
  diag2 (fold_left (fun t abc => quintic abc t) abc_list (x / d))
        (fold_left (fun t abc => quintic abc t) abc_list (y / d)).
Proof.
  unfold orthogonalize_spec, widen.
  change (Nat.ltb (ncols (diag2 x y)) (nrows (diag2 x y))) with false. cbv iota.
  rewrite fnorm_diag2, sdiv_diag2.
  unfold abc_list. cbn [fold_left].
  rewrite !quintic_step_diag2. reflexivity.
Qed.

Lemma orthogonalize_diag2 (x y : R) :
  orthogonalize (diag2 x y) =
  Ok (let d := sqrt (x * x + y * y) + 1e-7 in
      diag2 (fold_left (fun t abc => quintic abc t) abc_list (x / d))
            (fold_left (fun t abc => quintic abc t) abc_list (y / d))).
Proof. now rewrite orthogonalize_ok, orthogonalize_spec_diag2. Qed.

(** A quintic with a >= 0, b <= 0, c >= 0 on an interval of non-negative
    numbers. *)
Lemma quintic_enclosure (a b c l u x : R) :
  0 <= a -> b <= 0 -> 0 <= c -> 0 <= l -> l <= x -> x <= u ->
  a * l + b * (u * u * u) + c * (l * l * l * l * l) <= quintic (a, b, c) x /\
  quintic (a, b, c) x <= a * u + b * (l * l * l) + c * (u * u * u * u * u).
Proof.
  intros Ha Hb Hc Hl Hlx Hxu.
  assert (H3 : l ^ 3 <= x ^ 3) by (apply pow_incr; lra).
  assert (H3' : x ^ 3 <= u ^ 3) by (apply pow_incr; lra).
  assert (H5 : l ^ 5 <= x ^ 5) by (apply pow_incr; lra).
  assert (H5' : x ^ 5 <= u ^ 5) by (apply pow_incr; lra).
  replace (quintic (a, b, c) x) with (a * x + b * x ^ 3 + c * x ^ 5)
    by (unfold quintic; ring).
  replace (u * u * u) with (u ^ 3) by ring.
  replace (l * l * l) with (l ^ 3) by ring.
  replace (u * u * u * u * u) with (u ^ 5) by ring.
  replace (l * l * l * l * l) with (l ^ 5) by ring.
  split; nra.
Qed.

Lemma quintic_interval (a b c l u l' u' x : R) :
  0 <= a -> b <= 0 -> 0 <= c -> 0 <= l -> l <= x <= u ->
  l' <= a * l + b * (u * u * u) + c * (l * l * l * l * l) ->
  a * u + b * (l * l * l) + c * (u * u * u * u * u) <= u' ->
  l' <= quintic (a, b, c) x <= u'.
Proof.
  intros Ha Hb Hc Hl [Hlx Hxu] Hl' Hu'.
  destruct (quintic_enclosure a b c l u x Ha Hb Hc Hl Hlx Hxu). lra.
Qed.

(** The five steps carry an entry near 0.0039 to about 1.1436. *)
Lemma overshoot_interval (x0 : R) :
  0.003906217 <= x0 <= 0.00390625 ->
  1.1436 <= fold_left (fun t abc => quintic abc t) abc_list x0 <= 1.1437.
Proof.
  intros H0.
  unfold abc_list. cbn [fold_left].
  assert (H1 : 0.0159557 <= quintic (4.0848, -6.8946, 2.9270) x0 <= 0.01595584)
    by (apply (quintic_interval _ _ _ 0.003906217 0.00390625); lra).
  set (x1 := quintic _ x0) in *.
  assert (H2 : 0.06300739 <= quintic (3.9505, -6.3029, 2.6377) x1 <= 0.06300795)
    by (apply (quintic_interval _ _ _ 0.0159557 0.01595584); lra).
  set (x2 := quintic _ x1) in *.
  assert (H3 : 0.23436472 <= quintic (3.7418, -5.5913, 2.3037) x2 <= 0.23436686)
    by (apply (quintic_interval _ _ _ 0.06300739 0.06300795); lra).
  set (x3 := quintic _ x2) in *.
  assert (H4 : 0.63463879 <= quintic (2.8769, -3.1427, 1.2046) x3 <= 0.63464611)
    by (apply (quintic_interval _ _ _ 0.23436472 0.23436686); lra).
  set (x4 := quintic _ x3) in *.
  apply (quintic_interval _ _ _ 0.63463879 0.63464611); lra.
Qed.

(** The entry 1 of diag(256, 1) after normalisation lies in that range. *)
Lemma small_entry_overshoots (d : R) :
  256.0000001 <= d <= 256.0020001 ->
  1.1436 <= fold_left (fun t abc => quintic abc t) abc_list (1 / d) <= 1.1437.
Proof.
  intros [Hd1 Hd2]. apply overshoot_interval.
  assert (Hx : 1 = (1 / d) * d) by (field; lra).
  split; nra.
Qed.

Lemma frobenius_256_1 : 256 <= sqrt (256 * 256 + 1 * 1) <= 256.002.
Proof.
  split.
  - rewrite <- (sqrt_square 256) at 1 by lra. apply sqrt_le_1_alt. lra.
  - rewrite <- (sqrt_square 256.002) by lra. apply sqrt_le_1_alt. lra.
Qed.

Lemma vnorm_e2 : vnorm [0; 1] = 1.
Proof.
  cbv [vnorm sumsq map fold_right].
  replace (0 * 0 + (1 * 1 + 0)) with 1 by ring. apply sqrt_1.
Qed.

Lemma diag2_singular_value (x y : R) : 0 <= y -> singular_value (diag2 x y) y.
Proof.
  intros Hy. split; [exact Hy|].
  exists [0; 1], [0; 1].
  repeat split; try reflexivity; try apply vnorm_e2.
  - cbv [vecmat_raw diag2 get rsum rows nrows ncols map seq nth fold_right].
    repeat f_equal; ring.
  - cbv [vecmat_raw mT build diag2 get rsum rows nrows ncols map seq nth fold_right].
    repeat f_equal; ring.
Qed.

(** C4 at G = diag(256, 1): [orthogonalize] returns a matrix with a singular
    value between 1.1436 and 1.1437, above every bound of the form one plus a
    small tolerance. *)
Theorem C4_singular_value_above_one :
  exists (X : Mat) (sigma : R),
    orthogonalize (diag2 256 1) = Ok X /\
    singular_value X sigma /\ 1.1436 <= sigma <= 1.1437.
Proof.
  pose proof frobenius_256_1 as Hn.
  pose proof (small_entry_overshoots (sqrt (256 * 256 + 1 * 1) + 1e-7)) as Hs.
  eexists. eexists. split; [apply orthogonalize_diag2|].
  cbv zeta. split.
  - apply diag2_singular_value. lra.
  - apply Hs. lra.
Qed.

End Overshoot.

(** ** [orthogonalize] and the rank of its input *)

Section RankFacts.
Import Tensor NewtonSchulz.
Local Open Scope nat_scope.

Lemma map_result_ok {A B : Type} (f : A -> result B) (g : A -> B) (l : list A) :
  (forall x, f x = Ok (g x)) -> map_result f l = Ok (map g l).
Proof.
  intros H. induction l as [|x l IH]; cbn [map_result map].
  - reflexivity.
  - rewrite H, IH. reflexivity.
Qed.

Lemma orthogonalize_nd_ok (t : NdTensor) (c r : nat) (batch : list nat) :
  rev (shape t) = c :: r :: batch ->
  orthogonalize_nd t = Ok (orthogonalize_batch c r batch t).
Proof.
  intros Hs. unfold orthogonalize_nd. rewrite Hs.
  rewrite (map_result_ok _ (fun k => orthogonalize_spec abc_list (batch_get r c (data t) k)))
    by (intros k; apply orthogonalize_ok).
  reflexivity.
Qed.

Lemma rev_two_or_more {A : Type} (l : list A) :
  2 <= length l -> exists c r batch, rev l = c :: r :: batch.
Proof.
  intros H. rewrite <- length_rev in H.
  destruct (rev l) as [|c [|r batch]]; cbn in H; try lia.
  now exists c, r, batch.
Qed.

Lemma rev_below_two {A : Type} (l : list A) :
  length l < 2 -> rev l = [] \/ exists c, rev l = [c].
Proof.
  intros H. rewrite <- length_rev in H.
  destruct (rev l) as [|c [|r batch]]; cbn in H; try lia.
  - now left.
  - right. now exists c.
Qed.

(** C9, as stated, fails on a three-dimensional input: it is not a 2-D
    input, and [orthogonalize] returns a result instead of raising. *)
Lemma C9_batch_input_is_accepted :
  length (shape batch_input) <> 2 /\
  exists out, orthogonalize_nd batch_input = Ok out /\ shape out = [2; 1; 1].
Proof.
  split; [cbn; lia|].
  eexists. split.
  - apply (orthogonalize_nd_ok batch_input 1 1 [2]). reflexivity.
  - reflexivity.
Qed.

(** C9, amended: [orthogonalize] raises nothing on an input with two or more
    dimensions and returns a tensor of the input's shape, a batch being
    processed matrix by matrix over its last two dimensions; on an input
    with fewer than two dimensions it raises an IndexError at the shape
    lookup; the result is determined by the input and the fixed table. *)
Theorem C9_orthogonalize_rank (t : NdTensor) :
  (2 <= length (shape t) ->
     exists c r batch,
       rev (shape t) = c :: r :: batch /\
       orthogonalize_nd t = Ok (orthogonalize_batch c r batch t) /\
       shape (orthogonalize_batch c r batch t) = shape t) /\
  (length (shape t) < 2 -> orthogonalize_nd t = Raise IndexError).
Proof.
  split; intros H.
  - destruct (rev_two_or_more (shape t) H) as (c & r & batch & Hs).
    exists c, r, batch. split; [exact Hs|]. split; [|reflexivity].
    now apply orthogonalize_nd_ok.
  - unfold orthogonalize_nd.
    destruct (rev_below_two (shape t) H) as [-> | [c ->]]; reflexivity.
Qed.

Lemma C9_orthogonalize_rank_witness :
  (exists c r batch,
     rev [2; 3] = c :: r :: batch /\
     orthogonalize_nd (mkNd [2; 3] [1; 2; 3; 4; 5; 6]%R)
       = Ok (orthogonalize_batch c r batch (mkNd [2; 3] [1; 2; 3; 4; 5; 6]%R)) /\
     shape (orthogonalize_batch c r batch (mkNd [2; 3] [1; 2; 3; 4; 5; 6]%R)) = [2; 3]) /\
  orthogonalize_nd (mkNd [5] [1; 2; 3; 4; 5]%R) = Raise IndexError.
Proof.
  split.
  - apply (C9_orthogonalize_rank (mkNd [2; 3] [1; 2; 3; 4; 5; 6]%R)). cbn; lia.
  - apply (C9_orthogonalize_rank (mkNd [5] [1; 2; 3; 4; 5]%R)). cbn; lia.
Defined.

End RankFacts.

(** ** Power iteration under a scaling of the matrix *)

Section PowerFacts.
Import Tensor NewtonSchulz Update.
Local Open Scope R_scope.

Lemma vecmat_raw_length (u : list R) (M : Mat) : length (vecmat_raw u M) = ncols M.
Proof. unfold vecmat_raw. now rewrite length_map, length_seq. Qed.

Lemma vecmat_ok (u : list R) (M : Mat) :
  length u = nrows M -> vecmat u M = Ok (vecmat_raw u M).
Proof. intros H. unfold vecmat. now rewrite H, Nat.eqb_refl. Qed.

Lemma vdiv_length (u : list R) (d : R) : length (vdiv u d) = length u.
Proof. unfold vdiv. now rewrite length_map. Qed.

Lemma power_loop_ok (n : nat) (M : Mat) (u : list R) :
  length u = nrows M ->
  power_loop n M u = Ok (power_raw n M u) /\ length (power_raw n M u) = nrows M.
Proof.
  revert u. induction n as [|n IH]; intros u Hu; cbn [power_loop power_raw].
  - now split.
  - rewrite vecmat_ok by exact Hu. cbn [bind].
    rewrite vecmat_ok by (rewrite vecmat_raw_length; reflexivity). cbn [bind].
    apply IH. rewrite vdiv_length, vecmat_raw_length. reflexivity.
Qed.

Lemma power_iteration_ok (noise : nat -> R) (M : Mat) :
  _power_iteration noise M = Ok (sigma_raw noise M).
Proof.
  unfold _power_iteration, sigma_raw.
  destruct (power_loop_ok 26 M (map noise (seq 0 (nrows M)))) as [-> Hlen].
  { now rewrite length_map, length_seq. }
  cbn [bind]. rewrite vecmat_ok by exact Hlen. reflexivity.
Qed.

Lemma sumsq_nonneg (v : list R) : 0 <= sumsq v.
Proof.
  unfold sumsq. induction v as [|x v IH]; cbn [map fold_right].
  - lra.
  - nra.
Qed.

Lemma vnorm_nonneg (v : list R) : 0 <= vnorm v.
Proof. apply sqrt_pos. Qed.

Lemma sumsq_scal (k : R) (v : list R) : sumsq (map (Rmult k) v) = (k * k) * sumsq v.
Proof.
  unfold sumsq. induction v as [|x v IH]; cbn [map fold_right].
  - ring.
  - rewrite IH. ring.
Qed.

Lemma vnorm_scal (k : R) (v : list R) : 0 <= k -> vnorm (map (Rmult k) v) = k * vnorm v.
Proof.
  intros Hk. unfold vnorm. rewrite sumsq_scal.
  rewrite sqrt_mult by (try apply sumsq_nonneg; nra).
  now rewrite sqrt_square.
Qed.










End PowerFacts.

(** ** The capped update of [update_prev] *)

Section ApplyFacts.
Import Tensor NewtonSchulz Update.
Local Open Scope R_scope.

Lemma shape_scale_pos (p : Mat) :
  (0 < nrows p)%nat -> (0 < ncols p)%nat ->
  shape_scale p = Ok (sqrt (INR (nrows p) / INR (ncols p))) /\
  0 < sqrt (INR (nrows p) / INR (ncols p)).
Proof.
  intros Hr Hc. unfold shape_scale.
  destruct (Nat.eqb_spec (ncols p) 0) as [E|_]; [lia|].
  split; [reflexivity|].
  apply sqrt_lt_R0. apply Rdiv_lt_0_compat; apply lt_0_INR; assumption.
Qed.

Lemma add_view_ok (lr : R) (p : Mat) (g : list R) :
  length g = (nrows p * ncols p)%nat ->
  (let* gv := view_as g p in
   add_ p gv (- lr * sqrt (INR (nrows p) / INR (ncols p)))) = Ok (updated lr p g).
Proof.
  intros Hg. unfold view_as. rewrite Hg, Nat.eqb_refl. cbn [bind].
  unfold add_, same_shape. cbn [build nrows ncols].
  rewrite !Nat.eqb_refl. cbn [andb]. f_equal.
  apply build_ext; intros i j Hi Hj.
  rewrite (get_build (nrows p) (ncols p)) by assumption. ring.
Qed.

Lemma apply_update_ok (lr w_max : R) (noise : nat -> R) (p : Mat) (g : list R) :
  (0 < nrows p)%nat -> (0 < ncols p)%nat -> length g = (nrows p * ncols p)%nat ->
  apply_update lr w_max noise p g =
  Ok (sdiv (updated lr p g)
        (cap_divisor w_max (sqrt (INR (nrows p) / INR (ncols p)))
           (sigma_raw noise (updated lr p g)))).
Proof.
  intros Hr Hc Hg. unfold apply_update.
  destruct (shape_scale_pos p Hr Hc) as [-> _]. cbn [bind].
  pose proof (add_view_ok lr p g Hg) as Hadd.
  destruct (view_as g p) as [gv|e]; cbn [bind] in Hadd |- *; [|discriminate].
  rewrite Hadd. cbn [bind].
  rewrite power_iteration_ok. reflexivity.
Qed.





End ApplyFacts.

(** ** The momentum blend *)

Section MomentumFacts.
Import Tensor NewtonSchulz Update.
Local Open Scope R_scope.

Lemma lerp_ok (start end_ : Mat) (w : R) :
  nrows start = nrows end_ -> ncols start = ncols end_ ->
  lerp_ start end_ w =
  Ok (build (nrows start) (ncols start)
        (fun i j => get start i j + w * (get end_ i j - get start i j))).
Proof.
  intros Hr Hc. unfold lerp_, same_shape. now rewrite Hr, Hc, !Nat.eqb_refl.
Qed.

Lemma get_zeros (r c i j : nat) : (i < r)%nat -> (j < c)%nat -> get (zeros r c) i j = 0.
Proof. intros Hi Hj. unfold zeros. now rewrite get_build. Qed.

Lemma momentum_update_ok (m : R) (nesterov : bool) (stored : option Mat) (g : Mat) :
  (forall b, stored = Some b -> nrows b = nrows g /\ ncols b = ncols g) ->
  let buf := ema_spec m (match stored with Some b => b | None => zeros_like g end) g in
  momentum_update m nesterov stored g
    = Ok (buf, (if nesterov then lookahead_spec m buf g else g),
          (if nesterov then lookahead_spec m buf g else buf)).
Proof.
  intros Hshape buf. unfold momentum_update.
  set (buf0 := match stored with Some b => b | None => zeros_like g end) in *.
  assert (Hb : nrows buf0 = nrows g /\ ncols buf0 = ncols g).
  { unfold buf0. destruct stored as [b|]; [now apply Hshape | now split]. }
  destruct Hb as [Hr Hc].
  rewrite (lerp_ok buf0 g) by assumption. cbn [bind]. rewrite Hr, Hc.
  assert (Hbuf : build (nrows g) (ncols g)
                   (fun i j => get buf0 i j + (1 - m) * (get g i j - get buf0 i j)) = buf).
  { unfold buf, ema_spec. apply build_ext; intros i j _ _. ring. }
  rewrite Hbuf.
  destruct nesterov; [|reflexivity].
  rewrite (lerp_ok g buf) by reflexivity. cbn [bind].
  assert (Hla : build (nrows g) (ncols g)
                  (fun i j => get g i j + m * (get buf i j - get g i j))
                = lookahead_spec m buf g).
  { unfold lookahead_spec. apply build_ext; intros i j _ _. ring. }
  rewrite Hla. reflexivity.
Qed.

(** C6: the momentum store sets buf = buf * m + g * (1 - m), starting from a
    zero buffer on the first call; with Nesterov lookahead the update handed
    on is g * (1 - m) + buf * m with the new buffer, otherwise the new buffer
    itself. *)
Theorem C6_momentum_blend (m : R) (nesterov : bool) (stored : option Mat) (g : Mat) :
  (forall b, stored = Some b -> nrows b = nrows g /\ ncols b = ncols g) ->
  let buf0 := match stored with Some b => b | None => zeros_like g end in
  let buf := ema_spec m buf0 g in
  let upd := if nesterov then lookahead_spec m buf g else buf in
  momentum_update m nesterov stored g
    = Ok (buf, if nesterov then lookahead_spec m buf g else g, upd) /\
  (stored = None ->
   forall i j, (i < nrows g)%nat -> (j < ncols g)%nat -> get buf0 i j = 0).
Proof.
  intros Hshape buf0 buf upd. split.
  - now apply momentum_update_ok.
  - intros -> i j Hi Hj. unfold buf0, zeros_like. now apply get_zeros.
Qed.

Lemma C6_momentum_blend_witness :
  let g := diag2 1 2 in
  let buf := ema_spec 0.95 (diag2 5 6) g in
  momentum_update 0.95 true (Some (diag2 5 6)) g
    = Ok (buf, lookahead_spec 0.95 buf g, lookahead_spec 0.95 buf g).
Proof.
  apply (C6_momentum_blend 0.95 true (Some (diag2 5 6)) (diag2 1 2)).
  intros b Hb. injection Hb as <-. split; reflexivity.
Defined.

End MomentumFacts.

(** ** A NaN or infinite estimate in [update_prev] *)

Section DegenerateEstimate.

Lemma div_by_nan (x : spec_float) : F32.div x S754_nan = S754_nan.
Proof. destruct x; reflexivity. Qed.

Lemma div_by_inf (x : spec_float) :
  F32.finite_entry x = true -> F32.is_zero (F32.div x F32.pos_inf) = true.
Proof. destruct x; intros H; try discriminate H; reflexivity. Qed.

Lemma scale_down_nan (w_max scale : spec_float) :
  F32.scale_down_of w_max scale S754_nan = S754_nan.
Proof. reflexivity. Qed.

Lemma scale_down_inf (w_max scale : spec_float) (m : positive) (e : Z) :
  F32.mul w_max scale = S754_finite false m e ->
  F32.scale_down_of w_max scale F32.pos_inf = F32.pos_inf.
Proof. intros H. unfold F32.scale_down_of. rewrite H. reflexivity. Qed.

(** C5, as stated, fails: with a NaN estimate the scale-down factor is NaN,
    not 1.0, and the parameter entry 1.0 becomes NaN. *)
Lemma C5_nan_estimate_reaches_parameter :
  F32.scale_down_of F32.one F32.one S754_nan <> F32.one /\
  F32.rescale F32.one F32.one S754_nan [[F32.one]] = [[S754_nan]].
Proof. split; [discriminate | reflexivity]. Qed.

(** C5, amended: a NaN estimate gives a NaN scale-down factor and turns
    every entry of the parameter into NaN; an estimate of plus infinity
    (with w_max * scale positive and finite) gives an infinite factor and
    turns every finite entry into a zero. *)
Theorem C5_degenerate_estimate_propagates
    (w_max scale : spec_float) (p : list (list spec_float)) :
  (F32.scale_down_of w_max scale S754_nan = S754_nan /\
   F32.rescale w_max scale S754_nan p = map (map (fun _ => S754_nan)) p) /\
  (forall m e, F32.mul w_max scale = S754_finite false m e ->
     F32.scale_down_of w_max scale F32.pos_inf = F32.pos_inf /\
     F32.rescale w_max scale F32.pos_inf p = map (map (fun x => F32.div x F32.pos_inf)) p /\
     forall x, F32.finite_entry x = true -> F32.is_zero (F32.div x F32.pos_inf) = true).
Proof.
  split.
  - split; [reflexivity|].
    unfold F32.rescale. rewrite scale_down_nan.
    apply map_ext; intros row. apply map_ext; intros x.
    change (F32.add S754_nan F32.eps12) with S754_nan. apply div_by_nan.
  - intros m e Hmul. split; [now apply (scale_down_inf _ _ m e)|]. split.
    + unfold F32.rescale. rewrite (scale_down_inf _ _ m e Hmul). reflexivity.
    + apply div_by_inf.
Qed.

Lemma C5_degenerate_estimate_propagates_witness :
  F32.scale_down_of F32.one F32.one F32.pos_inf = F32.pos_inf /\
  F32.rescale F32.one F32.one F32.pos_inf [[F32.one]] = [[F32.div F32.one F32.pos_inf]] /\
  forall x, F32.finite_entry x = true -> F32.is_zero (F32.div x F32.pos_inf) = true.
Proof.
  apply (C5_degenerate_estimate_propagates F32.one F32.one [[F32.one]])
    with (m := 8388608%positive) (e := (-23)%Z).
  vm_compute. reflexivity.
Defined.

End DegenerateEstimate.

(** ** Round-robin sharding *)

Section ShardFacts.
Import Tensor Muon.
Local Open Scope nat_scope.

Lemma range_from_spec (step stop n : nat) :
  0 < step ->
  forall fuel start,
    n <= fuel ->
    (forall k, k < n -> start + k * step < stop) ->
    stop <= start + n * step ->
    range_from fuel start stop step = map (fun k => start + k * step) (seq 0 n).
Proof.
  intros Hstep. induction n as [|n IH]; intros fuel start Hfuel Hlt Hge.
  - cbn [seq map]. destruct fuel as [|fuel]; [reflexivity|]. cbn [range_from].
    destruct (Nat.ltb_spec start stop); [lia | reflexivity].
  - destruct fuel as [|fuel]; [lia|]. cbn [range_from].
    destruct (Nat.ltb_spec start stop) as [_|Hbad]; [|specialize (Hlt 0); lia].
    cbn [seq map]. f_equal; [lia|].
    rewrite <- seq_shift, map_map.
    rewrite (IH fuel (start + step)); try lia.
    + apply map_ext; intros k. lia.
    + intros k Hk. specialize (Hlt (S k)). lia.
Qed.

Lemma shards_bounds (n w : nat) :
  0 < w -> shards n w <= n /\ n <= shards n w * w /\
  forall k, k < shards n w -> k * w < n.
Proof.
  intros Hw. unfold shards.
  pose proof (Nat.div_mod_eq (n + w - 1) w) as Hdm.
  assert (Hmod : (n + w - 1) mod w < w) by (apply Nat.mod_upper_bound; lia).
  set (q := (n + w - 1) / w) in *. set (r := (n + w - 1) mod w) in *.
  split; [nia|]. split; [nia|].
  intros k Hk. nia.
Qed.

Lemma range_step_ok (n w : nat) :
  0 < w -> range_step n w = Ok (map (fun k => k * w) (seq 0 (shards n w))).
Proof.
  intros Hw. unfold range_step.
  destruct (Nat.eqb_spec w 0); [lia|].
  destruct (shards_bounds n w Hw) as (H1 & H2 & H3).
  rewrite (range_from_spec w n (shards n w)); try lia.
  - reflexivity.
  - intros k Hk. cbn. now apply H3.
Qed.

Lemma in_bases (n w b : nat) :
  0 < w -> (In b (map (fun k => k * w) (seq 0 (shards n w))) <-> b < n /\ b mod w = 0).
Proof.
  intros Hw. destruct (shards_bounds n w Hw) as (H1 & H2 & H3).
  rewrite in_map_iff. split.
  - intros (k & <- & Hk). apply in_seq in Hk. split; [apply H3; lia|].
    now apply Nat.Div0.mod_mul.
  - intros [Hb Hm]. exists (b / w).
    pose proof (Nat.div_mod_eq b w) as Hdm. rewrite Hm in Hdm.
    split; [lia|]. apply in_seq. split; [lia|]. cbn.
    destruct (Nat.lt_ge_cases (b / w) (shards n w)) as [|Hge]; [assumption|].
    assert (shards n w * w <= b / w * w) by (apply Nat.mul_le_mono_r; exact Hge). lia.
Qed.

(** Every index below N has one pair of a shard step and a rank. *)
Lemma round_robin_unique (N W idx : nat) :
  1 <= W -> idx < N ->
  NoDup (map (fun k => k * W) (seq 0 (shards N W))) /\
  In (W * (idx / W)) (map (fun k => k * W) (seq 0 (shards N W))) /\
  idx mod W < W /\
  W * (idx / W) + idx mod W = idx /\
  forall base_i rank,
    In base_i (map (fun k => k * W) (seq 0 (shards N W))) -> rank < W ->
    base_i + rank = idx ->
    base_i = W * (idx / W) /\ rank = idx mod W.
Proof.
  intros HW Hidx.
  pose proof (Nat.div_mod_eq idx W) as Hdm.
  assert (Hmod : idx mod W < W) by (apply Nat.mod_upper_bound; lia).
  split.
  { apply NoDup_fmap_2; [|apply NoDup_seq].
    intros a b Hab. nia. }
  split.
  { apply in_bases; [lia|]. split; [lia|].
    rewrite Nat.mul_comm. now apply Nat.Div0.mod_mul. }
  split; [lia|]. split; [lia|].
  intros b r Hb Hr Hsum.
  apply in_bases in Hb as [_ Hb0]; [|lia].
  pose proof (Nat.div_mod_eq b W) as Hb1. rewrite Hb0 in Hb1.
  assert (Hq : idx / W = b / W).
  { symmetry. apply (Nat.div_unique idx W (b / W) r); lia. }
  assert (Hr' : idx mod W = r).
  { symmetry. apply (Nat.mod_unique idx W (b / W) r); lia. }
  split; [rewrite Hq; lia | lia].
Qed.

End ShardFacts.

(** ** One pass of [update_prev] and of the loop body *)

Section StepFacts.
Import Tensor NewtonSchulz Update Muon.
Local Open Scope nat_scope.

Lemma shp_apply_update (lr w_max : R) (noise : nat -> R) (p p' : Mat) (g : list R) :
  apply_update lr w_max noise p g = Ok p' -> shp p' = shp p.
Proof.
  unfold apply_update, shape_scale, view_as, add_.
  destruct (Nat.eqb (ncols p) 0); [discriminate|]. cbn [bind].
  destruct (Nat.eqb (length g) (nrows p * ncols p)); [|discriminate]. cbn [bind].
  destruct (same_shape p _); [|discriminate]. cbn [bind].
  rewrite power_iteration_ok. cbn [bind].
  intros [= <-]. reflexivity.
Qed.

Lemma update_one_ok (c : config) (e : env) (base : nat) (st : state) (pg : nat * list R) :
  appliable (shp <$> params st) pg ->
  exists st',
    update_one c e base st pg = Ok st' /\
    shp <$> params st' = shp <$> params st /\
    grads st' = grads st /\ momentum_buffer st' = momentum_buffer st /\
    update_buffer st' = update_buffer st /\ handle st' = handle st /\
    params_world st' = params_world st /\ pending st' = pending st /\
    trace st' = trace st ++ [EvUpdate base pg.1].
Proof.
  destruct pg as [idx g]. intros (r & cc & Hsh & Hr & Hc & Hg). cbn [fst snd] in *.
  rewrite list_lookup_fmap in Hsh.
  destruct (params st !! idx) as [p|] eqn:Hp; [|discriminate].
  cbn in Hsh. injection Hsh as Hpr Hpc.
  unfold update_one. rewrite Hp.
  pose proof (apply_update_ok (lr c) (w_max c) (noise e (rng st)) p g) as Hok.
  rewrite Hpr, Hpc in Hok. specialize (Hok Hr Hc Hg).
  rewrite Hok. cbn [bind].
  eexists. split; [reflexivity|]. cbn [params grads momentum_buffer update_buffer handle
                                       params_world pending trace].
  repeat split.
  rewrite list_fmap_insert. apply list_insert_id.
  rewrite list_lookup_fmap, Hp. reflexivity.
Qed.

Lemma update_loop_ok (c : config) (e : env) (base : nat) (l : list (nat * list R)) :
  forall st,
    Forall (appliable (shp <$> params st)) l ->
    exists st',
      foldM (update_one c e base) l st = Ok st' /\
      shp <$> params st' = shp <$> params st /\
      grads st' = grads st /\ momentum_buffer st' = momentum_buffer st /\
      update_buffer st' = update_buffer st /\ handle st' = handle st /\
      params_world st' = params_world st /\ pending st' = pending st /\
      trace st' = trace st ++ map (EvUpdate base) (l.*1).
Proof.
  induction l as [|pg l IH]; intros st Hl; cbn [foldM].
  - exists st. rewrite app_nil_r. repeat split.
  - apply Forall_cons in Hl as [Hpg Hl].
    destruct (update_one_ok c e base st pg Hpg)
      as (st1 & -> & Hsh & Hg & Hm & Hb & Hh & Hpw & Hpe & Htr).
    cbn [bind]. rewrite <- Hsh in Hl.
    destruct (IH st1 Hl) as (st2 & -> & Hsh2 & Hg2 & Hm2 & Hb2 & Hh2 & Hpw2 & Hpe2 & Htr2).
    exists st2. split; [reflexivity|].
    repeat split; try congruence.
    rewrite Htr2, Htr, <- app_assoc. reflexivity.
Qed.

Lemma update_prev_ok (c : config) (e : env) (st : state) (h : gather) (pw : list nat) :
  handle st = Some h -> params_world st = Some pw ->
  Forall (appliable (shp <$> params st)) (zip pw (h_slots h)) ->
  exists st',
    update_prev c e st = Ok st' /\
    shp <$> params st' = shp <$> params st /\
    grads st' = grads st /\ momentum_buffer st' = momentum_buffer st /\
    update_buffer st' = h_slots h /\ handle st' = Some h /\
    params_world st' = Some pw /\
    pending st' = filter (fun b => b <> h_base h) (pending st) /\
    trace st' = trace st ++ EvWait (h_base h)
                  :: map (EvUpdate (h_base h)) ((zip pw (h_slots h)).*1).
Proof.
  intros Hh Hpw Hl. unfold update_prev. rewrite Hh.
  cbn [wait params_world update_buffer]. rewrite Hpw.
  destruct (update_loop_ok c e (h_base h) (zip pw (h_slots h)) (wait h st) Hl)
    as (st' & -> & Hsh & Hg & Hm & Hb & Hh' & Hpw' & Hpe & Htr).
  exists st'. split; [reflexivity|].
  cbn [wait params grads momentum_buffer update_buffer handle params_world pending trace] in *.
  repeat split; try congruence.
  rewrite Htr, <- app_assoc. reflexivity.
Qed.

Lemma local_update_in (c : config) (st : state) (b : nat) (g : Mat) :
  b + rank c < length (params st) ->
  grads st !! (b + rank c) = Some (Some g) ->
  (forall b0, momentum_buffer st !! (b + rank c) = Some b0 -> shp b0 = shp g) ->
  exists st' out g' buf,
    local_update c st b = Ok (st', Fresh out) /\
    length out = nrows g * ncols g /\
    params st' = params st /\
    grads st' = <[b + rank c := Some g']> (grads st) /\ shp g' = shp g /\
    momentum_buffer st' = <[b + rank c := buf]> (momentum_buffer st) /\ shp buf = shp g /\
    update_buffer st' = update_buffer st /\ handle st' = handle st /\
    params_world st' = params_world st /\ pending st' = pending st /\
    trace st' = trace st ++ [EvCompute b (b + rank c)].
Proof.
  intros Hin Hg Hmom. unfold local_update.
  destruct (Nat.ltb_spec (b + rank c) (length (params st))) as [_|]; [|lia].
  rewrite Hg.
  rewrite momentum_update_ok.
  2:{ intros b0 Hb0. specialize (Hmom b0 Hb0). now injection Hmom. }
  cbn [bind]. rewrite orthogonalize_ok. cbn [bind].
  do 4 eexists. split; [reflexivity|].
  cbn [params grads momentum_buffer update_buffer handle params_world pending trace].
  split.
  { rewrite orthogonalize_flat_length. destruct (nesterov c); reflexivity. }
  repeat split.
  destruct (nesterov c); reflexivity.
Qed.

Lemma local_update_out (c : config) (st : state) (b : nat) (view : list R) :
  ~ b + rank c < length (params st) ->
  update_buffer st !! rank c = Some view ->
  local_update c st b = Ok (log (EvPlaceholder b) st, BufferView (rank c)).
Proof.
  intros Hout Hv. unfold local_update.
  destruct (Nat.ltb_spec (b + rank c) (length (params st))) as [|_]; [lia|].
  now rewrite Hv.
Qed.

End StepFacts.

(** ** The loop of [Muon.step] on a well-formed group *)

Section Pipeline.
Import Tensor NewtonSchulz Update Muon.
Local Open Scope nat_scope.

Variables (c : config) (e : env) (size : nat).
Variable sh : list (nat * nat).
Variable tr0 : list event.

Hypothesis HW : 0 < world_size c.
Hypothesis Hrank : rank c < world_size c.
Hypothesis Hsh : Forall (fun s : nat * nat => 0 < s.1 /\ 0 < s.2 /\ s.1 * s.2 = size) sh.
Hypothesis Hpeer : forall b r, b + r < length sh -> length (peer e b r) = size.

Local Abbreviation core_inv := (Muon.core_inv c sh).
Local Abbreviation in_flight := (Muon.in_flight c e size sh).
Local Abbreviation loop_inv := (Muon.loop_inv c e size sh tr0).

Lemma slots_lookup (b : nat) (g : list R) (j : nat) :
  j < world_size c ->
  h_slots (all_gather c e b g) !! j = Some (if Nat.eqb j (rank c) then g else peer e b j).
Proof.
  intros Hj. unfold all_gather; cbn [h_slots].
  change (map ?f ?l) with (f <$> l).
  rewrite list_lookup_fmap, lookup_seq_lt by exact Hj. reflexivity.
Qed.

Lemma slots_length (b : nat) (g : list R) :
  length (h_slots (all_gather c e b g)) = world_size c.
Proof. unfold all_gather; cbn [h_slots]. now rewrite length_map, length_seq. Qed.

Lemma slice_length (b : nat) :
  length (slice_idx b (b + world_size c) (length sh)) <= world_size c.
Proof. unfold slice_idx. rewrite length_seq. lia. Qed.

Lemma slots_appliable (b : nat) (g : list R) :
  (b + rank c < length sh -> length g = size) ->
  Forall (appliable sh)
    (zip (slice_idx b (b + world_size c) (length sh)) (h_slots (all_gather c e b g))).
Proof.
  intros Hg. apply Forall_lookup. intros j [idx slot] Hj.
  apply lookup_zip_with_Some in Hj as (x & y & [= -> ->] & Hx & Hy).
  unfold slice_idx in Hx. apply lookup_seq in Hx as [-> Hlt].
  rewrite slots_lookup in Hy by lia. injection Hy as <-.
  assert (Hin : b + j < length sh) by lia.
  destruct (lookup_lt_is_Some_2 sh (b + j) Hin) as [[r cc] Hs].
  exists r, cc. cbn [fst snd]. split; [exact Hs|].
  pose proof (proj1 (Forall_lookup _ _) Hsh (b + j) (r, cc) Hs) as (Hr & Hc & Hsz).
  cbn [fst snd] in *. repeat split; try assumption.
  destruct (Nat.eqb_spec j (rank c)) as [->|_].
  - rewrite Hg by exact Hin. lia.
  - rewrite Hpeer by exact Hin. lia.
Qed.

Lemma params_length (st : state) : core_inv st -> length (params st) = length sh.
Proof. intros H. rewrite <- (inv_shapes st H). now rewrite length_fmap. Qed.

Lemma local_update_inv (st : state) (b : nat) :
  core_inv st ->
  exists st1 out,
    local_update c st b = Ok (st1, out) /\
    core_inv st1 /\
    update_buffer st1 = update_buffer st /\
    handle st1 = handle st /\ params_world st1 = params_world st /\
    pending st1 = pending st /\
    trace st1 = trace st ++ [local_event c (length sh) b] /\
    (b + rank c < length sh -> exists v, out = Fresh v /\ length v = size) /\
    (~ b + rank c < length sh -> out = BufferView (rank c)).
Proof.
  intros Hcore. pose proof (params_length st Hcore) as Hlen.
  unfold local_event.
  destruct (Nat.ltb_spec (b + rank c) (length sh)) as [Hin|Hout].
  - destruct (lookup_lt_is_Some_2 sh _ Hin) as [[r cc] Hs].
    destruct (inv_grads st Hcore _ _ Hs) as (g & Hg & Hgs).
    destruct (local_update_in c st b g) as
      (st1 & out & g' & buf & Hrun & Hout & Hp & Hgr & Hg' & Hmo & Hbuf & Hub & Hh & Hpw & Hpe & Htr).
    { lia. }
    { exact Hg. }
    { intros b0 Hb0. rewrite Hgs. exact (inv_mom st Hcore _ _ _ Hb0 Hs). }
    exists st1, (Fresh out). split; [exact Hrun|].
    split; [|repeat split; try assumption; try lia].
    + split.
      * rewrite Hp. apply (inv_shapes st Hcore).
      * intros i s Hi. rewrite Hgr.
        destruct (Nat.eq_dec i (b + rank c)) as [->|Hne].
        -- exists g'. split.
           ++ apply list_lookup_insert_eq. apply (lookup_lt_Some _ _ _ Hg).
           ++ rewrite Hs in Hi. injection Hi as <-. congruence.
        -- rewrite list_lookup_insert_ne by congruence. now apply (inv_grads st Hcore).
      * intros i b0 s Hb0 Hi. rewrite Hmo in Hb0.
        destruct (Nat.eq_dec i (b + rank c)) as [->|Hne].
        -- rewrite lookup_insert_eq in Hb0. injection Hb0 as <-.
           rewrite Hs in Hi. injection Hi as <-. congruence.
        -- rewrite lookup_insert_ne in Hb0 by congruence.
           now apply (inv_mom st Hcore i).
      * rewrite Hub. apply (inv_buf st Hcore).
    + intros _. exists out. split; [reflexivity|]. rewrite Hout.
      pose proof (proj1 (Forall_lookup _ _) Hsh _ _ Hs) as (_ & _ & Hsz).
      unfold shp in Hgs. injection Hgs as -> ->. exact Hsz.
  - assert (Hv : is_Some (update_buffer st !! rank c)).
    { apply lookup_lt_is_Some_2. rewrite (inv_buf st Hcore). exact Hrank. }
    destruct Hv as [view Hv].
    exists (log (EvPlaceholder b) st), (BufferView (rank c)).
    split; [apply (local_update_out c st b view); [lia | exact Hv]|].
    split; [destruct Hcore; split; assumption|].
    repeat split. lia.
Qed.

Lemma update_prev_inv (k' : nat) (st : state) :
  core_inv st -> in_flight (S k') st ->
  exists st2,
    update_prev c e st = Ok st2 /\
    core_inv st2 /\
    (forall h, handle st = Some h -> update_buffer st2 = h_slots h) /\
    handle st2 = handle st /\ params_world st2 = params_world st /\
    pending st2 = [] /\
    trace st2 = trace st ++ apply_events c (length sh) (k' * world_size c).
Proof.
  intros Hcore (g & Hh & Hpw & Hpe & Hg).
  destruct (update_prev_ok c e st _ _ Hh Hpw) as
    (st2 & Hrun & Hs2 & Hgr & Hmo & Hub & Hh2 & Hpw2 & Hpe2 & Htr).
  { rewrite (inv_shapes st Hcore). now apply slots_appliable. }
  exists st2. split; [exact Hrun|].
  split; [|repeat split].
  - split.
    + rewrite Hs2. apply (inv_shapes st Hcore).
    + rewrite Hgr. apply (inv_grads st Hcore).
    + rewrite Hmo. apply (inv_mom st Hcore).
    + rewrite Hub. apply slots_length.
  - intros h Hh'. congruence.
  - congruence.
  - congruence.
  - rewrite Hpe2, Hpe. cbn [all_gather h_base].
    rewrite filter_cons_False by (intros H; now apply H). reflexivity.
  - rewrite Htr. cbn [all_gather h_base h_slots]. unfold apply_events.
    rewrite fst_zip; [reflexivity|].
    rewrite length_map, length_seq. apply slice_length.
Qed.

Lemma step_body_inv (k : nat) (st : state) :
  loop_inv k st ->
  exists st' v,
    step_body c e st (k * world_size c) = Ok st' /\
    loop_inv (S k) st' /\
    handle st' = Some (all_gather c e (k * world_size c) v) /\
    (k * world_size c + rank c < length sh ->
     exists st1, local_update c st (k * world_size c) = Ok (st1, Fresh v)) /\
    (~ k * world_size c + rank c < length sh ->
     local_update c st (k * world_size c)
       = Ok (log (EvPlaceholder (k * world_size c)) st, BufferView (rank c)) /\
     match k with
     | O => update_buffer st !! rank c = Some v
     | S _ => exists h, handle st = Some h /\ h_slots h !! rank c = Some v
     end).
Proof.
  intros [Hcore Hfl Htr]. unfold step_body.
  destruct (local_update_inv st (k * world_size c) Hcore)
    as (st1 & out & Hlu & Hcore1 & Hub1 & Hh1 & Hpw1 & Hpe1 & Htr1 & Hin & Hout).
  rewrite Hlu. cbn [bind].
  assert (Happly : exists st2,
             (if Nat.ltb 0 (k * world_size c) then update_prev c e st1 else Ok st1) = Ok st2 /\
             core_inv st2 /\ pending st2 = [] /\
             trace st2 = trace st1 ++ match k with
                                      | O => []
                                      | S k' => apply_events c (length sh) (k' * world_size c)
                                      end /\
             match k with
             | O => update_buffer st2 = update_buffer st
             | S _ => forall h, handle st = Some h -> update_buffer st2 = h_slots h
             end).
  { destruct k as [|k'].
    - exists st1. cbn [Nat.mul Nat.ltb Nat.leb]. split; [reflexivity|].
      split; [exact Hcore1|]. split; [rewrite Hpe1; apply Hfl|].
      split; [now rewrite app_nil_r | exact Hub1].
    - destruct (Nat.ltb_spec 0 (S k' * world_size c)) as [_|Hbad]; [|nia].
      destruct (update_prev_inv k' st1 Hcore1) as (st2 & Hrun & Hc2 & Hub2 & _ & _ & Hpe2 & Htr2).
      { destruct Hfl as (g & Hh & Hpw & Hpe & Hg). exists g.
        repeat split; try congruence. exact Hg. }
      exists st2. split; [exact Hrun|]. split; [exact Hc2|].
      split; [exact Hpe2|]. split; [exact Htr2|].
      intros h Hh. apply Hub2. congruence. }
  destruct Happly as (st2 & -> & Hcore2 & Hpe2 & Htr2 & Hub2). cbn [bind].
  assert (Hderef : exists v, deref st2 out = Ok v /\
             (k * world_size c + rank c < length sh -> length v = size /\ out = Fresh v) /\
             (~ k * world_size c + rank c < length sh ->
              update_buffer st2 !! rank c = Some v)).
  { destruct (Nat.lt_ge_cases (k * world_size c + rank c) (length sh)) as [Hlt|Hge].
    - destruct (Hin Hlt) as (v & -> & Hv). exists v.
      split; [reflexivity|]. split; [intros _; now split | lia].
    - rewrite Hout by lia.
      assert (Hv : is_Some (update_buffer st2 !! rank c)).
      { apply lookup_lt_is_Some_2. rewrite (inv_buf st2 Hcore2). exact Hrank. }
      destruct Hv as [v Hv]. exists v. cbn [deref]. rewrite Hv.
      split; [reflexivity|]. split; [lia | intros _; reflexivity]. }
  destruct Hderef as (v & -> & Hvin & Hvout). cbn [bind].
  exists (issue c e (k * world_size c) v st2), v.
  split; [reflexivity|]. split; [|split; [reflexivity|split]].
  - split.
    + destruct Hcore2. split; assumption.
    + change (in_flight (S k) (issue c e (k * world_size c) v st2)).
      exists v. cbn [issue handle params_world pending].
      rewrite (params_length st2 Hcore2), Hpe2. repeat split. apply Hvin.
    + cbn [issue trace]. rewrite Htr2, Htr1, Htr.
      unfold pipeline. rewrite seq_S, flat_map_app. cbn [flat_map].
      rewrite app_nil_r. unfold iteration_events. cbn [Nat.add].
      rewrite <- !app_assoc. reflexivity.
  - intros Hlt. exists st1. destruct (Hvin Hlt) as [_ Ho]. now rewrite Ho.
  - intros Hge. specialize (Hvout Hge). split.
    + unfold local_update in Hlu.
      destruct (Nat.ltb_spec (k * world_size c + rank c) (length (params st)))
        as [Hlt|_]; [rewrite (params_length st Hcore) in Hlt; lia|].
      destruct (update_buffer st !! rank c); [|discriminate Hlu].
      symmetry. exact Hlu.
    + destruct k as [|k'].
      * now rewrite <- Hub2.
      * destruct Hfl as (g & Hh & _). eexists. split; [exact Hh|].
        now rewrite <- (Hub2 _ Hh).
Qed.

Lemma loop_inv_fold (m : nat) :
  forall k st,
    loop_inv k st ->
    exists st',
      foldM (step_body c e) (map (fun i => i * world_size c) (seq k m)) st = Ok st' /\
      loop_inv (k + m) st'.
Proof.
  induction m as [|m IH]; intros k st Hinv; cbn [seq map foldM].
  - exists st. rewrite Nat.add_0_r. now split.
  - destruct (step_body_inv k st Hinv) as (st1 & v & -> & Hinv1 & _). cbn [bind].
    destruct (IH (S k) st1 Hinv1) as (st' & Hrun & Hinv').
    exists st'. split; [exact Hrun|]. now rewrite Nat.add_succ_r.
Qed.

End Pipeline.

(** ** The order of gathers and applies *)

Section ScheduleFacts.
Import Tensor NewtonSchulz Update Muon.
Local Open Scope nat_scope.

Lemma shards_pos (n w : nat) : 0 < w -> 0 < n -> 0 < shards n w.
Proof.
  intros Hw Hn. destruct (shards_bounds n w Hw) as (_ & H & _).
  destruct (shards n w); [cbn in H; lia | lia].
Qed.

Lemma pipeline_split (c : config) (n m i : nat) :
  i < m ->
  pipeline c n m = pipeline c n i ++ iteration_events c n i
                   ++ flat_map (iteration_events c n) (seq (S i) (m - S i)).
Proof.
  intros Hi. unfold pipeline.
  replace m with (i + S (m - S i)) at 1 by lia.
  rewrite seq_app, flat_map_app. cbn [seq flat_map Nat.add]. reflexivity.
Qed.

Lemma gather_in_iteration (c : config) (n k b : nat) :
  In (EvGather b) (iteration_events c n k) -> b = k * world_size c.
Proof.
  unfold iteration_events, local_event, apply_events.
  intros [H|H].
  - destruct (Nat.ltb _ n); discriminate H.
  - apply in_app_or in H as [H|[H|[]]].
    + destruct k as [|k']; [destruct H|].
      destruct H as [H|H]; [discriminate H|].
      apply in_map_iff in H as (x & Hx & _). discriminate Hx.
    + now injection H.
Qed.

Lemma wait_in_iteration (c : config) (n k b : nat) :
  In (EvWait b) (iteration_events c n k) -> exists k', k = S k' /\ b = k' * world_size c.
Proof.
  unfold iteration_events, local_event, apply_events.
  intros [H|H].
  - destruct (Nat.ltb _ n); discriminate H.
  - apply in_app_or in H as [H|[H|[]]]; [|discriminate H].
    destruct k as [|k']; [destruct H|].
    exists k'. split; [reflexivity|].
    destruct H as [H|H]; [now injection H|].
    apply in_map_iff in H as (x & Hx & _). discriminate Hx.
Qed.

Lemma gather_in_pipeline (c : config) (n k b : nat) :
  In (EvGather b) (pipeline c n k) -> exists j, j < k /\ b = j * world_size c.
Proof.
  unfold pipeline. intros H. apply in_flat_map in H as (j & Hj & H).
  apply in_seq in Hj. exists j. split; [lia|]. now apply (gather_in_iteration c n).
Qed.

Lemma wait_in_pipeline (c : config) (n k b : nat) :
  In (EvWait b) (pipeline c n k) -> exists j, S j < k /\ b = j * world_size c.
Proof.
  unfold pipeline. intros H. apply in_flat_map in H as (j & Hj & H).
  apply in_seq in Hj. apply wait_in_iteration in H as (k' & -> & ->).
  exists k'. split; [lia | reflexivity].
Qed.

(** Shard [i] > 0: the apply of shard [i - 1] stands right before the one
    gather of shard [i]. *)
Lemma apply_before_gather (c : config) (n m i : nat) :
  0 < world_size c -> 0 < i -> i < m ->
  exists pre post,
    pipeline c n m
      = pre ++ apply_events c n ((i - 1) * world_size c)
            ++ [EvGather (i * world_size c)] ++ post /\
    ~ In (EvGather (i * world_size c)) pre.
Proof.
  intros HW Hi Him.
  exists (pipeline c n i ++ [local_event c n (i * world_size c)]),
         (flat_map (iteration_events c n) (seq (S i) (m - S i))).
  split.
  - rewrite (pipeline_split c n m i Him).
    destruct i as [|i']; [lia|].
    unfold iteration_events. replace (S i' - 1) with i' by lia.
    cbn [app]. rewrite <- !app_assoc. reflexivity.
  - intros H. apply in_app_or in H as [H|[H|[]]].
    + apply gather_in_pipeline in H as (j & Hj & Heq). nia.
    + unfold local_event in H. destruct (Nat.ltb _ n); discriminate H.
Qed.

(** The first shard issues its gather right after its own contribution. *)
Lemma first_gather (c : config) (n m : nat) :
  0 < m ->
  exists post, pipeline c n m = local_event c n 0 :: EvGather 0 :: post.
Proof.
  intros Hm. rewrite (pipeline_split c n m 0 Hm).
  eexists. cbn [pipeline seq flat_map app iteration_events Nat.mul]. reflexivity.
Qed.

Lemma last_wait_fresh (c : config) (n m : nat) :
  0 < world_size c -> ~ In (EvWait ((m - 1) * world_size c)) (pipeline c n m).
Proof.
  intros HW H. apply wait_in_pipeline in H as (j & Hj & Heq). nia.
Qed.

Lemma compute_in_iteration (c : config) (n k b idx : nat) :
  In (EvCompute b idx) (iteration_events c n k) <->
  b = k * world_size c /\ idx = b + rank c /\ idx < n.
Proof.
  unfold iteration_events, local_event, apply_events. split.
  - intros [H|H].
    + destruct (Nat.ltb_spec (k * world_size c + rank c) n); [|discriminate H].
      injection H as <- <-. repeat split. assumption.
    + apply in_app_or in H as [H|[H|[]]]; [|discriminate H].
      destruct k as [|k']; [destruct H|].
      destruct H as [H|H]; [discriminate H|].
      apply in_map_iff in H as (x & Hx & _). discriminate Hx.
  - intros (-> & -> & Hlt). left.
    destruct (Nat.ltb_spec (k * world_size c + rank c) n); [reflexivity | lia].
Qed.

(** The device of rank [rank c] computes the update of parameter [idx] in
    its step exactly when idx mod W is its rank, at the shard step
    W * (idx / W). *)
Lemma compute_in_schedule (c : config) (n b idx : nat) :
  0 < world_size c -> rank c < world_size c -> idx < n ->
  (In (EvCompute b idx) (schedule c n) <->
   b = world_size c * (idx / world_size c) /\ rank c = idx mod world_size c).
Proof.
  intros HW Hrank Hidx.
  destruct (shards_bounds n (world_size c) HW) as (_ & Hcover & _).
  pose proof (Nat.div_mod_eq idx (world_size c)) as Hdm.
  assert (Hmod : idx mod world_size c < world_size c) by (apply Nat.mod_upper_bound; lia).
  unfold schedule. split.
  - intros H. apply in_app_or in H as [H|H].
    + apply in_flat_map in H as (k & _ & H).
      apply compute_in_iteration in H as (-> & -> & _).
      assert (Hq : (k * world_size c + rank c) / world_size c = k).
      { symmetry. apply (Nat.div_unique _ (world_size c) k (rank c)); lia. }
      assert (Hr : (k * world_size c + rank c) mod world_size c = rank c).
      { symmetry. apply (Nat.mod_unique _ (world_size c) k (rank c)); lia. }
      rewrite Hq, Hr. split; lia.
    + unfold apply_events in H. destruct H as [H|H]; [discriminate H|].
      apply in_map_iff in H as (x & Hx & _). discriminate Hx.
  - intros [-> Hr]. apply in_or_app. left.
    apply in_flat_map. exists (idx / world_size c). split.
    + apply in_seq. split; [lia|]. cbn.
      destruct (Nat.lt_ge_cases (idx / world_size c) (shards n (world_size c)))
        as [|Hge]; [assumption|].
      assert (shards n (world_size c) * world_size c
              <= idx / world_size c * world_size c)
        by (apply Nat.mul_le_mono_r; exact Hge).
      lia.
    + apply compute_in_iteration. split; [lia|]. split; lia.
Qed.

End ScheduleFacts.

(** ** One step on a group *)

Section GroupStep.
Import Tensor NewtonSchulz Update Muon.
Local Open Scope nat_scope.

(** The groups of [Muon.__init__] are not empty and hold parameters of one
    element count. *)
Lemma init_groups_nonempty (ps group : list Mat) :
  group ∈ init_groups ps ->
  group <> [] /\ exists size, Forall (fun p => mat_numel p = size) group.
Proof.
  unfold init_groups. change (map ?f ?l) with (f <$> l).
  intros H. apply list_elem_of_fmap in H as (size & -> & Hsize).
  apply elem_of_remove_dups, list_elem_of_fmap in Hsize as (p & -> & Hp).
  split.
  - intros Hnil.
    assert (Hin : p ∈ filter (fun q => mat_numel q = mat_numel p) ps)
      by (apply list_elem_of_filter; now split).
    rewrite Hnil in Hin. now apply not_elem_of_nil in Hin.
  - exists (mat_numel p). apply Forall_forall. intros q Hq.
    now apply list_elem_of_filter in Hq as [Hq _].
Qed.

(** A group without parameters would fail at the final [update_prev], whose
    [handle] is still [None]. *)
Lemma step_group_empty (c : config) (e : env) (st : state) :
  params st = [] -> 0 < world_size c -> step_group c e st = Raise AttributeError.
Proof.
  intros Hp HW. unfold step_group.
  change (length (params (enter st))) with (length (params st)).
  rewrite Hp. unfold range_step.
  destruct (Nat.eqb_spec (world_size c) 0); [lia|]. reflexivity.
Qed.

Lemma group_core (c : config) (e : env) (size : nat) (st : state) :
  group_ok c e size st -> core_inv c (shp <$> params st) (enter st).
Proof.
  intros Hok. split; cbn [enter params grads momentum_buffer update_buffer].
  - reflexivity.
  - intros i s Hi. rewrite list_lookup_fmap in Hi.
    destruct (params st !! i) as [p|] eqn:Hp; [|discriminate].
    injection Hi as <-. now apply (ok_grads c e size st Hok i).
  - intros i b s Hb Hi. rewrite list_lookup_fmap in Hi.
    destruct (params st !! i) as [p|] eqn:Hp; [|discriminate].
    injection Hi as <-. now apply (ok_momentum c e size st Hok i).
  - apply (ok_buffer c e size st Hok).
Qed.

Lemma group_shapes (c : config) (e : env) (size : nat) (st : state) :
  group_ok c e size st ->
  Forall (fun s : nat * nat => 0 < s.1 /\ 0 < s.2 /\ s.1 * s.2 = size) (shp <$> params st).
Proof.
  intros Hok. apply Forall_fmap.
  eapply Forall_impl; [apply (ok_shapes c e size st Hok)|].
  intros p Hp. exact Hp.
Qed.

Lemma group_peer (c : config) (e : env) (size : nat) (st : state) :
  group_ok c e size st ->
  forall b r, b + r < length (shp <$> params st) -> length (peer e b r) = size.
Proof.
  intros Hok b r Hbr. apply (ok_peer c e size st Hok).
  now rewrite length_fmap in Hbr.
Qed.

Lemma group_loop_start (c : config) (e : env) (size : nat) (st : state) :
  group_ok c e size st ->
  loop_inv c e size (shp <$> params st) (trace st) 0 (enter st).
Proof.
  intros Hok. split.
  - now apply (group_core c e size).
  - split; [reflexivity|]. apply (ok_pending c e size st Hok).
  - cbn [enter trace pipeline seq flat_map]. now rewrite app_nil_r.
Qed.

(** The first [k] passes of the loop on a well-formed group. *)
Lemma group_loop_prefix (c : config) (e : env) (size : nat) (st : state) (k : nat) :
  group_ok c e size st ->
  exists st_k,
    foldM (step_body c e) (map (fun i => i * world_size c) (seq 0 k)) (enter st) = Ok st_k /\
    loop_inv c e size (shp <$> params st) (trace st) k st_k.
Proof.
  intros Hok.
  apply (loop_inv_fold c e size _ (trace st)
           (ok_world c e size st Hok) (ok_rank c e size st Hok)
           (group_shapes c e size st Hok) (group_peer c e size st Hok) k 0).
  now apply group_loop_start.
Qed.

(** On a well-formed group the step raises nothing, performs the operations
    of [schedule] in that order, and leaves no gather pending. *)
Lemma step_group_ok (c : config) (e : env) (size : nat) (st : state) :
  group_ok c e size st ->
  exists st',
    step_group c e st = Ok st' /\
    trace st' = trace st ++ schedule c (length (params st)) /\
    pending st' = [] /\
    shp <$> params st' = shp <$> params st.
Proof.
  intros Hok.
  pose proof (ok_world c e size st Hok) as HW.
  pose proof (ok_rank c e size st Hok) as Hrank.
  pose proof (group_shapes c e size st Hok) as Hsh.
  assert (Hlen : length (shp <$> params st) = length (params st)) by apply length_fmap.
  pose proof (group_peer c e size st Hok) as Hpeer.
  unfold step_group.
  change (length (params (enter st))) with (length (params st)).
  rewrite range_step_ok by exact HW. cbn [bind].
  pose proof (group_loop_start c e size st Hok) as Hinit.
  destruct (loop_inv_fold c e size _ (trace st) HW Hrank Hsh Hpeer
              (shards (length (params st)) (world_size c)) 0 (enter st) Hinit)
    as (st1 & Hrun & [Hcore Hfl Htr]).
  rewrite Hrun. cbn [bind].
  pose proof (shards_pos (length (params st)) (world_size c) HW
                (ok_nonempty c e size st Hok)) as Hn.
  cbn [Nat.add] in Hfl, Htr.
  destruct (shards (length (params st)) (world_size c)) as [|n'] eqn:En; [lia|].
  destruct (update_prev_inv c e size _ HW Hrank Hsh Hpeer n' st1 Hcore Hfl)
    as (st2 & Hrun2 & Hcore2 & _ & _ & _ & Hpe & Htr2).
  exists st2. split; [exact Hrun2|].
  split; [|split; [exact Hpe | apply (inv_shapes _ Hcore2)]].
  rewrite Htr2, Htr, Hlen. unfold schedule. rewrite En.
  replace (S n' - 1) with n' by lia. now rewrite app_assoc.
Qed.

(** C1: on every well-formed group the step raises nothing and runs the
    operations of [schedule]; there, for every shard i > 0, the apply of
    shard i - 1 (the wait on its gather and its parameter updates) stands
    right before the gather of shard i, which is issued nowhere earlier; the
    first shard issues its gather right after its own contribution, with no
    apply before it; the apply of the last shard comes once, after the loop,
    and no gather is left pending. *)
Theorem C1_apply_precedes_next_gather (c : config) (e : env) (size : nat) (st : state) :
  group_ok c e size st ->
  let W := world_size c in
  let N := length (params st) in
  let n := shards N W in
  exists st' body,
    step_group c e st = Ok st' /\
    trace st' = trace st ++ body ++ apply_events c N ((n - 1) * W) /\
    (forall i, 0 < i < n ->
       exists pre post,
         body = pre ++ apply_events c N ((i - 1) * W) ++ [EvGather (i * W)] ++ post /\
         ~ In (EvGather (i * W)) pre) /\
    (exists post, body = local_event c N 0 :: EvGather 0 :: post) /\
    ~ In (EvWait ((n - 1) * W)) body /\
    pending st' = [].
Proof.
  intros Hok W N n.
  pose proof (ok_world c e size st Hok) as HW.
  destruct (step_group_ok c e size st Hok) as (st' & Hrun & Htr & Hpe & _).
  exists st', (pipeline c N n).
  split; [exact Hrun|]. split; [exact Htr|].
  split; [|split; [|split]].
  - intros i [Hi Hin]. now apply apply_before_gather.
  - apply first_gather. apply shards_pos; [exact HW|].
    apply (ok_nonempty c e size st Hok).
  - now apply last_wait_fresh.
  - exact Hpe.
Qed.

(** C7: with W >= 1 devices, every parameter index below N belongs to
    exactly one pair of a shard step base_i of the loop and a rank below W
    with base_i + rank = idx, namely base_i = W * (idx / W) and
    rank = idx mod W; and a step of a device on a well-formed group of N
    parameters computes the update of parameter idx exactly when the device
    has that rank, at that shard step. *)
Theorem C7_round_robin_assigns_once (c : config) (N idx : nat) :
  1 <= world_size c -> rank c < world_size c -> idx < N ->
  let W := world_size c in
  exists bases,
    range_step N W = Ok bases /\ NoDup bases /\
    In (W * (idx / W)) bases /\ idx mod W < W /\
    W * (idx / W) + idx mod W = idx /\
    (forall base_i r,
       In base_i bases -> r < W -> base_i + r = idx ->
       base_i = W * (idx / W) /\ r = idx mod W) /\
    (forall e size st,
       group_ok c e size st -> length (params st) = N ->
       exists st',
         step_group c e st = Ok st' /\
         forall b, In (EvCompute b idx) (trace st') <->
                   In (EvCompute b idx) (trace st) \/
                   (b = W * (idx / W) /\ rank c = idx mod W)).
Proof.
  intros HW Hrank Hidx W.
  exists (map (fun k => k * W) (seq 0 (shards N W))).
  destruct (round_robin_unique N W idx HW Hidx) as (H1 & H2 & H3 & H4 & H5).
  split; [apply range_step_ok; lia|].
  repeat (split; [assumption|]).
  intros e size st Hok Hlen.
  destruct (step_group_ok c e size st Hok) as (st' & Hrun & Htr & _).
  exists st'. split; [exact Hrun|].
  intros b. rewrite Htr, Hlen, in_app_iff.
  now rewrite (compute_in_schedule c N b idx) by (assumption || lia).
Qed.

Lemma C7_round_robin_assigns_once_witness :
  exists bases,
    range_step 3 2 = Ok bases /\ NoDup bases /\
    In (2 * (2 / 2)) bases /\ 2 mod 2 < 2 /\
    2 * (2 / 2) + 2 mod 2 = 2 /\
    (forall base_i r,
       In base_i bases -> r < 2 -> base_i + r = 2 ->
       base_i = 2 * (2 / 2) /\ r = 2 mod 2) /\
    (forall e size st,
       group_ok demo_config e size st -> length (params st) = 3 ->
       exists st',
         step_group demo_config e st = Ok st' /\
         forall b, In (EvCompute b 2) (trace st') <->
                   In (EvCompute b 2) (trace st) \/
                   (b = 2 * (2 / 2) /\ 1 = 2 mod 2)).
Proof.
  apply (C7_round_robin_assigns_once demo_config 3 2); cbn; lia.
Defined.

Lemma demo_group_ok : group_ok demo_config demo_env 4 demo_state.
Proof.
  split; cbn [demo_config demo_env demo_state world_size rank params grads
              momentum_buffer update_buffer peer pending]; try lia; try reflexivity.
  - cbn; lia.
  - repeat constructor; cbn; lia.
  - intros [|[|[|i]]] p Hp; try discriminate Hp; injection Hp as <-;
      (eexists; split; [reflexivity | reflexivity]).
  - intros i b p Hb. rewrite lookup_empty in Hb. discriminate Hb.
Qed.

Lemma C1_apply_precedes_next_gather_witness :
  exists st' body,
    step_group demo_config demo_env demo_state = Ok st' /\
    trace st' = trace demo_state ++ body ++ apply_events demo_config 3 ((shards 3 2 - 1) * 2) /\
    (forall i, 0 < i < shards 3 2 ->
       exists pre post,
         body = pre ++ apply_events demo_config 3 ((i - 1) * 2) ++ [EvGather (i * 2)] ++ post /\
         ~ In (EvGather (i * 2)) pre) /\
    (exists post, body = local_event demo_config 3 0 :: EvGather 0 :: post) /\
    ~ In (EvWait ((shards 3 2 - 1) * 2)) body /\
    pending st' = [].
Proof.
  apply (C1_apply_precedes_next_gather demo_config demo_env 4 demo_state).
  apply demo_group_ok.
Defined.

(** The operations of the scenario, written out: apply of shard 0 before the
    gather of shard 2, the last apply after the loop. *)
Lemma demo_schedule :
  schedule demo_config 3 =
  [ EvCompute 0 1; EvGather 0;
    EvPlaceholder 2; EvWait 0; EvUpdate 0 0; EvUpdate 0 1; EvGather 2;
    EvWait 2; EvUpdate 2 2 ].
Proof. reflexivity. Qed.

End GroupStep.

(** ** The placeholder of a rank without a parameter *)

Section PlaceholderFacts.
Import Tensor NewtonSchulz Update Muon.
Local Open Scope nat_scope.

(** C8, amended: at a shard step where base_i + rank is outside the group,
    the rank takes its own view [update_buffer_views[rank]] as its
    contribution, and the gather is issued with what that view holds then:
    at the first shard step what the buffer held on entry, later what the
    previous gather delivered to the rank's own slot; the gather writes the
    same content back to that slot. *)
Theorem C8_placeholder_is_own_view (c : config) (e : env) (size : nat) (st : state) (k : nat) :
  group_ok c e size st ->
  k < shards (length (params st)) (world_size c) ->
  ~ k * world_size c + rank c < length (params st) ->
  exists st_k st' v,
    foldM (step_body c e) (map (fun i => i * world_size c) (seq 0 k)) (enter st) = Ok st_k /\
    local_update c st_k (k * world_size c)
      = Ok (log (EvPlaceholder (k * world_size c)) st_k, BufferView (rank c)) /\
    step_body c e st_k (k * world_size c) = Ok st' /\
    handle st' = Some (all_gather c e (k * world_size c) v) /\
    h_slots (all_gather c e (k * world_size c) v) !! rank c = Some v /\
    match k with
    | O => update_buffer st !! rank c = Some v
    | S _ => exists h, handle st_k = Some h /\ h_slots h !! rank c = Some v
    end.
Proof.
  intros Hok _ Hout.
  pose proof (ok_world c e size st Hok) as HW.
  pose proof (ok_rank c e size st Hok) as Hrank.
  destruct (group_loop_prefix c e size st k Hok) as (st_k & Hrun & Hinv).
  destruct (step_body_inv c e size _ (trace st) HW Hrank
              (group_shapes c e size st Hok) (group_peer c e size st Hok) k st_k Hinv)
    as (st' & v & Hbody & _ & Hh & _ & Hph).
  rewrite length_fmap in Hph. destruct (Hph Hout) as [Hlu Hv].
  exists st_k, st', v.
  split; [exact Hrun|]. split; [exact Hlu|]. split; [exact Hbody|].
  split; [exact Hh|]. split.
  - rewrite slots_lookup by exact Hrank. now rewrite Nat.eqb_refl.
  - destruct k as [|k']; [|exact Hv].
    cbn [seq map foldM] in Hrun. injection Hrun as <-. exact Hv.
Qed.

Lemma C8_placeholder_is_own_view_witness :
  exists st_k st' v,
    foldM (step_body demo_config demo_env) (map (fun i => i * 2) (seq 0 1)) (enter demo_state)
      = Ok st_k /\
    local_update demo_config st_k 2
      = Ok (log (EvPlaceholder 2) st_k, BufferView 1) /\
    step_body demo_config demo_env st_k 2 = Ok st' /\
    handle st' = Some (all_gather demo_config demo_env 2 v) /\
    h_slots (all_gather demo_config demo_env 2 v) !! 1 = Some v /\
    exists h, handle st_k = Some h /\ h_slots h !! 1 = Some v.
Proof.
  apply (C8_placeholder_is_own_view demo_config demo_env 4 demo_state 1).
  - apply demo_group_ok.
  - vm_compute. lia.
  - cbn. lia.
Defined.

(** The update rank 1 hands to [orthogonalize] for parameter 1. *)
Lemma demo_lookahead :
  lookahead_spec 0.95 (ema_spec 0.95 (zeros_like (diag2 256 1)) (diag2 256 1)) (diag2 256 1)
  = diag2 24.96 0.0975.
Proof.
  cbv [lookahead_spec ema_spec zeros_like zeros build get diag2 rows nrows ncols
       map seq nth].
  repeat f_equal; lra.
Qed.

Lemma frobenius_demo : (24.96 <= sqrt (24.96 * 24.96 + 0.0975 * 0.0975) <= 24.9602)%R.
Proof.
  split.
  - rewrite <- (sqrt_square 24.96) at 1 by lra. apply sqrt_le_1_alt. lra.
  - rewrite <- (sqrt_square 24.9602) by lra. apply sqrt_le_1_alt. lra.
Qed.

(** At shard 0 rank 1 computes a contribution whose last entry is above 1. *)
Lemma demo_first_contribution :
  exists s x y,
    local_update demo_config (enter demo_state) 0 = Ok (s, Fresh [x; 0%R; 0%R; y]) /\
    (1.1436 <= y)%R.
Proof.
  do 3 eexists. split.
  - unfold local_update.
    change (Nat.ltb (0 + rank demo_config) (length (params (enter demo_state)))) with true.
    cbv iota.
    change (grads (enter demo_state) !! (0 + rank demo_config))
      with (Some (Some (diag2 256 1))).
    cbv iota beta.
    change (momentum_buffer (enter demo_state)) with (∅ : gmap nat Mat).
    rewrite momentum_update_ok
      by (intros b Hb; rewrite lookup_empty in Hb; discriminate Hb).
    rewrite lookup_empty. cbn [bind].
    rewrite orthogonalize_ok. cbn [bind].
    change (momentum demo_config) with 0.95%R.
    change (nesterov demo_config) with true. cbv iota.
    rewrite demo_lookahead, orthogonalize_spec_diag2. cbv zeta.
    reflexivity.
  - pose proof frobenius_demo as [Hlo Hhi].
    set (d := (sqrt (24.96 * 24.96 + 0.0975 * 0.0975) + 1e-7)%R).
    assert (Hd : (24.9600001 <= d <= 24.9602001)%R) by (unfold d; lra).
    clearbody d.
    apply overshoot_interval.
    assert (Hx : (0.0975 = (0.0975 / d) * d)%R) by (field; lra).
    split; nra.
Qed.

(** C8, as stated, fails in the scenario of three parameters on two
    devices: at base_i = 2 rank 1 has no parameter, and the gather is issued
    with the update rank 1 computed at base_i = 0, not with zeros. *)
Lemma C8_placeholder_is_not_zero :
  exists st1 st2 v,
    step_body demo_config demo_env (enter demo_state) 0 = Ok st1 /\
    ~ 2 + rank demo_config < length (params st1) /\
    step_body demo_config demo_env st1 2 = Ok st2 /\
    handle st2 = Some (all_gather demo_config demo_env 2 v) /\
    v <> [0; 0; 0; 0]%R.
Proof.
  pose proof demo_group_ok as Hok.
  pose proof (ok_world _ _ _ _ Hok) as HW.
  pose proof (ok_rank _ _ _ _ Hok) as Hrank.
  pose proof (group_shapes _ _ _ _ Hok) as Hsh.
  pose proof (group_peer _ _ _ _ Hok) as Hpeer.
  destruct (step_body_inv _ _ _ _ _ HW Hrank Hsh Hpeer 0 _ (group_loop_start _ _ _ _ Hok))
    as (st1 & v0 & Hrun1 & Hinv1 & Hh1 & Hin1 & _).
  destruct (step_body_inv _ _ _ _ _ HW Hrank Hsh Hpeer 1 _ Hinv1)
    as (st2 & v & Hrun2 & _ & Hh2 & _ & Hout2).
  exists st1, st2, v.
  assert (Hlen : length (params st1) = 3).
  { pose proof (f_equal length (inv_shapes _ (inv_core _ Hinv1))) as Hl.
    now rewrite !length_fmap in Hl. }
  split; [exact Hrun1|]. split; [rewrite Hlen; cbn; lia|].
  split; [exact Hrun2|]. split; [exact Hh2|].
  destruct Hout2 as [_ (h & Hh & Hv)]; [cbn; lia|].
  rewrite Hh1 in Hh. injection Hh as <-.
  rewrite slots_lookup in Hv by (cbn; lia).
  change (Nat.eqb (rank demo_config) (rank demo_config)) with true in Hv.
  injection Hv as <-.
  destruct Hin1 as [s Hs]; [cbn; lia|].
  destruct demo_first_contribution as (s' & x & y & Hs' & Hy).
  change (0 * world_size demo_config) with 0 in Hs.
  rewrite Hs' in Hs. injection Hs as _ <-.
  intros Hzero. injection Hzero as _ Hy0. lra.
Qed.

End PlaceholderFacts.

(** ** Placeholder slots never reach a parameter *)

Section Noninterference.
Import Tensor NewtonSchulz Update Muon.
Local Open Scope nat_scope.

Lemma rel_bind {A B : Type} (P : A -> A -> Prop) (Q : B -> B -> Prop)
    (r1 r2 : result A) (k1 k2 : A -> result B) :
  rel_result P r1 r2 ->
  (forall a b, P a b -> rel_result Q (k1 a) (k2 b)) ->
  rel_result Q (bind r1 k1) (bind r2 k2).
Proof.
  intros Hr Hk. destruct r1 as [a|x], r2 as [b|y]; cbn in *; try contradiction.
  - now apply Hk.
  - exact Hr.
Qed.

Variables (c : config) (e1 e2 : env).
Hypothesis Hnoise : noise e1 = noise e2.

Local Abbreviation sim_local := (Muon.sim_local c).

Lemma sim_update_one (base : nat) (st1 st2 : state) (pg : nat * list R) :
  sim st1 st2 ->
  rel_result sim (update_one c e1 base st1 pg) (update_one c e2 base st2 pg).
Proof.
  intros [Hp Hg Hm Hb Hpw Hr Hh]. destruct pg as [idx g]. unfold update_one.
  rewrite <- Hp, <- Hr, <- Hnoise.
  destruct (params st1 !! idx) as [p|]; [|reflexivity].
  destruct (apply_update (lr c) (w_max c) (noise e1 (rng st1)) p g) as [p'|x];
    cbn [bind rel_result]; [|reflexivity].
  split; cbn [params grads momentum_buffer update_buffer params_world rng handle];
    congruence.
Qed.

Lemma sim_update_loop (base : nat) (l : list (nat * list R)) :
  forall st1 st2,
    sim st1 st2 ->
    rel_result sim (foldM (update_one c e1 base) l st1) (foldM (update_one c e2 base) l st2).
Proof.
  induction l as [|pg l IH]; intros st1 st2 Hs; cbn [foldM].
  - exact Hs.
  - eapply rel_bind; [apply sim_update_one; exact Hs|].
    intros a b Hab. now apply IH.
Qed.

Lemma sim_update_prev (st1 st2 : state) :
  sim st1 st2 -> rel_result sim (update_prev c e1 st1) (update_prev c e2 st2).
Proof.
  intros [Hp Hg Hm Hb Hpw Hr Hh]. unfold update_prev.
  destruct (handle st1) as [h1|] eqn:E1, (handle st2) as [h2|] eqn:E2;
    try contradiction; [|reflexivity].
  destruct Hh as (Hbase & Hlen & Hzip).
  cbn [wait params_world update_buffer]. rewrite <- Hpw.
  destruct (params_world st1) as [pw|] eqn:Epw; [|reflexivity].
  rewrite <- Hbase, <- (Hzip pw eq_refl).
  apply sim_update_loop.
  split; cbn [wait params grads momentum_buffer update_buffer params_world rng handle];
    try assumption.
  - congruence.
  - rewrite E1, E2. split; [exact Hbase|]. split; [exact Hlen|].
    intros pw' Hpw'. rewrite Epw in Hpw'. injection Hpw' as <-. now apply Hzip.
Qed.

Lemma update_one_length (e : env) (base : nat) (st st' : state) (pg : nat * list R) :
  update_one c e base st pg = Ok st' -> length (params st') = length (params st).
Proof.
  destruct pg as [idx g]. unfold update_one.
  destruct (params st !! idx) as [p|]; [|discriminate].
  destruct (apply_update _ _ _ p g) as [p'|x]; cbn [bind]; [|discriminate].
  intros [= <-]. cbn [params]. apply length_insert.
Qed.

Lemma update_loop_length (e : env) (base : nat) (l : list (nat * list R)) :
  forall st st',
    foldM (update_one c e base) l st = Ok st' -> length (params st') = length (params st).
Proof.
  induction l as [|pg l IH]; intros st st'; cbn [foldM].
  - now intros [= <-].
  - destruct (update_one c e base st pg) as [st1|x] eqn:E; cbn [bind]; [|discriminate].
    intros H. rewrite (IH _ _ H). now apply (update_one_length e base st st1 pg).
Qed.

Lemma update_prev_length (e : env) (st st' : state) :
  update_prev c e st = Ok st' -> length (params st') = length (params st).
Proof.
  unfold update_prev. destruct (handle st) as [h|]; [|discriminate].
  destruct (params_world (wait h st)) as [pw|]; [|discriminate].
  intros H. now rewrite (update_loop_length _ _ _ _ _ H).
Qed.

Lemma sim_local_update (b : nat) (st1 st2 : state) :
  sim st1 st2 -> rel_result (sim_local b) (local_update c st1 b) (local_update c st2 b).
Proof.
  intros [Hp Hg Hm Hb Hpw Hr Hh]. unfold local_update.
  rewrite <- Hp, <- Hg, <- Hm.
  destruct (Nat.ltb_spec (b + rank c) (length (params st1))) as [Hin|Hout].
  - destruct (grads st1 !! (b + rank c)) as [[g|]|]; try reflexivity.
    destruct (momentum_update _ _ _ g) as [[[buf g'] upd]|x]; cbn [bind]; [|reflexivity].
    destruct (orthogonalize upd) as [o|x]; cbn [bind rel_result]; [|reflexivity].
    split; [|split; [reflexivity|split]]; cbn [fst snd params].
    + split; cbn [params grads momentum_buffer update_buffer params_world rng handle];
        congruence.
    + congruence.
    + intros _. eexists. reflexivity.
  - assert (Hsome : is_Some (update_buffer st1 !! rank c)
                    <-> is_Some (update_buffer st2 !! rank c)).
    { rewrite !lookup_lt_is_Some. now rewrite Hb. }
    destruct (update_buffer st1 !! rank c) as [v1|] eqn:E1,
             (update_buffer st2 !! rank c) as [v2|] eqn:E2; cbn [rel_result].
    + split; [|split; [reflexivity|split]]; cbn [fst snd log params].
      * split; cbn [log params grads momentum_buffer update_buffer params_world rng handle];
          congruence.
      * congruence.
      * intros Hlt. lia.
    + destruct (proj1 Hsome) as [? ?]; [now eexists | discriminate].
    + destruct (proj2 Hsome) as [? ?]; [now eexists | discriminate].
    + reflexivity.
Qed.

Lemma rel_result_and {A : Type} (P : A -> A -> Prop) (Q : A -> Prop) (r1 r2 : result A) :
  rel_result P r1 r2 -> (forall a, r1 = Ok a -> Q a) ->
  rel_result (fun a b => P a b /\ Q a) r1 r2.
Proof.
  intros Hr Hq. destruct r1 as [a|x], r2 as [b|y]; cbn in *; try contradiction.
  - split; [exact Hr | now apply Hq].
  - exact Hr.
Qed.

Variable N : nat.
Hypothesis Hpeers : forall b r, b + r < N -> peer e1 b r = peer e2 b r.

Local Abbreviation simN := (Muon.simN N).

Lemma zip_slots_agree (b : nat) (v1 v2 : list R) :
  (b + rank c < N -> v1 = v2) ->
  zip (slice_idx b (b + world_size c) N) (h_slots (all_gather c e1 b v1))
  = zip (slice_idx b (b + world_size c) N) (h_slots (all_gather c e2 b v2)).
Proof.
  intros Hv. apply list_eq; intros i. rewrite !lookup_zip_with.
  unfold slice_idx.
  destruct (seq b (Nat.min (b + world_size c) N - b) !! i) as [x|] eqn:Ex; [|reflexivity].
  apply lookup_seq in Ex as [-> Hi]. cbn [mbind option_bind].
  unfold all_gather; cbn [h_slots]. change (map ?f ?l) with (f <$> l).
  rewrite !list_lookup_fmap, lookup_seq_lt by lia.
  cbn [fmap option_fmap option_map mbind option_bind Nat.add].
  destruct (Nat.eqb_spec i (rank c)) as [->|_].
  - rewrite Hv by lia. reflexivity.
  - rewrite Hpeers by lia. reflexivity.
Qed.

Lemma sim_deref (b : nat) (s1 s2 : state) (g : tensor_ref) :
  sim s1 s2 -> (b + rank c < N -> exists v, g = Fresh v) ->
  rel_result (fun v1 v2 => b + rank c < N -> v1 = v2) (deref s1 g) (deref s2 g).
Proof.
  intros Hs Hg. destruct g as [v|r]; cbn [deref rel_result].
  - reflexivity.
  - assert (Hsome : is_Some (update_buffer s1 !! r) <-> is_Some (update_buffer s2 !! r)).
    { rewrite !lookup_lt_is_Some. now rewrite (sim_buflen _ _ Hs). }
    destruct (update_buffer s1 !! r) as [v1|] eqn:E1,
             (update_buffer s2 !! r) as [v2|] eqn:E2; cbn [rel_result].
    + intros Hin. destruct (Hg Hin) as [v Hv]. discriminate Hv.
    + destruct (proj1 Hsome) as [? ?]; [now eexists | discriminate].
    + destruct (proj2 Hsome) as [? ?]; [now eexists | discriminate].
    + reflexivity.
Qed.

Lemma sim_issue (b : nat) (v1 v2 : list R) (s1 s2 : state) :
  simN s1 s2 -> (b + rank c < N -> v1 = v2) ->
  simN (issue c e1 b v1 s1) (issue c e2 b v2 s2).
Proof.
  intros [[Hp Hg Hm Hb Hpw Hr Hh] Hlen] Hv. split; [|exact Hlen].
  split; cbn [issue params grads momentum_buffer update_buffer params_world rng handle];
    try congruence.
  split; [reflexivity|]. split.
  - cbn [all_gather h_slots]. now rewrite !length_map.
  - intros pw [= <-]. rewrite Hlen. now apply zip_slots_agree.
Qed.

Lemma local_update_params (st s : state) (b : nat) (g : tensor_ref) :
  local_update c st b = Ok (s, g) -> params s = params st.
Proof.
  unfold local_update.
  destruct (Nat.ltb (b + rank c) (length (params st))).
  - destruct (grads st !! (b + rank c)) as [[g0|]|]; try discriminate.
    destruct (momentum_update _ _ _ g0) as [[[buf g'] upd]|x]; cbn [bind]; [|discriminate].
    destruct (orthogonalize upd) as [o|x]; cbn [bind]; [|discriminate].
    now intros [= <- _].
  - destruct (update_buffer st !! rank c); [|discriminate].
    now intros [= <- _].
Qed.

Lemma sim_step_body (st1 st2 : state) (b : nat) :
  simN st1 st2 -> rel_result simN (step_body c e1 st1 b) (step_body c e2 st2 b).
Proof.
  intros [Hs Hlen]. unfold step_body.
  eapply rel_bind.
  { apply (rel_result_and (sim_local b) (fun r => length (params r.1) = N)).
    - apply (sim_local_update b); exact Hs.
    - intros [s g] Hr. cbn [fst]. rewrite (local_update_params _ _ _ _ Hr). exact Hlen. }
  intros [s1 g1] [s2 g2] [(Hs' & Hg & Hl & Hfresh) Hlen1]. cbn [fst snd] in *. subst g2.
  eapply rel_bind.
  { apply (rel_result_and sim (fun s => length (params s) = N)).
    - destruct (Nat.ltb 0 b); [apply sim_update_prev; exact Hs' | exact Hs'].
    - intros a Ha. destruct (Nat.ltb 0 b).
      + rewrite (update_prev_length _ _ _ Ha). exact Hlen1.
      + injection Ha as <-. exact Hlen1. }
  intros a1 a2 [Ha Hla].
  eapply rel_bind.
  { apply (sim_deref b a1 a2 g1 Ha). rewrite <- Hlen1. exact Hfresh. }
  intros v1 v2 Hv. cbn [rel_result]. apply sim_issue; [split; assumption | exact Hv].
Qed.

Lemma sim_loop (l : list nat) :
  forall st1 st2,
    simN st1 st2 ->
    rel_result simN (foldM (step_body c e1) l st1) (foldM (step_body c e2) l st2).
Proof.
  induction l as [|b l IH]; intros st1 st2 Hs; cbn [foldM].
  - exact Hs.
  - eapply rel_bind; [apply sim_step_body; exact Hs|].
    intros a1 a2 Ha. now apply IH.
Qed.

Lemma sim_step_group (st1 st2 : state) :
  params st1 = params st2 -> grads st1 = grads st2 ->
  momentum_buffer st1 = momentum_buffer st2 -> rng st1 = rng st2 ->
  length (update_buffer st1) = length (update_buffer st2) ->
  length (params st1) = N ->
  rel_result sim (step_group c e1 st1) (step_group c e2 st2).
Proof.
  intros Hp Hg Hm Hr Hb Hlen. unfold step_group.
  change (length (params (enter st1))) with (length (params st1)).
  change (length (params (enter st2))) with (length (params st2)).
  rewrite <- Hp.
  destruct (range_step (length (params st1)) (world_size c)) as [bases|x];
    cbn [bind]; [|reflexivity].
  eapply rel_bind.
  - apply (sim_loop bases). split; [|exact Hlen].
    split; cbn [enter params grads momentum_buffer update_buffer params_world rng handle];
      try assumption; try reflexivity.
  - intros a1 a2 [Ha _]. now apply sim_update_prev.
Qed.

End Noninterference.

Section PlaceholderIsolation.
Import Tensor NewtonSchulz Update Muon.
Local Open Scope nat_scope.

Lemma applied_slots (w n b : nat) (slots : list (list R)) :
  length slots = w ->
  length (zip (slice_idx b (b + w) n) slots) = Nat.min w (n - b).
Proof.
  intros Hs. rewrite length_zip. unfold slice_idx. rewrite length_seq, Hs. lia.
Qed.

(** C10: in the apply of shard base_i the parameters
    params[base_i : base_i + W] are zipped with the W gathered slots, so
    min(W, N - base_i) slots are applied; a step from a buffer with other
    contents and with other contributions of the peers at the slots
    base_i + rank >= N raises nothing either and ends with the same
    parameters, gradients and momentum buffers. *)
Theorem C10_placeholders_never_applied
    (c : config) (e1 e2 : env) (size : nat) (st1 st2 : state) :
  group_ok c e1 size st1 ->
  noise e1 = noise e2 ->
  (forall b r, b + r < length (params st1) -> peer e1 b r = peer e2 b r) ->
  params st1 = params st2 -> grads st1 = grads st2 ->
  momentum_buffer st1 = momentum_buffer st2 -> rng st1 = rng st2 ->
  length (update_buffer st1) = length (update_buffer st2) ->
  (forall (b : nat) (slots : list (list R)),
     length slots = world_size c ->
     length (zip (slice_idx b (b + world_size c) (length (params st1))) slots)
     = Nat.min (world_size c) (length (params st1) - b)) /\
  exists s1 s2,
    step_group c e1 st1 = Ok s1 /\ step_group c e2 st2 = Ok s2 /\
    params s1 = params s2 /\ grads s1 = grads s2 /\
    momentum_buffer s1 = momentum_buffer s2.
Proof.
  intros Hok Hnoise Hpeers Hp Hg Hm Hr Hb.
  split; [intros b slots; apply applied_slots|].
  destruct (step_group_ok c e1 size st1 Hok) as (s1 & Hrun1 & _).
  pose proof (sim_step_group c e1 e2 Hnoise (length (params st1)) Hpeers
                st1 st2 Hp Hg Hm Hr Hb eq_refl) as Hsim.
  rewrite Hrun1 in Hsim.
  destruct (step_group c e2 st2) as [s2|x]; cbn [rel_result] in Hsim; [|contradiction].
  exists s1, s2. split; [exact Hrun1|]. split; [reflexivity|].
  destruct Hsim as [Hp' Hg' Hm' _ _ _ _]. now repeat split.
Qed.

Lemma C10_placeholders_never_applied_witness :
  (forall (b : nat) (slots : list (list R)),
     length slots = 2 ->
     length (zip (slice_idx b (b + 2) 3) slots) = Nat.min 2 (3 - b)) /\
  exists s1 s2,
    step_group demo_config demo_env demo_state = Ok s1 /\
    step_group demo_config demo_env' demo_state' = Ok s2 /\
    params s1 = params s2 /\ grads s1 = grads s2 /\
    momentum_buffer s1 = momentum_buffer s2.
Proof.
  apply (C10_placeholders_never_applied demo_config demo_env demo_env' 4
           demo_state demo_state'); try reflexivity.
  - apply demo_group_ok.
  - intros b r Hbr. cbn in Hbr. cbn [demo_env demo_env' peer].
    destruct (Nat.ltb_spec (b + r) 3); [reflexivity | lia].
Defined.

End PlaceholderIsolation.

(** ** The learning-rate, momentum and window schedules *)

Section ScheduleValues.
Import Schedule.
Local Open Scope Q_scope.

Lemma truediv_ok (s n : Z) :
  (0 < n)%Z ->
  exists x, truediv s n = Ok x /\ x * inject_Z n == inject_Z s /\ 0 < inject_Z n.
Proof.
  intros Hn. exists (inject_Z s / inject_Z n). unfold truediv.
  assert (HN : 0 < inject_Z n) by (change 0 with (inject_Z 0); now rewrite <- Zlt_Qlt).
  destruct (Z.eqb_spec n 0) as [->|_]; [lia|].
  split; [reflexivity|]. split; [|exact HN].
  field. Lqa.lra.
Qed.

Lemma Qlt_bool_iff (x y : Q) : Qlt_bool x y = true <-> x < y.
Proof.
  unfold Qlt_bool. rewrite negb_true_iff. split.
  - intros H. apply Qnot_le_lt. intros Hle. apply Qle_bool_iff in Hle. congruence.
  - intros H. destruct (Qle_bool y x) eqn:E; [|reflexivity].
    apply Qle_bool_iff in E. Lqa.lra.
Qed.

Lemma Qlt_bool_false (x y : Q) : Qlt_bool x y = false <-> y <= x.
Proof.
  unfold Qlt_bool. rewrite negb_false_iff. apply Qle_bool_iff.
Qed.

Lemma Qle_bool_false (x y : Q) : Qle_bool x y = false <-> y < x.
Proof.
  rewrite <- Qlt_bool_iff. unfold Qlt_bool. now rewrite negb_true_iff.
Qed.

(** The value of [get_lr] on a step inside the run. *)
Lemma get_lr_value (a : Hyperparameters) (step : Z) :
  (0 < num_iterations a)%Z -> (0 <= step < num_iterations a)%Z ->
  exists x f,
    get_lr a step = Ok f /\
    x * inject_Z (num_iterations a) == inject_Z step /\ 0 <= x /\ x < 1 /\
    ((x < 1 - cooldown_frac a /\ f = 1) \/
     (1 - cooldown_frac a <= x /\ ~ cooldown_frac a == 0 /\
      f * cooldown_frac a == 0.1 * cooldown_frac a + 0.9 * (1 - x))).
Proof.
  intros Hn [H0 H1].
  destruct (truediv_ok step _ Hn) as (x & Hx & Hmul & HN).
  assert (HS0 : 0 <= inject_Z step) by (change 0 with (inject_Z 0); now rewrite <- Zle_Qle).
  assert (HS1 : inject_Z step < inject_Z (num_iterations a)) by now rewrite <- Zlt_Qlt.
  assert (Hx0 : 0 <= x) by Lqa.nra.
  assert (Hx1 : x < 1) by Lqa.nra.
  unfold get_lr. rewrite Hx. cbn [bind].
  assert (E0 : Qle_bool 0 x = true) by now apply Qle_bool_iff.
  assert (E1 : Qlt_bool x 1 = true) by now apply Qlt_bool_iff.
  rewrite E0, E1. cbn [andb assert bind].
  destruct (Qlt_bool x (1 - cooldown_frac a)) eqn:Ec.
  - exists x, 1. apply Qlt_bool_iff in Ec. repeat split; try assumption. now left.
  - apply Qlt_bool_false in Ec.
    assert (Hcf : ~ cooldown_frac a == 0) by (intros E; rewrite E in Ec; Lqa.lra).
    destruct (Qeq_bool (cooldown_frac a) 0) eqn:Ez.
    { apply Qeq_bool_iff in Ez. contradiction. }
    eexists x, _. split; [reflexivity|]. repeat split; try assumption.
    right. repeat split; try assumption. field. exact Hcf.
Qed.

(** X1: with a positive number of iterations and a positive cooldown
    fraction, [get_lr] returns on every step of the run a factor above 0.1
    and at most 1; the factor is 1 up to the step where the cooldown starts
    (that step included) and below 1 after it. *)
Theorem get_lr_range (a : Hyperparameters) (step : Z) :
  (0 < num_iterations a)%Z -> 0 < cooldown_frac a ->
  (0 <= step < num_iterations a)%Z ->
  exists f,
    get_lr a step = Ok f /\ 0.1 < f /\ f <= 1 /\
    (inject_Z step <= (1 - cooldown_frac a) * inject_Z (num_iterations a) -> f == 1) /\
    ((1 - cooldown_frac a) * inject_Z (num_iterations a) < inject_Z step -> f < 1).
Proof.
  intros Hn Hcf Hs.
  destruct (get_lr_value a step Hn Hs) as (x & f & Hf & Hmul & Hx0 & Hx1 & Hcase).
  assert (HN : 0 < inject_Z (num_iterations a))
    by (change 0 with (inject_Z 0); now rewrite <- Zlt_Qlt).
  exists f. split; [exact Hf|].
  set (N := inject_Z (num_iterations a)) in *.
  set (S := inject_Z step) in *.
  set (cf := cooldown_frac a) in *.
  destruct Hcase as [[Hlt ->]|(Hge & _ & Hval)].
  - repeat split; try Lqa.lra. intros Hc. exfalso. Lqa.nra.
  - repeat split.
    + Lqa.nra.
    + Lqa.nra.
    + intros Hc. assert (x == 1 - cf) by Lqa.nra. Lqa.nra.
    + intros Hc. assert (1 - cf < x) by Lqa.nra. Lqa.nra.
Qed.

Lemma get_lr_range_witness :
  exists f,
    get_lr args 1500 = Ok f /\ 0.1 < f /\ f <= 1 /\
    (inject_Z 1500 <= (1 - cooldown_frac args) * inject_Z (num_iterations args) -> f == 1) /\
    ((1 - cooldown_frac args) * inject_Z (num_iterations args) < inject_Z 1500 -> f < 1).
Proof.
  apply (get_lr_range args 1500); cbn; [lia|reflexivity|lia].
Defined.

(** X2: the factor of [get_lr] never grows from one step of the run to a
    later one. *)
Theorem get_lr_nonincreasing (a : Hyperparameters) (s t : Z) :
  (0 < num_iterations a)%Z -> 0 < cooldown_frac a ->
  (0 <= s)%Z -> (s <= t)%Z -> (t < num_iterations a)%Z ->
  exists f g, get_lr a s = Ok f /\ get_lr a t = Ok g /\ g <= f.
Proof.
  intros Hn Hcf H0 Hst Ht.
  destruct (get_lr_value a s Hn ltac:(lia)) as (x & f & Hf & Hmx & Hx0 & Hx1 & Hcx).
  destruct (get_lr_value a t Hn ltac:(lia)) as (y & g & Hg & Hmy & Hy0 & Hy1 & Hcy).
  assert (HN : 0 < inject_Z (num_iterations a))
    by (change 0 with (inject_Z 0); now rewrite <- Zlt_Qlt).
  assert (HST : inject_Z s <= inject_Z t) by now rewrite <- Zle_Qle.
  exists f, g. split; [exact Hf|]. split; [exact Hg|].
  set (N := inject_Z (num_iterations a)) in *.
  set (cf := cooldown_frac a) in *.
  assert (Hxy : x <= y) by Lqa.nra.
  destruct Hcx as [[Hx ->]|(Hx & _ & Hfv)], Hcy as [[Hy ->]|(Hy & _ & Hgv)].
  - Lqa.lra.
  - Lqa.nra.
  - Lqa.lra.
  - Lqa.nra.
Qed.

Lemma get_lr_nonincreasing_witness :
  exists f g, get_lr args 1000 = Ok f /\ get_lr args 1700 = Ok g /\ g <= f.
Proof.
  apply (get_lr_nonincreasing args 1000 1700); cbn; [lia|reflexivity|lia..].
Defined.

(** X3: with a positive number of iterations, [get_lr] returns on the
    steps 0 .. num_iterations - 1, whatever the cooldown fraction, and
    fails its assertion on every other step: on a negative one and from
    step num_iterations on. *)
Theorem get_lr_domain (a : Hyperparameters) (step : Z) :
  (0 < num_iterations a)%Z ->
  ((0 <= step < num_iterations a)%Z -> exists f, get_lr a step = Ok f) /\
  ((step < 0)%Z \/ (num_iterations a <= step)%Z -> get_lr a step = Raise AssertionError).
Proof.
  intros Hn. split.
  - intros Hs. destruct (get_lr_value a step Hn Hs) as (x & f & Hf & _). now exists f.
  - intros Hs.
    destruct (truediv_ok step _ Hn) as (x & Hx & Hmul & HN).
    unfold get_lr. rewrite Hx. cbn [bind].
    destruct Hs as [Hs|Hs].
    + assert (inject_Z step < 0) by (change 0 with (inject_Z 0); now rewrite <- Zlt_Qlt).
      assert (E : Qle_bool 0 x = false) by (apply Qle_bool_false; Lqa.nra).
      now rewrite E.
    + assert (inject_Z (num_iterations a) <= inject_Z step) by now rewrite <- Zle_Qle.
      assert (E : Qlt_bool x 1 = false) by (apply Qlt_bool_false; Lqa.nra).
      rewrite E, andb_false_r. reflexivity.
Qed.

Lemma get_lr_domain_witness :
  ((0 <= 1770 < num_iterations args)%Z -> exists f, get_lr args 1770 = Ok f) /\
  ((1770 < 0)%Z \/ (num_iterations args <= 1770)%Z ->
   get_lr args 1770 = Raise AssertionError).
Proof.
  apply (get_lr_domain args 1770); cbn; lia.
Defined.


(** X4: the momentum set by the warmup of the training loop starts at 0.85
    on step 0, never decreases from a step to a later one, never exceeds
    0.95 and equals 0.95 from step 300 on. *)
Theorem momentum_warmup_range (s t : Z) :
  (0 <= s)%Z -> (s <= t)%Z ->
  0.85 <= momentum_warmup s /\ momentum_warmup s <= momentum_warmup t /\
  momentum_warmup t <= 0.95 /\
  (s = 0%Z -> momentum_warmup s == 0.85) /\
  ((300 <= t)%Z -> momentum_warmup t == 0.95).
Proof.
  intros H0 Hst.
  assert (HS : 0 <= inject_Z s) by (change 0 with (inject_Z 0); now rewrite <- Zle_Qle).
  assert (HST : inject_Z s <= inject_Z t) by now rewrite <- Zle_Qle.
  assert (H300 : (300 <= t)%Z -> 300 <= inject_Z t)
    by (intros H; change 300 with (inject_Z 300); now rewrite <- Zle_Qle).
  assert (Hz : s = 0%Z -> inject_Z s == 0) by now intros ->.
  unfold momentum_warmup, min.
  set (fs := inject_Z s / 300). set (ft := inject_Z t / 300).
  assert (Hfs : fs * 300 == inject_Z s) by (unfold fs; field).
  assert (Hft : ft * 300 == inject_Z t) by (unfold ft; field).
  clearbody fs ft.
  destruct (Qlt_bool 1 fs) eqn:Es; destruct (Qlt_bool 1 ft) eqn:Et;
    try apply Qlt_bool_iff in Es; try apply Qlt_bool_iff in Et;
    try apply Qlt_bool_false in Es; try apply Qlt_bool_false in Et;
    (split; [|split; [|split; [|split; [intros H%Hz|intros H%H300]]]]);
    Lqa.lra.
Qed.

Lemma momentum_warmup_range_witness :
  0.85 <= momentum_warmup 0 /\ momentum_warmup 0 <= momentum_warmup 450 /\
  momentum_warmup 450 <= 0.95 /\
  (0%Z = 0%Z -> momentum_warmup 0 == 0.85) /\
  ((300 <= 450)%Z -> momentum_warmup 450 == 0.95).
Proof.
  apply (momentum_warmup_range 0 450); lia.
Defined.

Lemma find_first {A : Type} (p : A -> bool) (l : list A) (x : A) :
  List.find p l = Some x ->
  exists l1 l2, l = l1 ++ x :: l2 /\ p x = true /\ List.Forall (fun y => p y = false) l1.
Proof.
  induction l as [|a l IH]; [discriminate|]. cbn.
  destruct (p a) eqn:E.
  - intros [= ->]. exists [], l. repeat split; [exact E|constructor].
  - intros H. destruct (IH H) as (l1 & l2 & -> & Hx & Hl1).
    exists (a :: l1), l2. repeat split; [exact Hx|now constructor].
Qed.

(** [int] truncates: above -1 it is the floor of a non-negative number or
    zero. *)
Lemma int_above (v : Q) : -1 < v -> (0 <= int v)%Z /\ v < inject_Z (int v) + 1.
Proof.
  destruct v as [p q]. unfold int, Qlt, Qplus, inject_Z. cbn.
  intros H.
  destruct (Z_lt_le_dec p 0) as [Hneg|Hpos].
  - assert (E : (p ÷ Z.pos q = 0)%Z).
    { replace p with (- (- p))%Z by lia. rewrite Z.quot_opp_l by lia.
      rewrite Z.quot_small by lia. reflexivity. }
    rewrite E. lia.
  - rewrite Z.quot_div_nonneg by lia.
    pose proof (Z.div_pos p (Z.pos q) Hpos ltac:(lia)).
    pose proof (Z.mul_succ_div_gt p (Z.pos q) ltac:(lia)).
    split; [assumption|]. nia.
Qed.

Lemma int_below (v : Q) : v <= -1 -> (int v <= -1)%Z.
Proof.
  destruct v as [p q]. unfold int, Qle. cbn. intros H.
  replace (-1)%Z with ((- Z.pos q) ÷ Z.pos q)%Z.
  - apply Z.quot_le_mono; lia.
  - rewrite Z.quot_opp_l by lia. rewrite Z.quot_same by lia. reflexivity.
Qed.

(** The candidates of [next_multiple_of_n]: n, 2n, ..., up to the last
    multiple that does not exceed int(v) + n. *)
Lemma range_multiples (v : Q) (n : Z) :
  (0 < n)%Z -> (0 <= int v)%Z ->
  range n (int v + 1 + n) n
  = Ok (map (fun i => (n + Z.of_nat i * n)%Z) (seq 0 (Z.to_nat (int v / n + 1)))).
Proof.
  intros Hn Hv. unfold range, range_len.
  destruct (Z.eqb_spec n 0) as [->|_]; [lia|].
  destruct (Z.ltb_spec 0 n) as [_|?]; [|lia].
  destruct (Z.ltb_spec n (int v + 1 + n)) as [_|?]; [|lia].
  now replace (int v + 1 + n - n - 1)%Z with (int v) by lia.
Qed.

(** The least multiple of n, from n on, that is not below v. *)
Lemma least_multiple (v : Q) (n : Z) :
  (0 < n)%Z -> -1 < v ->
  exists k : Z,
    next_multiple_of_n v n = inr (k * n)%Z /\ (1 <= k)%Z /\ v <= inject_Z (k * n) /\
    forall j : Z, (1 <= j)%Z -> v <= inject_Z (j * n) -> (k <= j)%Z.
Proof.
  intros Hn Hv. destruct (int_above v Hv) as [Hi Hlt].
  unfold next_multiple_of_n. rewrite range_multiples by assumption.
  set (p := fun x : Z => Qle_bool v (inject_Z x)).
  set (L := Z.to_nat (int v / n + 1)).
  set (xs := map (fun i => (n + Z.of_nat i * n)%Z) (seq 0 L)).
  pose proof (Z.div_pos (int v) n Hi Hn) as Hq.
  assert (Hlast : p (n + Z.of_nat (L - 1) * n)%Z = true).
  { apply Qle_bool_iff. apply Qlt_le_weak. eapply Qlt_le_trans; [exact Hlt|].
    change 1 with (inject_Z 1). rewrite <- inject_Z_plus, <- Zle_Qle.
    pose proof (Z.mul_succ_div_gt (int v) n Hn).
    unfold L. rewrite Nat2Z.inj_sub by lia. rewrite Z2Nat.id by lia. nia. }
  destruct (List.find p xs) as [m|] eqn:Ef.
  - destruct (find_first _ _ _ Ef) as (l1 & l2 & Hxs & Hm & Hl1).
    assert (Hnth : forall i, (i < L)%nat -> nth i xs 0%Z = (n + Z.of_nat i * n)%Z).
    { intros i Hi'. unfold xs. now rewrite nth_map_seq. }
    assert (Hlen : length xs = L) by (unfold xs; now rewrite length_map, length_seq).
    assert (Hi1 : (length l1 < L)%nat).
    { rewrite <- Hlen, Hxs, length_app. cbn. lia. }
    assert (Hmv : m = (n + Z.of_nat (length l1) * n)%Z).
    { rewrite <- Hnth by assumption. rewrite Hxs, app_nth2 by lia.
      now rewrite Nat.sub_diag. }
    exists (Z.of_nat (length l1) + 1)%Z.
    split; [f_equal; lia|]. split; [lia|]. split.
    + apply Qle_bool_iff in Hm. unfold p in Hm.
      now replace ((Z.of_nat (length l1) + 1) * n)%Z with m by lia.
    + intros j Hj Hvj.
      destruct (Z_lt_le_dec j (Z.of_nat (length l1) + 1)) as [Hlt'|]; [exfalso|assumption].
      assert (Hjn : (Z.to_nat (j - 1) < length l1)%nat) by lia.
      rewrite List.Forall_forall in Hl1.
      specialize (Hl1 (nth (Z.to_nat (j - 1)) l1 0%Z) (nth_In _ _ Hjn)).
      assert (Hel : nth (Z.to_nat (j - 1)) l1 0%Z = (j * n)%Z).
      { rewrite <- (app_nth1 l1 (m :: l2)) by assumption. rewrite <- Hxs.
        rewrite Hnth by lia. rewrite Z2Nat.id by lia. lia. }
      rewrite Hel in Hl1. unfold p in Hl1. apply Qle_bool_iff in Hvj. congruence.
  - exfalso. rewrite (find_none _ _ Ef (n + Z.of_nat (L - 1) * n)%Z) in Hlast; [discriminate|].
    unfold xs. apply in_map_iff. exists (L - 1)%nat. split; [reflexivity|].
    apply in_seq. unfold L. lia.
Qed.

(** X5: for a positive n and a value v above -1, [next_multiple_of_n]
    returns the least of the multiples n, 2n, 3n, ... that is not below v:
    never 0, and v itself when v is one of these multiples. *)
Theorem next_multiple_of_n_least (v : Q) (n : Z) :
  (0 < n)%Z -> -1 < v ->
  exists k : Z,
    next_multiple_of_n v n = inr (k * n)%Z /\ (1 <= k)%Z /\ v <= inject_Z (k * n) /\
    forall j : Z, (1 <= j)%Z -> v <= inject_Z (j * n) -> (k <= j)%Z.
Proof. exact (least_multiple v n). Qed.

Lemma next_multiple_of_n_least_witness :
  exists k : Z,
    next_multiple_of_n 128.5 128 = inr (k * 128)%Z /\ (1 <= k)%Z /\
    128.5 <= inject_Z (k * 128) /\
    forall j : Z, (1 <= j)%Z -> 128.5 <= inject_Z (j * 128) -> (k <= j)%Z.
Proof.
  apply (next_multiple_of_n_least 128.5 128); [lia|reflexivity].
Defined.

(** X6: for a positive n, [next_multiple_of_n] raises a StopIteration on
    every v <= -1: its range is empty there. *)
Theorem next_multiple_of_n_stops (v : Q) (n : Z) :
  (0 < n)%Z -> v <= -1 -> next_multiple_of_n v n = inl StopIteration.
Proof.
  intros Hn Hv. apply int_below in Hv.
  unfold next_multiple_of_n, range, range_len.
  destruct (Z.eqb_spec n 0) as [->|_]; [lia|].
  destruct (Z.ltb_spec 0 n) as [_|?]; [|lia].
  destruct (Z.ltb_spec n (int v + 1 + n)) as [?|_]; [lia|].
  reflexivity.
Qed.

Lemma next_multiple_of_n_stops_witness :
  next_multiple_of_n (-3) 128 = inl StopIteration.
Proof.
  apply (next_multiple_of_n_stops (-3) 128); [lia|].
  unfold Qle. cbn. lia.
Defined.

(** The window of a step inside the run, as a count of 128-token blocks. *)
Lemma window_value (a : Hyperparameters) (step : Z) :
  (0 < num_iterations a)%Z -> (0 <= step <= num_iterations a)%Z ->
  exists (x : Q) (k : Z),
    get_window_size_blocks a step = inr k /\
    x * inject_Z (num_iterations a) == inject_Z step /\
    (1 <= k)%Z /\ 1728 * x <= inject_Z (k * 128) /\
    forall j : Z, (1 <= j)%Z -> 1728 * x <= inject_Z (j * 128) -> (k <= j)%Z.
Proof.
  intros Hn [H0 H1].
  destruct (truediv_ok step _ Hn) as (x & Hx & Hmul & HN).
  assert (HS0 : 0 <= inject_Z step) by (change 0 with (inject_Z 0); now rewrite <- Zle_Qle).
  assert (HS1 : inject_Z step <= inject_Z (num_iterations a)) by now rewrite <- Zle_Qle.
  assert (Hx0 : 0 <= x) by Lqa.nra.
  assert (Hx1 : x <= 1) by Lqa.nra.
  destruct (least_multiple (1728 * x) 128 ltac:(lia) ltac:(Lqa.lra))
    as (k & Hk & Hk1 & Hkv & Hmin).
  exists x, k. unfold get_window_size_blocks. rewrite Hx.
  assert (E0 : Qle_bool 0 x = true) by now apply Qle_bool_iff.
  assert (E1 : Qle_bool x 1 = true) by now apply Qle_bool_iff.
  rewrite E0, E1, Hk. cbn [andb].
  split; [f_equal; now apply Z.div_mul|].
  repeat split; assumption.
Qed.

(** X7: with a positive number of iterations, [get_window_size_blocks]
    returns on every step from 0 to num_iterations (included) a count of
    blocks between 1 and 14 that never decreases from a step to a later
    one; it is 1 on step 0 and 14 on step num_iterations. *)
Theorem get_window_size_blocks_range (a : Hyperparameters) (s t : Z) :
  (0 < num_iterations a)%Z -> (0 <= s)%Z -> (s <= t)%Z -> (t <= num_iterations a)%Z ->
  exists k l : Z,
    get_window_size_blocks a s = inr k /\ get_window_size_blocks a t = inr l /\
    (1 <= k)%Z /\ (k <= l)%Z /\ (l <= 14)%Z /\
    (s = 0%Z -> k = 1%Z) /\ (t = num_iterations a -> l = 14%Z).
Proof.
  intros Hn H0 Hst Ht.
  destruct (window_value a s Hn ltac:(lia)) as (x & k & Hk & Hmx & Hk1 & Hkv & Hkmin).
  destruct (window_value a t Hn ltac:(lia)) as (y & l & Hl & Hmy & Hl1 & Hlv & Hlmin).
  assert (HN : 0 < inject_Z (num_iterations a))
    by (change 0 with (inject_Z 0); now rewrite <- Zlt_Qlt).
  assert (HS0 : 0 <= inject_Z s) by (change 0 with (inject_Z 0); now rewrite <- Zle_Qle).
  assert (HST : inject_Z s <= inject_Z t) by now rewrite <- Zle_Qle.
  assert (HT : inject_Z t <= inject_Z (num_iterations a)) by now rewrite <- Zle_Qle.
  assert (Hxy : x <= y) by Lqa.nra.
  assert (Hy1 : y <= 1) by Lqa.nra.
  exists k, l. split; [exact Hk|]. split; [exact Hl|]. split; [exact Hk1|].
  assert (H14 : (l <= 14)%Z).
  { apply Hlmin; [lia|]. change (inject_Z (14 * 128)) with 1792. Lqa.lra. }
  repeat split.
  - apply Hkmin; [lia|]. Lqa.lra.
  - exact H14.
  - intros ->. assert (Hx0 : x == 0) by (change (inject_Z 0) with 0 in Hmx; Lqa.nra).
    assert ((k <= 1)%Z); [|lia].
    apply Hkmin; [lia|]. change (inject_Z (1 * 128)) with 128. Lqa.lra.
  - intros ->. assert (y == 1) by Lqa.nra.
    destruct (Z_lt_le_dec l 14) as [Hlt|]; [exfalso|lia].
    assert (Hl13 : inject_Z (l * 128) <= inject_Z (13 * 128)) by (rewrite <- Zle_Qle; lia).
    change (inject_Z (13 * 128)) with 1664 in Hl13. Lqa.lra.
Qed.

Lemma get_window_size_blocks_range_witness :
  exists k l : Z,
    get_window_size_blocks args 0 = inr k /\ get_window_size_blocks args 1770 = inr l /\
    (1 <= k)%Z /\ (k <= l)%Z /\ (l <= 14)%Z /\
    (0%Z = 0%Z -> k = 1%Z) /\ (1770%Z = num_iterations args -> l = 14%Z).
Proof.
  apply (get_window_size_blocks_range args 0 1770); cbn; lia.
Defined.

(** Outside the run the assertion of [get_window_size_blocks] fails. *)
Lemma get_window_size_blocks_domain (a : Hyperparameters) (step : Z) :
  (0 < num_iterations a)%Z -> (step < 0)%Z \/ (num_iterations a < step)%Z ->
  get_window_size_blocks a step = inl (Builtin AssertionError).
Proof.
  intros Hn Hs.
  destruct (truediv_ok step _ Hn) as (x & Hx & Hmul & HN).
  unfold get_window_size_blocks. rewrite Hx.
  destruct Hs as [Hs|Hs].
  - assert (inject_Z step < 0) by (change 0 with (inject_Z 0); now rewrite <- Zlt_Qlt).
    assert (E : Qle_bool 0 x = false) by (apply Qle_bool_false; Lqa.nra).
    now rewrite E.
  - assert (inject_Z (num_iterations a) < inject_Z step) by now rewrite <- Zlt_Qlt.
    assert (E : Qle_bool x 1 = false) by (apply Qle_bool_false; Lqa.nra).
    now rewrite E, andb_false_r.
Qed.

End ScheduleValues.

(** ** Batches of the data loader *)

Section DataLoaderFacts.
Import DataLoader.
Local Open Scope nat_scope.

Lemma removelast_take {A : Type} (n : nat) (X : list A) :
  removelast (take (S n) X) = take (Nat.min n (length X - 1)) X.
Proof.
  revert n. induction X as [|x X IH]; intros n; [now rewrite !firstn_nil|].
  cbn [length]. replace (S (length X) - 1) with (length X) by lia.
  change (take (S n) (x :: X)) with (x :: take n X).
  destruct n as [|n]; [reflexivity|].
  destruct X as [|y X]; [reflexivity|].
  change (removelast (x :: take (S n) (y :: X)))
    with (x :: removelast (take (S n) (y :: X))).
  rewrite IH. cbn [length].
  replace (S (length X) - 1) with (length X) by lia.
  replace (Nat.min (S n) (S (length X))) with (S (Nat.min n (length X))) by lia.
  reflexivity.
Qed.

Lemma tl_take {A : Type} (n : nat) (X : list A) : tl (take (S n) X) = take n (tl X).
Proof. destruct X; [cbn; now rewrite firstn_nil|reflexivity]. Qed.

Lemma tl_drop {A : Type} (a : nat) (T : list A) : tl (drop a T) = drop (S a) T.
Proof.
  revert T. induction a as [|a IH]; intros [|t T]; try reflexivity.
  cbn. now rewrite IH.
Qed.

(** What one pass hands out, from the shard and the position it used. *)
Lemma produce_window (s : settings) (l l' : loader) (inputs targets : list Z) :
  produce s l = Ok ((inputs, targets), l') ->
  let a := pos l' - batch_size s + rank s * local_batch_size l' in
  let X := drop a (tokens l') in
  inputs = take (Nat.min (local_batch_size l') (length X - 1)) X /\
  targets = take (local_batch_size l') (tl X).
Proof.
  unfold produce. intros H.
  destruct (if length (tokens l) <=? pos l + batch_size s + 1
            then let* (t, it) := next_shard (file_iter l) in
                 Ok (mkLoader (local_batch_size l) it t 0)
            else Ok l) as [l1|e] eqn:E; [|discriminate].
  cbn [bind] in H. injection H as <- <- <-. cbn [pos tokens local_batch_size].
  replace (pos l1 + batch_size s - batch_size s) with (pos l1) by lia.
  rewrite Nat.add_1_r. split.
  - apply removelast_take.
  - apply tl_take.
Qed.

(** X8: whenever a pass of the generator yields, inputs and targets have
    one length, at most local_batch_size, and are two windows of the
    current shard one token apart: every target is the token that follows
    its input in the shard. *)
Theorem targets_follow_inputs (s : settings) (l l' : loader) (inputs targets : list Z) :
  produce s l = Ok ((inputs, targets), l') ->
  let a := pos l' - batch_size s + rank s * local_batch_size l' in
  length targets = length inputs /\
  length inputs <= local_batch_size l' /\
  inputs = take (length inputs) (drop a (tokens l')) /\
  targets = take (length inputs) (drop (S a) (tokens l')).
Proof.
  intros H a. destruct (produce_window s l l' inputs targets H) as [Hi Ht].
  fold a in Hi, Ht. rewrite tl_drop in Ht.
  set (X := drop a (tokens l')) in *.
  assert (HX : length (drop (S a) (tokens l')) = length X - 1).
  { unfold X. rewrite !length_drop. lia. }
  assert (Hli : length inputs = Nat.min (local_batch_size l') (length X - 1)).
  { rewrite Hi at 1. rewrite length_take. lia. }
  assert (Hlt : length targets = Nat.min (local_batch_size l') (length X - 1)).
  { rewrite Ht at 1. rewrite length_take. lia. }
  split; [lia|]. split; [lia|]. split.
  - rewrite Hli. exact Hi.
  - rewrite Hli. rewrite Ht at 1.
    destruct (Nat.le_ge_cases (local_batch_size l') (length X - 1)) as [Hle|Hge].
    + now rewrite Nat.min_l.
    + rewrite Nat.min_r by assumption. rewrite <- HX.
      now rewrite firstn_all, firstn_all2 by lia.
Qed.


(** The windows of the ranks, laid end to end. *)
Lemma windows_concat {A : Type} (n W p : nat) (T : list A) :
  concat (map (fun r => take n (drop (p + r * n) T)) (seq 0 W)) = take (W * n) (drop p T).
Proof.
  revert p. induction W as [|W IH]; intros p; [reflexivity|].
  cbn [seq map concat]. rewrite <- seq_shift, map_map.
  rewrite Nat.add_0_r.
  replace (S W * n) with (n + W * n) by lia.
  rewrite <- take_take_drop, drop_drop. f_equal.
  rewrite <- IH. f_equal. apply map_ext. intros r. do 2 f_equal. lia.
Qed.

(** One pass inside a shard: the window of the rank, in full. *)
Lemma produce_inside (s : settings) (l : loader) :
  pos l + batch_size s + 1 < length (tokens l) ->
  rank s * local_batch_size l + local_batch_size l <= batch_size s ->
  let n := local_batch_size l in
  let a := pos l + rank s * n in
  produce s l
  = Ok ((take n (drop a (tokens l)), take n (drop (S a) (tokens l))),
        mkLoader n (file_iter l) (tokens l) (pos l + batch_size s)) /\
  length (take n (drop a (tokens l))) = n /\
  length (take n (drop (S a) (tokens l))) = n.
Proof.
  intros Hin Hr n a. unfold produce.
  destruct (Nat.leb_spec (length (tokens l)) (pos l + batch_size s + 1)) as [?|_]; [lia|].
  cbn [bind]. fold n a. rewrite Nat.add_1_r, removelast_take, tl_take, tl_drop.
  rewrite !length_take, !length_drop.
  replace (Nat.min n (length (tokens l) - a - 1)) with n by lia.
  split; [reflexivity|]. lia.
Qed.

(** X9: when the position passes the length test of the loop, every rank
    below world_size yields a full window of local_batch_size inputs and as
    many targets and moves to the same next position, and the input windows
    of the ranks 0 .. world_size - 1, laid end to end, are the batch_size
    tokens of the shard from the position on: no token twice, none left
    out. *)
Theorem ranks_tile_batch (B W : nat) (l : loader) :
  local_batch_size l * W = B -> pos l + B + 1 < length (tokens l) ->
  let n := local_batch_size l in
  let window := fun r => take n (drop (pos l + r * n) (tokens l)) in
  (forall r, r < W ->
     exists targets,
       produce (mkSettings B r W) l
       = Ok ((window r, targets), mkLoader n (file_iter l) (tokens l) (pos l + B)) /\
       length (window r) = n /\ length targets = n) /\
  concat (map window (seq 0 W)) = take B (drop (pos l) (tokens l)).
Proof.
  intros HB Hin n window. split.
  - intros r Hr.
    destruct (produce_inside (mkSettings B r W) l) as (Hp & Hl1 & Hl2); cbn; [lia|nia|].
    eexists. split; [exact Hp|]. split; assumption.
  - unfold window. rewrite windows_concat. f_equal. lia.
Qed.

Lemma start_ok (s : settings) (f : file) (fs : list file) (T : list Z) :
  0 < world_size s -> batch_size s mod world_size s = 0 ->
  _load_data_shard f = Ok T ->
  start s (f :: fs) = Ok (mkLoader (batch_size s / world_size s) fs T 0).
Proof.
  intros HW Hdiv HT. unfold start, next_shard.
  destruct (Nat.eqb_spec (world_size s) 0) as [?|_]; [lia|].
  rewrite Hdiv, HT. reflexivity.
Qed.

Lemma batches_inside (s : settings) (m : nat) :
  forall l,
    rank s * local_batch_size l + local_batch_size l <= batch_size s ->
    pos l + m * batch_size s + 1 < length (tokens l) ->
    let n := local_batch_size l in
    batches s m (Suspended l)
    = Ok (map (fun k => (take n (drop (pos l + k * batch_size s + rank s * n) (tokens l)),
                         take n (drop (S (pos l + k * batch_size s + rank s * n)) (tokens l))))
              (seq 0 m),
          Suspended (mkLoader n (file_iter l) (tokens l) (pos l + m * batch_size s))).
Proof.
  induction m as [|m IH]; intros l Hr Hin n.
  - destruct l. cbn in *. clear. now rewrite Nat.add_0_r.
  - cbn [batches next bind].
    rewrite Nat.mul_succ_l in Hin.
    destruct (produce_inside s l) as (Hp & _); [lia|exact Hr|].
    rewrite Hp. cbn [bind].
    rewrite IH by (cbn [pos tokens local_batch_size]; lia).
    cbn [bind pos tokens local_batch_size file_iter seq map].
    rewrite <- seq_shift, map_map, Nat.add_0_r. fold n.
    do 2 f_equal.
    + f_equal. apply map_ext. intros k.
      now replace (pos l + batch_size s + k * batch_size s) with (pos l + S k * batch_size s) by lia.
    + do 2 f_equal. lia.
Qed.

Lemma batches_unstarted (s : settings) (m : nat) (files : list file) :
  batches s (S m) (Unstarted files)
  = let* l := start s files in batches s (S m) (Suspended l).
Proof.
  cbn [batches]. unfold next at 1. destruct (start s files) as [l|e]; reflexivity.
Qed.

(** X10: started on files whose first one loads, the generator yields as
    its first m batches the windows of that shard at the offsets 0,
    batch_size, 2 * batch_size, ..., as long as m * batch_size + 1 stays
    below the number of tokens of the shard. *)
Theorem batches_within_first_shard (s : settings) (f : file) (fs : list file)
    (T : list Z) (m : nat) :
  0 < world_size s -> batch_size s mod world_size s = 0 -> rank s < world_size s ->
  _load_data_shard f = Ok T -> 0 < m -> m * batch_size s + 1 < length T ->
  let n := batch_size s / world_size s in
  let a := fun k => k * batch_size s + rank s * n in
  batches s m (Unstarted (f :: fs))
  = Ok (map (fun k => (take n (drop (a k) T), take n (drop (S (a k)) T))) (seq 0 m),
        Suspended (mkLoader n fs T (m * batch_size s))).
Proof.
  intros HW Hdiv Hr HT Hm Hlen n a.
  destruct m as [|m]; [lia|].
  rewrite batches_unstarted, (start_ok s f fs T HW Hdiv HT). cbn [bind].
  assert (HB : batch_size s = world_size s * n).
  { unfold n. apply Nat.Div0.div_exact. exact Hdiv. }
  rewrite batches_inside; cbn [pos tokens local_batch_size file_iter]; fold n; [reflexivity|nia|lia].
Qed.

Lemma batches_run_out (s : settings) (m : nat) :
  forall l,
    file_iter l = [] -> 0 < m -> length (tokens l) <= pos l + m * batch_size s + 1 ->
    batches s m (Suspended l) = Raise RuntimeError.
Proof.
  induction m as [|m IH]; intros l Hfi Hm Hlen; [lia|].
  cbn [batches next bind]. unfold produce.
  destruct (Nat.leb_spec (length (tokens l)) (pos l + batch_size s + 1)) as [Hle|Hgt].
  - now rewrite Hfi.
  - cbn [bind]. rewrite IH; [reflexivity|exact Hfi|nia|cbn [pos tokens]; lia].
Qed.

(** X11: the generator ends with a RuntimeError when it needs a file and
    none is left: at once when no file matches, and on a single shard of n
    tokens within the first m calls as soon as n <= m * batch_size + 1, also
    when exactly the batch_size + 1 tokens of one more batch remain. *)
Theorem batches_exhausted (s : settings) (f : file) (T : list Z) (m : nat) :
  0 < world_size s -> batch_size s mod world_size s = 0 -> 0 < m ->
  batches s m (Unstarted []) = Raise RuntimeError /\
  (_load_data_shard f = Ok T -> length T <= m * batch_size s + 1 ->
   batches s m (Unstarted [f]) = Raise RuntimeError).
Proof.
  intros HW Hdiv Hm. destruct m as [|m]; [lia|]. split.
  - rewrite batches_unstarted. unfold start.
    destruct (Nat.eqb_spec (world_size s) 0) as [?|_]; [lia|].
    now rewrite Hdiv.
  - intros HT Hlen.
    rewrite batches_unstarted, (start_ok s f [] T HW Hdiv HT). cbn [bind].
    apply batches_run_out; [reflexivity|lia|exact Hlen].
Qed.

Lemma load_shard (ts : list Z) : _load_data_shard (shard ts) = Ok ts.
Proof.
  unfold _load_data_shard, shard. cbn [header payload nth app length repeat].
  change (length _ <? 256) with false. cbn [Z.eqb Pos.eqb assert bind].
  destruct (Z.ltb_spec (Z.of_nat (length ts)) 0) as [?|_]; [lia|].
  rewrite Nat2Z.id, firstn_all, Nat.eqb_refl. reflexivity.
Qed.

Lemma targets_follow_inputs_witness :
  let s := mkSettings 4 1 2 in
  let l := mkLoader 2 [] [10; 11; 12; 13; 14; 15; 16; 17; 18; 19]%Z 0 in
  let l' := mkLoader 2 [] [10; 11; 12; 13; 14; 15; 16; 17; 18; 19]%Z 4 in
  let a := pos l' - batch_size s + rank s * local_batch_size l' in
  length [13; 14]%Z = length [12; 13]%Z /\
  length [12; 13]%Z <= local_batch_size l' /\
  [12; 13]%Z = take (length [12; 13]%Z) (drop a (tokens l')) /\
  [13; 14]%Z = take (length [12; 13]%Z) (drop (S a) (tokens l')).
Proof.
  intros s l l'.
  apply (targets_follow_inputs s l l' [12; 13]%Z [13; 14]%Z). reflexivity.
Defined.

Lemma ranks_tile_batch_witness :
  let l := mkLoader 2 [] [10; 11; 12; 13; 14; 15; 16; 17; 18; 19]%Z 4 in
  let n := local_batch_size l in
  let window := fun r => take n (drop (pos l + r * n) (tokens l)) in
  (forall r, r < 2 ->
     exists targets,
       produce (mkSettings 4 r 2) l
       = Ok ((window r, targets), mkLoader n (file_iter l) (tokens l) (pos l + 4)) /\
       length (window r) = n /\ length targets = n) /\
  concat (map window (seq 0 2)) = take 4 (drop (pos l) (tokens l)).
Proof.
  intros l. apply (ranks_tile_batch 4 2 l); cbn; lia.
Defined.

Lemma batches_within_first_shard_witness :
  let s := mkSettings 4 1 2 in
  let T := [10; 11; 12; 13; 14; 15; 16; 17; 18; 19]%Z in
  let n := batch_size s / world_size s in
  let a := fun k => k * batch_size s + rank s * n in
  batches s 2 (Unstarted [shard T])
  = Ok (map (fun k => (take n (drop (a k) T), take n (drop (S (a k)) T))) (seq 0 2),
        Suspended (mkLoader n [] T (2 * batch_size s))).
Proof.
  intros s T.
  apply (batches_within_first_shard s (shard T) [] T 2);
    cbn; try lia; try reflexivity.
Defined.

Lemma batches_exhausted_witness :
  let s := mkSettings 4 1 2 in
  let T := [10; 11; 12; 13; 14; 15; 16; 17; 18; 19; 20; 21; 22]%Z in
  batches s 3 (Unstarted []) = Raise RuntimeError /\
  (_load_data_shard (shard T) = Ok T -> length T <= 3 * batch_size s + 1 ->
   batches s 3 (Unstarted [shard T]) = Raise RuntimeError).
Proof.
  intros s T. apply (batches_exhausted s (shard T) T 3); cbn; lia.
Defined.

End DataLoaderFacts.

(** ** Steps of a well-formed group *)

Section GroupInvariant.
Import Tensor NewtonSchulz Update Muon Group.
Local Open Scope nat_scope.

(** The step on a well-formed group, with what it keeps. *)
Lemma step_group_core (c : config) (e : env) (size : nat) (st : state) :
  group_ok c e size st ->
  exists st',
    step_group c e st = Ok st' /\
    core_inv c (shp <$> params st) st' /\
    pending st' = [] /\
    trace st' = trace st ++ schedule c (length (params st)).
Proof.
  intros Hok.
  pose proof (ok_world c e size st Hok) as HW.
  pose proof (ok_rank c e size st Hok) as Hrank.
  pose proof (group_shapes c e size st Hok) as Hsh.
  assert (Hlen : length (shp <$> params st) = length (params st)) by apply length_fmap.
  pose proof (group_peer c e size st Hok) as Hpeer.
  unfold step_group.
  change (length (params (enter st))) with (length (params st)).
  rewrite range_step_ok by exact HW. cbn [bind].
  destruct (group_loop_prefix c e size st (shards (length (params st)) (world_size c)) Hok)
    as (st1 & Hrun & [Hcore Hfl Htr]).
  rewrite Hrun. cbn [bind].
  pose proof (shards_pos (length (params st)) (world_size c) HW
                (ok_nonempty c e size st Hok)) as Hn.
  destruct (shards (length (params st)) (world_size c)) as [|n'] eqn:En; [lia|].
  destruct (update_prev_inv c e size _ HW Hrank Hsh Hpeer n' st1 Hcore Hfl)
    as (st2 & Hrun2 & Hcore2 & _ & _ & _ & Hpe & Htr2).
  exists st2. split; [exact Hrun2|]. split; [exact Hcore2|]. split; [exact Hpe|].
  rewrite Htr2, Htr, Hlen. unfold schedule. rewrite En.
  replace (S n' - 1) with n' by lia. now rewrite app_assoc.
Qed.

(** X12: a step on a well-formed group returns a group with as many
    parameters as before, each of the shape it had, and this group is well
    formed again: a gradient and (where stored) a momentum buffer of the
    shape of each parameter, one buffer view per rank and no gather
    pending. *)
Theorem step_keeps_group_ok (c : config) (e : env) (size : nat) (st : state) :
  group_ok c e size st ->
  exists st',
    step_group c e st = Ok st' /\
    length (params st') = length (params st) /\
    shp <$> params st' = shp <$> params st /\
    group_ok c e size st'.
Proof.
  intros Hok.
  destruct (step_group_core c e size st Hok) as (st' & Hrun & Hcore & Hpe & _).
  exists st'. split; [exact Hrun|].
  pose proof (inv_shapes st' Hcore) as Hshp.
  assert (Hlen : length (params st') = length (params st)).
  { rewrite <- (length_fmap shp (params st')), Hshp. apply length_fmap. }
  split; [exact Hlen|]. split; [exact Hshp|].
  assert (Hlook : forall i p, params st' !! i = Some p ->
                              (shp <$> params st) !! i = Some (shp p)).
  { intros i p Hp. rewrite <- Hshp, list_lookup_fmap, Hp. reflexivity. }
  split.
  - apply (ok_world c e size st Hok).
  - apply (ok_rank c e size st Hok).
  - rewrite Hlen. apply (ok_nonempty c e size st Hok).
  - apply Forall_lookup. intros i p Hp.
    pose proof (Hlook i p Hp) as Hs. rewrite list_lookup_fmap in Hs.
    destruct (params st !! i) as [q|] eqn:Hq; [|discriminate].
    change (Some (shp q) = Some (shp p)) in Hs.
    assert (Hs' : shp q = shp p) by congruence.
    pose proof (proj1 (Forall_lookup _ _) (ok_shapes c e size st Hok) i q Hq) as (H1 & H2 & H3).
    unfold shp in Hs'. injection Hs' as Hr Hc. unfold mat_numel in *.
    rewrite <- Hr, <- Hc. repeat split; assumption.
  - intros i p Hp. apply (inv_grads st' Hcore i (shp p)). now apply Hlook.
  - intros i b p Hb Hp. apply (inv_mom st' Hcore i b (shp p) Hb). now apply Hlook.
  - apply (inv_buf st' Hcore).
  - intros b r Hbr. rewrite Hlen in Hbr. now apply (ok_peer c e size st Hok).
  - exact Hpe.
Qed.

Lemma step_keeps_group_ok_witness :
  exists st',
    step_group demo_config demo_env demo_state = Ok st' /\
    length (params st') = length (params demo_state) /\
    shp <$> params st' = shp <$> params demo_state /\
    group_ok demo_config demo_env 4 st'.
Proof.
  apply (step_keeps_group_ok demo_config demo_env 4 demo_state). exact demo_group_ok.
Defined.

(** *** Every parameter is updated once *)

Lemma updated_app (l1 l2 : list event) :
  updated_indices (l1 ++ l2) = updated_indices l1 ++ updated_indices l2.
Proof. apply flat_map_app. Qed.

Lemma updated_map_update (b : nat) (l : list nat) :
  updated_indices (map (EvUpdate b) l) = l.
Proof.
  induction l as [|i l IH]; [reflexivity|]. cbn. now rewrite <- IH at 2.
Qed.

Lemma updated_apply (c : config) (n b : nat) :
  updated_indices (apply_events c n b) = slice_idx b (b + world_size c) n.
Proof. unfold apply_events. cbn. apply updated_map_update. Qed.

Lemma updated_iteration (c : config) (n k : nat) :
  updated_indices (iteration_events c n k)
  = match k with
    | O => []
    | S k' => slice_idx (k' * world_size c) (k' * world_size c + world_size c) n
    end.
Proof.
  unfold iteration_events.
  change (?x :: ?l ++ ?r) with ([x] ++ l ++ r). rewrite !updated_app.
  assert (H0 : updated_indices [local_event c n (k * world_size c)] = []).
  { unfold local_event. now destruct (Nat.ltb _ _). }
  rewrite H0. cbn [app]. destruct k as [|k'].
  - reflexivity.
  - rewrite updated_apply. cbn. now rewrite app_nil_r.
Qed.

Lemma slice_extends (w n k : nat) :
  seq 0 (Nat.min (k * w) n) ++ slice_idx (k * w) (k * w + w) n
  = seq 0 (Nat.min (S k * w) n).
Proof.
  unfold slice_idx.
  destruct (Nat.le_gt_cases (k * w) n) as [Hle|Hgt].
  - rewrite (Nat.min_l (k * w) n) by exact Hle.
    replace (Nat.min (S k * w) n) with (k * w + (Nat.min (k * w + w) n - k * w)) by lia.
    now rewrite seq_app.
  - replace (Nat.min (k * w + w) n - k * w) with 0 by lia.
    rewrite app_nil_r. f_equal. lia.
Qed.

Lemma updated_pipeline (c : config) (n k : nat) :
  updated_indices (pipeline c n (S k)) = seq 0 (Nat.min (k * world_size c) n).
Proof.
  induction k as [|k IH].
  - unfold pipeline. cbn [seq flat_map]. rewrite app_nil_r.
    now rewrite updated_iteration.
  - unfold pipeline in *. rewrite seq_S, flat_map_app, updated_app, IH.
    cbn [flat_map Nat.add]. rewrite app_nil_r, updated_iteration.
    apply slice_extends.
Qed.

Lemma updated_schedule (c : config) (n : nat) :
  0 < world_size c -> 0 < n -> updated_indices (schedule c n) = seq 0 n.
Proof.
  intros HW Hn. unfold schedule.
  pose proof (shards_pos n (world_size c) HW Hn) as Hpos.
  destruct (shards_bounds n (world_size c) HW) as (_ & Hup & Hlow).
  destruct (shards n (world_size c)) as [|m] eqn:Em; [lia|].
  rewrite updated_app, updated_pipeline, updated_apply.
  replace (S m - 1) with m by lia.
  rewrite slice_extends. f_equal. lia.
Qed.

(** X13: a step on a well-formed group of N parameters returns, and the
    updates it applies are those of the parameters 0, 1, ..., N - 1 in this
    order: every parameter of the group is updated exactly once, on every
    device, whichever rank computed its update. *)
Theorem step_updates_each_parameter_once (c : config) (e : env) (size : nat) (st : state) :
  group_ok c e size st ->
  exists st',
    step_group c e st = Ok st' /\
    updated_indices (trace st')
    = updated_indices (trace st) ++ seq 0 (length (params st)).
Proof.
  intros Hok.
  destruct (step_group_core c e size st Hok) as (st' & Hrun & _ & _ & Htr).
  exists st'. split; [exact Hrun|].
  rewrite Htr, updated_app. f_equal.
  apply updated_schedule.
  - apply (ok_world c e size st Hok).
  - apply (ok_nonempty c e size st Hok).
Qed.

Lemma step_updates_each_parameter_once_witness :
  exists st',
    step_group demo_config demo_env demo_state = Ok st' /\
    updated_indices (trace st')
    = updated_indices (trace demo_state) ++ seq 0 (length (params demo_state)).
Proof.
  apply (step_updates_each_parameter_once demo_config demo_env 4 demo_state).
  exact demo_group_ok.
Defined.

End GroupInvariant.

(** ** Gradients that are missing *)

Section MissingGradient.
Import Tensor NewtonSchulz Update Muon Group.
Local Open Scope nat_scope.

Variables (c : config) (e : env) (idx0 : nat).

Local Abbreviation gm := (grad_missing idx0).

Lemma gm_clear (st : state) : gm (clear_grad idx0 st) st.
Proof. now split. Qed.

Lemma gm_update_one (base : nat) (s s' : state) (pg : nat * list R) :
  gm s s' -> rel_result gm (update_one c e base s pg) (update_one c e base s' pg).
Proof.
  intros H. destruct H as [Hp Hg Hm Hb Hh Hpw Hpe Hr Ht].
  unfold update_one. destruct pg as [idx g]. rewrite Hp, Hr.
  destruct (params s' !! idx) as [p|]; [|reflexivity].
  destruct (apply_update (lr c) (w_max c) (noise e (rng s')) p g) as [p'|x]; [|reflexivity].
  cbn. split; cbn; congruence.
Qed.

Lemma gm_update_loop (base : nat) (l : list (nat * list R)) :
  forall s s', gm s s' ->
    rel_result gm (foldM (update_one c e base) l s) (foldM (update_one c e base) l s').
Proof.
  induction l as [|pg l IH]; intros s s' H; cbn [foldM]; [exact H|].
  eapply rel_bind; [apply gm_update_one; exact H|].
  intros a b Hab. now apply IH.
Qed.

Lemma gm_update_prev (s s' : state) :
  gm s s' -> rel_result gm (update_prev c e s) (update_prev c e s').
Proof.
  intros H. pose proof H as [Hp Hg Hm Hb Hh Hpw Hpe Hr Ht].
  unfold update_prev. rewrite Hh.
  destruct (handle s') as [h|] eqn:Eh; [|reflexivity].
  cbn [wait params_world update_buffer]. rewrite Hpw.
  destruct (params_world s') as [pw|] eqn:Epw; [|reflexivity].
  apply gm_update_loop.
  split; cbn [wait params grads momentum_buffer update_buffer handle params_world
              pending rng trace]; congruence.
Qed.

Lemma gm_local_update (b : nat) (s s' : state) :
  b + rank c <> idx0 -> gm s s' ->
  rel_result (fun r r' : state * tensor_ref => gm r.1 r'.1 /\ r.2 = r'.2)
    (local_update c s b) (local_update c s' b).
Proof.
  intros Hne H. pose proof H as [Hp Hg Hm Hb Hh Hpw Hpe Hr Ht].
  unfold local_update. rewrite Hp, Hg, Hm, Hb.
  rewrite list_lookup_insert_ne by congruence.
  destruct (Nat.ltb (b + rank c) (length (params s'))).
  - destruct (grads s' !! (b + rank c)) as [[g|]|]; try reflexivity.
    destruct (momentum_update (momentum c) (nesterov c)
                (momentum_buffer s' !! (b + rank c)) g) as [[[buf g'] upd]|x];
      [|reflexivity].
    cbn [bind]. destruct (orthogonalize upd) as [o|x]; [|reflexivity].
    cbn. split; [|reflexivity]. split; cbn; try congruence.
    apply list_insert_insert_ne. congruence.
  - destruct (update_buffer s' !! rank c); [|reflexivity].
    cbn. split; [|reflexivity]. split; cbn; congruence.
Qed.

Lemma gm_step_body (b : nat) (s s' : state) :
  b + rank c <> idx0 -> gm s s' ->
  rel_result gm (step_body c e s b) (step_body c e s' b).
Proof.
  intros Hne H. unfold step_body.
  eapply rel_bind; [apply gm_local_update; [exact Hne|exact H]|].
  intros [s1 g1] [s1' g1'] [H1 Hg1]. cbn [fst snd] in H1, Hg1. subst g1'.
  eapply rel_bind with (P := gm).
  - destruct (Nat.ltb 0 b); [now apply gm_update_prev|exact H1].
  - intros s2 s2' H2. pose proof H2 as [Hp Hg Hm Hb Hh Hpw Hpe Hr Ht].
    assert (Hd : deref s2 g1 = deref s2' g1).
    { unfold deref. now rewrite Hb. }
    rewrite Hd. destruct (deref s2' g1) as [v|x]; [|reflexivity].
    cbn. split; cbn; congruence.
Qed.

Lemma gm_loop (l : list nat) :
  (forall b, In b l -> b + rank c <> idx0) ->
  forall s s', gm s s' ->
    rel_result gm (foldM (step_body c e) l s) (foldM (step_body c e) l s').
Proof.
  induction l as [|b l IH]; intros Hl s s' H; cbn [foldM]; [exact H|].
  eapply rel_bind; [apply gm_step_body; [apply Hl; now left|exact H]|].
  intros a a' Ha. apply IH; [|exact Ha]. intros b' Hb'. apply Hl. now right.
Qed.

Lemma gm_enter (s s' : state) : gm s s' -> gm (enter s) (enter s').
Proof. intros [Hp Hg Hm Hb Hh Hpw Hpe Hr Ht]. split; cbn; congruence. Qed.

Lemma foldM_app {A S : Type} (f : S -> A -> result S) (l1 l2 : list A) (s : S) :
  foldM f (l1 ++ l2) s = let* s1 := foldM f l1 s in foldM f l2 s1.
Proof.
  revert s. induction l1 as [|a l1 IH]; intros s; [reflexivity|].
  cbn [app foldM]. destruct (f s a) as [s'|x]; [|reflexivity]. cbn [bind]. apply IH.
Qed.

(** X14: on a well-formed group, a parameter that another rank computes
    may have no gradient on this device: the step returns all the same, with
    the parameters and momentum buffers it returns when the gradient is
    there. *)
Theorem foreign_gradient_unread (size : nat) (st : state) :
  group_ok c e size st -> idx0 mod world_size c <> rank c ->
  exists st1 st2,
    step_group c e (clear_grad idx0 st) = Ok st1 /\
    step_group c e st = Ok st2 /\
    params st1 = params st2 /\ momentum_buffer st1 = momentum_buffer st2.
Proof.
  intros Hok Hne.
  pose proof (ok_world c e size st Hok) as HW.
  destruct (step_group_ok c e size st Hok) as (st2 & Hrun2 & _).
  assert (Hrel : rel_result gm (step_group c e (clear_grad idx0 st)) (step_group c e st)).
  { unfold step_group.
    change (length (params (enter (clear_grad idx0 st)))) with (length (params st)).
    change (length (params (enter st))) with (length (params st)).
    rewrite range_step_ok by exact HW. cbn [bind].
    eapply rel_bind with (P := gm).
    - apply gm_loop; [|apply gm_enter, gm_clear].
      intros b Hb Heq. apply in_bases in Hb as [_ Hb]; [|exact HW].
      apply Hne. rewrite <- Heq.
      rewrite Nat.Div0.add_mod, Hb, Nat.add_0_l, Nat.Div0.mod_mod.
      apply Nat.mod_small. apply (ok_rank c e size st Hok).
    - intros a a' Ha. now apply gm_update_prev. }
  rewrite Hrun2 in Hrel.
  destruct (step_group c e (clear_grad idx0 st)) as [st1|x]; [|contradiction].
  exists st1, st2. cbn in Hrel. destruct Hrel as [Hp _ Hm _ _ _ _ _ _].
  repeat split; assumption.
Qed.

(** X15: on a group that is well formed but for the gradient of one
    parameter that this rank computes, the step raises an AssertionError. *)
Theorem missing_gradient_raises (size : nat) (st : state) :
  group_ok c e size st ->
  idx0 < length (params st) -> idx0 mod world_size c = rank c ->
  step_group c e (clear_grad idx0 st) = Raise AssertionError.
Proof.
  intros Hok Hidx Hmod.
  pose proof (ok_world c e size st Hok) as HW.
  set (W := world_size c) in *. set (N := length (params st)) in *.
  set (k0 := idx0 / W).
  assert (Hk0 : idx0 = k0 * W + rank c).
  { unfold k0. rewrite <- Hmod. rewrite (Nat.div_mod_eq idx0 W) at 1. lia. }
  destruct (shards_bounds N W HW) as (_ & Hup & _).
  assert (Hlt : k0 < shards N W) by nia.
  unfold step_group.
  change (length (params (enter (clear_grad idx0 st)))) with N.
  fold W. rewrite range_step_ok by exact HW. cbn [bind].
  replace (shards N W) with (k0 + S (shards N W - S k0)) by lia.
  rewrite seq_app, map_app, foldM_app. cbn [Nat.add seq map].
  destruct (group_loop_prefix c e size st k0 Hok) as (s' & Hrun' & [Hcore _ _]).
  assert (Hrel : rel_result gm
            (foldM (step_body c e) (map (fun i => i * W) (seq 0 k0))
                   (enter (clear_grad idx0 st)))
            (foldM (step_body c e) (map (fun i => i * W) (seq 0 k0)) (enter st))).
  { apply gm_loop; [|apply gm_enter, gm_clear].
    intros b Hb Heq. apply in_map_iff in Hb as (k & <- & Hk).
    apply in_seq in Hk. nia. }
  fold W in Hrun'. rewrite Hrun' in Hrel.
  destruct (foldM (step_body c e) (map (fun i => i * W) (seq 0 k0))
                  (enter (clear_grad idx0 st))) as [s|x]; [|contradiction].
  cbn in Hrel. cbn [bind foldM].
  assert (Hstep : step_body c e s (k0 * W) = Raise AssertionError).
  { destruct Hrel as [Hp Hg _ _ _ _ _ _ _].
    pose proof (params_length c _ s' Hcore) as Hlen. rewrite length_fmap in Hlen.
    unfold step_body, local_update. rewrite Hp, Hlen. fold N. rewrite <- Hk0.
    destruct (Nat.ltb_spec idx0 N) as [_|?]; [|lia].
    destruct (inv_grads s' Hcore idx0 (shp (nth idx0 (params st) (zeros 0 0)))) as (g & Hgl & _).
    { rewrite list_lookup_fmap.
      destruct (lookup_lt_is_Some_2 (params st) idx0 Hidx) as [p Hpl].
      rewrite Hpl. cbn. f_equal. f_equal. symmetry. now apply nth_lookup_Some with (d := zeros 0 0). }
    rewrite Hg, list_lookup_insert_eq by (apply (lookup_lt_Some _ _ _ Hgl)).
    reflexivity. }
  now rewrite Hstep.
Qed.

End MissingGradient.

Section MissingGradientRuns.
Import Tensor NewtonSchulz Update Muon Group.

Lemma foreign_gradient_unread_witness :
  exists st1 st2,
    step_group demo_config demo_env (clear_grad 2 demo_state) = Ok st1 /\
    step_group demo_config demo_env demo_state = Ok st2 /\
    params st1 = params st2 /\ momentum_buffer st1 = momentum_buffer st2.
Proof.
  apply (foreign_gradient_unread demo_config demo_env 2 4 demo_state).
  - exact demo_group_ok.
  - cbn. lia.
Defined.

Lemma missing_gradient_raises_witness :
  step_group demo_config demo_env (clear_grad 1 demo_state) = Raise AssertionError.
Proof.
  apply (missing_gradient_raises demo_config demo_env 1 4 demo_state).
  - exact demo_group_ok.
  - cbn. lia.
  - reflexivity.
Defined.

End MissingGradientRuns.

(** ** Where the momentum buffers live *)

Section MomentumSharding.
Import Tensor NewtonSchulz Update Muon Group.
Local Open Scope nat_scope.

Variables (c : config) (e : env).

Lemma update_one_momentum (base : nat) (st st' : state) (pg : nat * list R) :
  update_one c e base st pg = Ok st' -> momentum_buffer st' = momentum_buffer st.
Proof.
  unfold update_one. destruct pg as [idx g].
  destruct (params st !! idx) as [p|]; [|discriminate].
  destruct (apply_update _ _ _ p g) as [p'|x]; [|discriminate].
  now intros [= <-].
Qed.

Lemma update_loop_momentum (base : nat) (l : list (nat * list R)) :
  forall st st', foldM (update_one c e base) l st = Ok st' ->
                 momentum_buffer st' = momentum_buffer st.
Proof.
  induction l as [|pg l IH]; intros st st'; cbn [foldM].
  - now intros [= <-].
  - destruct (update_one c e base st pg) as [s1|x] eqn:E1; [|discriminate].
    cbn [bind]. intros H. rewrite (IH _ _ H). now apply (update_one_momentum base st s1 pg).
Qed.

Lemma update_prev_momentum (st st' : state) :
  update_prev c e st = Ok st' -> momentum_buffer st' = momentum_buffer st.
Proof.
  unfold update_prev. destruct (handle st) as [h|]; [|discriminate].
  destruct (params_world (wait h st)) as [pw|]; [|discriminate].
  intros H. now rewrite (update_loop_momentum _ _ _ _ H).
Qed.

(** What one pass of the loop does to the momentum buffers. *)
Lemma step_body_momentum (st st' : state) (b : nat) :
  step_body c e st b = Ok st' ->
  length (params st') = length (params st) /\
  ((b + rank c < length (params st) /\
    exists buf, momentum_buffer st' = <[b + rank c := buf]> (momentum_buffer st)) \/
   (length (params st) <= b + rank c /\ momentum_buffer st' = momentum_buffer st)).
Proof.
  unfold step_body.
  destruct (local_update c st b) as [[s1 g]|x] eqn:E1; [|discriminate]. cbn [bind].
  destruct (if Nat.ltb 0 b then update_prev c e s1 else Ok s1) as [s2|x] eqn:E2;
    [|discriminate]. cbn [bind].
  destruct (deref s2 g) as [v|x]; [|discriminate]. cbn [bind].
  intros [= <-]. cbn [issue params momentum_buffer].
  assert (H2 : momentum_buffer s2 = momentum_buffer s1 /\
               length (params s2) = length (params s1)).
  { destruct (Nat.ltb 0 b).
    - split; [now apply update_prev_momentum|now apply (update_prev_length c e)].
    - injection E2 as <-. now split. }
  destruct H2 as [Hm2 Hl2]. rewrite Hm2, Hl2.
  rewrite (local_update_params c st s1 b g E1). split; [reflexivity|].
  unfold local_update in E1.
  destruct (Nat.ltb_spec (b + rank c) (length (params st))) as [Hin|Hout].
  - left. split; [exact Hin|].
    destruct (grads st !! (b + rank c)) as [[g0|]|]; try discriminate.
    destruct (momentum_update _ _ _ g0) as [[[buf g'] upd]|x]; [|discriminate].
    cbn [bind] in E1. destruct (orthogonalize upd) as [o|x]; [|discriminate].
    injection E1 as <- _. now exists buf.
  - right. split; [exact Hout|].
    destruct (update_buffer st !! rank c); [|discriminate].
    now injection E1 as <- _.
Qed.

Lemma loop_momentum (l : list nat) :
  forall st st',
    foldM (step_body c e) l st = Ok st' ->
    length (params st') = length (params st) /\
    forall i,
      (is_Some (momentum_buffer st !! i) -> is_Some (momentum_buffer st' !! i)) /\
      (i < length (params st) -> (exists b, In b l /\ b + rank c = i) ->
       is_Some (momentum_buffer st' !! i)) /\
      (length (params st) <= i \/ (forall b, In b l -> b + rank c <> i) ->
       momentum_buffer st' !! i = momentum_buffer st !! i).
Proof.
  induction l as [|b l IH]; intros st st'; cbn [foldM].
  - intros [= <-]. split; [reflexivity|]. intros i. split; [tauto|].
    split; [intros _ (b & [] & _)|reflexivity].
  - destruct (step_body c e st b) as [s1|x] eqn:E1; [|discriminate]. cbn [bind].
    intros H. destruct (IH _ _ H) as [Hlen Hi].
    destruct (step_body_momentum st s1 b E1) as [Hlen1 Hcase].
    split; [congruence|]. intros i. destruct (Hi i) as (Hmono & Hset & Hkeep).
    assert (Hfirst : is_Some (momentum_buffer st !! i) -> is_Some (momentum_buffer s1 !! i)).
    { destruct Hcase as [(_ & buf & ->)|(_ & ->)]; [|tauto].
      intros Hs. destruct (Nat.eq_dec (b + rank c) i) as [->|Hne].
      - rewrite lookup_insert_eq. eauto.
      - now rewrite lookup_insert_ne. }
    split; [tauto|]. split.
    + intros Hlt (b' & [<-|Hin] & Hb').
      * apply Hmono. destruct Hcase as [(_ & buf & ->)|(Hge & _)]; [|lia].
        rewrite <- Hb', lookup_insert_eq. eauto.
      * apply Hset; [congruence|]. now exists b'.
    + intros Hall.
      rewrite Hkeep
        by (destruct Hall as [Hge|Hall];
            [left; congruence|right; intros b' Hb'; apply Hall; now right]).
      destruct Hcase as [(Hlt & buf & ->)|(_ & ->)]; [|reflexivity].
      apply lookup_insert_ne. destruct Hall as [Hge|Hall]; [lia|]. apply Hall. now left.
Qed.

(** X16: a step on a well-formed group of N parameters leaves a momentum
    buffer, of the parameter's shape, for every parameter that this rank
    computes (index below N, congruent to the rank modulo world_size), and
    creates or changes no buffer for any other parameter. *)
Theorem momentum_is_sharded (size : nat) (st : state) :
  group_ok c e size st ->
  exists st',
    step_group c e st = Ok st' /\
    forall i,
      (forall p, params st !! i = Some p -> i mod world_size c = rank c ->
                 exists buf, momentum_buffer st' !! i = Some buf /\ shp buf = shp p) /\
      (length (params st) <= i \/ i mod world_size c <> rank c ->
       momentum_buffer st' !! i = momentum_buffer st !! i).
Proof.
  intros Hok.
  pose proof (ok_world c e size st Hok) as HW.
  pose proof (ok_rank c e size st Hok) as Hrank.
  destruct (step_group_core c e size st Hok) as (st' & Hrun & Hcore & _).
  exists st'. split; [exact Hrun|].
  unfold step_group in Hrun.
  change (length (params (enter st))) with (length (params st)) in Hrun.
  rewrite range_step_ok in Hrun by exact HW. cbn [bind] in Hrun.
  destruct (foldM (step_body c e) _ (enter st)) as [s1|x] eqn:Eloop; [|discriminate].
  cbn [bind] in Hrun.
  destruct (loop_momentum _ _ _ Eloop) as [Hlen Hi].
  change (params (enter st)) with (params st) in *.
  change (momentum_buffer (enter st)) with (momentum_buffer st) in *.
  rewrite (update_prev_momentum _ _ Hrun).
  intros i. destruct (Hi i) as (_ & Hset & Hkeep). split.
  - intros p Hp Hmod.
    pose proof (lookup_lt_Some _ _ _ Hp) as Hlt.
    destruct Hset as [buf Hbuf]; [exact Hlt| |].
    { assert (Hle : rank c <= i) by (rewrite <- Hmod; apply Nat.Div0.mod_le).
      exists (i - rank c). split; [|lia].
      apply in_bases; [exact HW|]. split; [lia|].
      rewrite <- Hmod.
      rewrite (Nat.div_mod_eq i (world_size c)) at 1.
      replace (world_size c * (i / world_size c) + i mod world_size c - i mod world_size c)
        with (i / world_size c * world_size c) by lia.
      apply Nat.Div0.mod_mul. }
    exists buf. split; [exact Hbuf|].
    rewrite <- (update_prev_momentum _ _ Hrun) in Hbuf.
    apply (inv_mom st' Hcore i buf (shp p) Hbuf).
    rewrite list_lookup_fmap, Hp. reflexivity.
  - intros [Hge|Hne]; apply Hkeep; [now left|right].
    intros b Hb Heq. apply in_bases in Hb as [Hb1 Hb2]; [|exact HW].
    apply Hne. subst i.
    rewrite Nat.Div0.add_mod, Hb2, Nat.add_0_l, Nat.Div0.mod_mod.
    now apply Nat.mod_small.
Qed.

End MomentumSharding.

Section MomentumShardingRuns.
Import Tensor NewtonSchulz Update Muon Group.
Local Open Scope nat_scope.

Lemma momentum_is_sharded_witness :
  exists st',
    step_group demo_config demo_env demo_state = Ok st' /\
    forall i,
      (forall p, params demo_state !! i = Some p -> i mod world_size demo_config = rank demo_config ->
                 exists buf, momentum_buffer st' !! i = Some buf /\ shp buf = shp p) /\
      (length (params demo_state) <= i \/ i mod world_size demo_config <> rank demo_config ->
       momentum_buffer st' !! i = momentum_buffer demo_state !! i).
Proof.
  apply (momentum_is_sharded demo_config demo_env 4 demo_state). exact demo_group_ok.
Defined.

(** X17: a step on a group without parameters, or with a world size of 0,
    raises: a ValueError for the zero step of the slice when the world size
    is 0, else an AttributeError at the final [update_prev], whose gather
    handle is still None. *)
Theorem step_group_degenerate (c : config) (e : env) (st : state) :
  world_size c = 0 \/ params st = [] ->
  step_group c e st
  = Raise (if Nat.eqb (world_size c) 0 then ValueError else AttributeError).
Proof.
  intros H. destruct (Nat.eqb_spec (world_size c) 0) as [HW|HW].
  - unfold step_group, range_step. now rewrite HW.
  - destruct H as [H|H]; [contradiction|].
    apply step_group_empty; [exact H|lia].
Qed.

Lemma step_group_degenerate_witness :
  step_group demo_config demo_env (mkState [] [] ∅ [[]; []] None None [] 0 [])
  = Raise AttributeError.
Proof.
  apply (step_group_degenerate demo_config demo_env
           (mkState [] [] ∅ [[]; []] None None [] 0 [])).
  now right.
Defined.

End MomentumShardingRuns.

(** ** What a step leaves in the parameters *)

Section StepResult.
Import Tensor NewtonSchulz Update Muon Group.
Local Open Scope nat_scope.

Variables (c : config) (e : env).

Lemma update_one_content (base : nat) (st st' : state) (idx : nat) (g : list R) :
  update_one c e base st (idx, g) = Ok st' ->
  exists p p',
    params st !! idx = Some p /\
    apply_update (lr c) (w_max c) (noise e (rng st)) p g = Ok p' /\
    params st' = <[idx := p']> (params st) /\ rng st' = S (rng st) /\
    grads st' = grads st /\ momentum_buffer st' = momentum_buffer st /\
    handle st' = handle st.
Proof.
  unfold update_one.
  destruct (params st !! idx) as [p|]; [|discriminate].
  destruct (apply_update _ _ _ p g) as [p'|x] eqn:E; [|discriminate].
  intros [= <-]. exists p, p'. now repeat split.
Qed.

Lemma update_loop_content (base : nat) (l : list (nat * list R)) :
  forall st st',
    foldM (update_one c e base) l st = Ok st' -> NoDup l.*1 ->
    rng st' = rng st + length l /\
    (forall j idx g, l !! j = Some (idx, g) ->
       exists p p',
         params st !! idx = Some p /\
         apply_update (lr c) (w_max c) (noise e (rng st + j)) p g = Ok p' /\
         params st' !! idx = Some p') /\
    (forall idx, idx ∉ l.*1 -> params st' !! idx = params st !! idx) /\
    grads st' = grads st /\ momentum_buffer st' = momentum_buffer st /\
    handle st' = handle st.
Proof.
  induction l as [|[idx g] l IH]; intros st st'; cbn [foldM].
  - intros [= <-] _. rewrite Nat.add_0_r. repeat split; try reflexivity.
    intros j idx g H. discriminate.
  - destruct (update_one c e base st (idx, g)) as [s1|x] eqn:E1; [|discriminate].
    cbn [bind]. intros Hrun Hnd. cbn [fmap list_fmap fst] in Hnd.
    apply NoDup_cons in Hnd as [Hnotin Hnd].
    destruct (update_one_content base st s1 idx g E1)
      as (p & p' & Hp & Hap & Hps & Hrng & Hg & Hm & Hh).
    destruct (IH s1 st' Hrun Hnd) as (Hrng' & Hdone & Hrest & Hg' & Hm' & Hh').
    split; [cbn [length]; lia|]. split; [|split; [|repeat split; congruence]].
    + intros j idx' g' Hj. destruct j as [|j].
      * injection Hj as <- <-. exists p, p'. rewrite Nat.add_0_r.
        split; [exact Hp|]. split; [exact Hap|].
        rewrite (Hrest idx Hnotin), Hps.
        apply list_lookup_insert_eq. apply (lookup_lt_Some _ _ _ Hp).
      * cbn in Hj. destruct (Hdone j idx' g' Hj) as (q & q' & Hq & Haq & Hq').
        assert (Hne : idx <> idx').
        { intros ->. apply Hnotin. apply list_elem_of_fmap.
          exists (idx', g'). split; [reflexivity|]. now apply list_elem_of_lookup_2 in Hj. }
        exists q, q'. rewrite Hps, list_lookup_insert_ne in Hq by exact Hne.
        split; [exact Hq|]. split; [|exact Hq'].
        rewrite Hrng in Haq. now replace (rng st + S j) with (S (rng st) + j) by lia.
    + intros idx' Hnot. cbn [fmap list_fmap fst] in Hnot.
      apply not_elem_of_cons in Hnot as [Hne Hnot].
      rewrite (Hrest idx' Hnot), Hps. now apply list_lookup_insert_ne.
Qed.

Lemma update_prev_content (st st' : state) (h : gather) (pw : list nat) :
  update_prev c e st = Ok st' ->
  handle st = Some h -> params_world st = Some pw ->
  NoDup pw -> length pw <= length (h_slots h) ->
  rng st' = rng st + length pw /\
  (forall j idx g, pw !! j = Some idx -> h_slots h !! j = Some g ->
     exists p p',
       params st !! idx = Some p /\
       apply_update (lr c) (w_max c) (noise e (rng st + j)) p g = Ok p' /\
       params st' !! idx = Some p') /\
  (forall idx, idx ∉ pw -> params st' !! idx = params st !! idx) /\
  grads st' = grads st /\ momentum_buffer st' = momentum_buffer st /\
  handle st' = handle st.
Proof.
  unfold update_prev. intros Hrun Hh Hpw Hnd Hlen. rewrite Hh in Hrun.
  cbn [wait params_world update_buffer] in Hrun. rewrite Hpw in Hrun.
  assert (Hfst : (zip pw (h_slots h)).*1 = pw) by now apply fst_zip.
  destruct (update_loop_content _ _ _ _ Hrun) as (Hrng & Hdone & Hrest & Hg & Hm & Hh').
  { now rewrite Hfst. }
  cbn [wait rng params grads momentum_buffer handle] in *.
  split.
  { rewrite Hrng. f_equal. rewrite <- Hfst at 2. now rewrite length_fmap. }
  split; [|split; [|repeat split; assumption]].
  - intros j idx g Hj Hs. apply (Hdone j idx g).
    rewrite lookup_zip_with, Hj, Hs. reflexivity.
  - intros idx Hnot. apply Hrest. now rewrite Hfst.
Qed.

Lemma local_update_content (st s1 : state) (b : nat) (out : tensor_ref) :
  local_update c st b = Ok (s1, out) ->
  params s1 = params st /\ rng s1 = rng st /\ handle s1 = handle st /\
  params_world s1 = params_world st /\
  (forall idx, idx <> b + rank c ->
     grads s1 !! idx = grads st !! idx /\
     momentum_buffer s1 !! idx = momentum_buffer st !! idx) /\
  (b + rank c < length (params st) ->
   exists v, out = Fresh v /\ own_update c st (b + rank c) = Ok v).
Proof.
  unfold local_update, own_update.
  destruct (Nat.ltb_spec (b + rank c) (length (params st))) as [Hin|Hout].
  - destruct (grads st !! (b + rank c)) as [[g|]|]; try discriminate.
    destruct (momentum_update _ _ _ g) as [[[buf g'] upd]|x]; [|discriminate].
    cbn [bind]. destruct (orthogonalize upd) as [o|x]; [|discriminate].
    cbn [bind]. intros [= <- <-]. cbn [params rng handle params_world grads momentum_buffer].
    do 4 (split; [reflexivity|]). split.
    + intros idx Hne. split.
      * apply list_lookup_insert_ne. congruence.
      * apply lookup_insert_ne. congruence.
    + intros _. exists (flatten o). split; reflexivity.
  - destruct (update_buffer st !! rank c); [|discriminate].
    intros [= <- <-]. cbn [log params rng handle params_world grads momentum_buffer].
    do 4 (split; [reflexivity|]). split; [now intros|lia].
Qed.

Lemma own_update_ext (s s0 : state) (idx : nat) :
  grads s !! idx = grads s0 !! idx ->
  momentum_buffer s !! idx = momentum_buffer s0 !! idx ->
  own_update c s idx = own_update c s0 idx.
Proof. unfold own_update. now intros -> ->. Qed.

Lemma step_body_unfold (s s' : state) (b : nat) :
  step_body c e s b = Ok s' ->
  exists s1 g s2 v,
    local_update c s b = Ok (s1, g) /\
    (if Nat.ltb 0 b then update_prev c e s1 else Ok s1) = Ok s2 /\
    deref s2 g = Ok v /\ s' = issue c e b v s2.
Proof.
  unfold step_body.
  destruct (local_update c s b) as [[s1 g]|x] eqn:E1; [|discriminate]. cbn [bind].
  destruct (if Nat.ltb 0 b then update_prev c e s1 else Ok s1) as [s2|x] eqn:E2;
    [|discriminate].
  cbn [bind]. destruct (deref s2 g) as [v|x] eqn:E3; [|discriminate]. cbn [bind].
  intros [= <-]. now exists s1, g, s2, v.
Qed.

Variables (size : nat) (st0 : state).
Hypothesis Hok : group_ok c e size st0.

Local Abbreviation W := (world_size c).
Local Abbreviation N := (length (params st0)).
Local Abbreviation sh := (shp <$> params st0).
Local Abbreviation loop_inv := (Muon.loop_inv c e size sh (trace st0)).
Local Abbreviation applied_upto := (Group.applied_upto c e st0).
Local Abbreviation awaiting := (Group.awaiting c e st0).

Lemma gathered_slot (b j : nat) (v : list R) :
  b mod W = 0 -> j < W ->
  (b + rank c < N -> own_update c st0 (b + rank c) = Ok v) ->
  b + j < N ->
  gathered c e st0 (b + j) = Ok (if Nat.eqb j (rank c) then v else peer e b j).
Proof.
  intros Hb Hj Hown Hlt. unfold gathered.
  assert (HW : 0 < W) by lia.
  assert (Hmod : (b + j) mod W = j).
  { rewrite Nat.Div0.add_mod, Hb, Nat.add_0_l, Nat.Div0.mod_mod. now apply Nat.mod_small. }
  assert (Hdiv : W * ((b + j) / W) = b).
  { pose proof (Nat.div_mod_eq (b + j) W) as H. rewrite Hmod in H. lia. }
  rewrite Hmod, Hdiv. destruct (Nat.eqb_spec j (rank c)) as [->|_]; [|reflexivity].
  now apply Hown.
Qed.

(** The apply of the shard at [b]. *)
Lemma apply_shard (b : nat) (v : list R) (s s2 : state) :
  b mod W = 0 -> b < N ->
  applied_upto b s ->
  handle s = Some (all_gather c e b v) ->
  params_world s = Some (slice_idx b (b + W) N) ->
  (b + rank c < N -> own_update c st0 (b + rank c) = Ok v) ->
  update_prev c e s = Ok s2 ->
  applied_upto (Nat.min (b + W) N) s2 /\
  grads s2 = grads s /\ momentum_buffer s2 = momentum_buffer s.
Proof.
  intros Hb HbN [Hrng Hdone Hrest] Hh Hpw Hown Hrun.
  pose proof (ok_world c e size st0 Hok) as HW.
  set (m := Nat.min (b + W) N - b).
  assert (Hm : m <= W) by lia.
  destruct (update_prev_content s s2 _ _ Hrun Hh Hpw)
    as (Hrng2 & Hdone2 & Hrest2 & Hg2 & Hm2 & _).
  { unfold slice_idx. apply NoDup_seq. }
  { unfold slice_idx. rewrite slots_length, length_seq. exact Hm. }
  unfold slice_idx in Hrng2, Hdone2, Hrest2. rewrite length_seq in Hrng2. fold m in Hrng2, Hdone2, Hrest2.
  split; [|now split].
  split.
  - rewrite Hrng2, Hrng. lia.
  - intros idx p Hidx Hp.
    destruct (Nat.lt_ge_cases idx b) as [Hlt|Hge].
    + destruct (Hdone idx p Hlt Hp) as (u & p' & Hu & Hap & Hp').
      exists u, p'. split; [exact Hu|]. split; [exact Hap|].
      rewrite Hrest2; [exact Hp'|].
      intros Hin. apply elem_of_seq in Hin. lia.
    + set (j := idx - b). assert (Hj : j < m) by lia.
      assert (Hidxj : idx = b + j) by lia.
      destruct (Hdone2 j idx (if Nat.eqb j (rank c) then v else peer e b j))
        as (q & p' & Hq & Hap & Hp').
      { rewrite Hidxj. now apply lookup_seq_lt. }
      { apply slots_lookup. lia. }
      rewrite Hrest in Hq by lia. rewrite Hp in Hq. injection Hq as <-.
      exists (if Nat.eqb j (rank c) then v else peer e b j), p'.
      split; [rewrite Hidxj; apply gathered_slot; (assumption || lia)|].
      split; [|exact Hp'].
      rewrite Hrng in Hap. now replace (rng st0 + idx) with (rng st0 + b + j) by lia.
  - intros idx Hidx. rewrite Hrest2, Hrest; [reflexivity|lia|].
    intros Hin. apply elem_of_seq in Hin. lia.
Qed.

Lemma step_body_content (k : nat) (s : state) :
  k * W < N ->
  loop_inv k s -> applied_upto ((k - 1) * W) s -> awaiting k s ->
  exists s',
    step_body c e s (k * W) = Ok s' /\
    loop_inv (S k) s' /\ applied_upto (k * W) s' /\ awaiting (S k) s'.
Proof.
  intros Hk Hinv Hap [Hfresh Hhandle].
  pose proof (ok_world c e size st0 Hok) as HW.
  pose proof (ok_rank c e size st0 Hok) as Hrank.
  assert (HN : length sh = N) by apply length_fmap.
  destruct (step_body_inv c e size sh (trace st0) HW Hrank
              (group_shapes c e size st0 Hok) (group_peer c e size st0 Hok) k s Hinv)
    as (s' & v & Hrun & Hinv' & Hh' & Hin & _).
  exists s'. split; [exact Hrun|]. split; [exact Hinv'|].
  destruct (step_body_unfold s s' _ Hrun) as (s1 & g & s2 & v' & Hlu & Hup & _ & Hs').
  destruct (local_update_content s s1 _ g Hlu) as (Hp1 & Hr1 & Hh1 & Hpw1 & Hfr1 & Hown1).
  pose proof (params_length c sh s (inv_core s Hinv)) as Hlen. rewrite HN in Hlen.
  assert (Hap1 : applied_upto ((k - 1) * W) s1).
  { destruct Hap as [Hrng Hdone Hrest]. split; rewrite ?Hp1, ?Hr1; assumption. }
  assert (H2 : applied_upto (k * W) s2 /\ grads s2 = grads s1 /\
               momentum_buffer s2 = momentum_buffer s1).
  { destruct k as [|k'].
    - cbn [Nat.mul Nat.ltb Nat.leb] in Hup. injection Hup as <-.
      cbn [Nat.sub Nat.mul] in Hap1. split; [exact Hap1|now split].
    - destruct (Nat.ltb_spec 0 (S k' * W)) as [_|?]; [|lia].
      replace (S k' - 1) with k' in Hap1 by lia.
      destruct (Hhandle k' eq_refl) as (vp & Hhs & Hownp).
      destruct (inv_handle _ _ _ _ _ _ _ Hinv) as (g0 & _ & Hpws & _).
      rewrite HN in Hpws.
      destruct (apply_shard (k' * W) vp s1 s2) as (Hap2 & Hg2 & Hm2);
        try assumption; try congruence.
      { apply Nat.Div0.mod_mul. }
      { lia. }
      replace (Nat.min (k' * W + W) N) with (S k' * W) in Hap2 by lia.
      split; [exact Hap2|now split]. }
  destruct H2 as (Hap2 & Hg2 & Hm2).
  split.
  - destruct Hap2 as [Hrng Hdone Hrest]. subst s'. split; cbn [issue rng params]; assumption.
  - split.
    + intros idx Hidx. subst s'. cbn [issue grads momentum_buffer].
      rewrite Hg2, Hm2.
      destruct (Hfr1 idx) as [Ha Hb]; [lia|]. rewrite Ha, Hb.
      apply Hfresh. lia.
    + intros k0 [= <-]. exists v. split; [exact Hh'|].
      intros Hlt. destruct (Hin ltac:(lia)) as (st1 & Hlu').
      rewrite Hlu in Hlu'. injection Hlu' as _ ->.
      destruct (Hown1 ltac:(lia)) as (v0 & [= <-] & Hv0).
      rewrite <- Hv0. symmetry. apply own_update_ext; apply Hfresh; lia.
Qed.

Lemma content_fold (m : nat) :
  forall k s,
    (k + m) * W < N + W ->
    loop_inv k s -> applied_upto ((k - 1) * W) s -> awaiting k s ->
    exists s',
      foldM (step_body c e) (map (fun i => i * W) (seq k m)) s = Ok s' /\
      loop_inv (k + m) s' /\ applied_upto ((k + m - 1) * W) s' /\ awaiting (k + m) s'.
Proof.
  induction m as [|m IH]; intros k s Hkm Hinv Hap Haw; cbn [seq map foldM].
  - exists s. rewrite Nat.add_0_r. split; [reflexivity|]. split; [assumption|]. now split.
  - destruct (step_body_content k s) as (s1 & Hrun & Hinv1 & Hap1 & Haw1);
      try assumption; [nia|].
    rewrite Hrun. cbn [bind].
    destruct (IH (S k) s1) as (s' & Hrun' & Hinv' & Hap' & Haw').
    + nia.
    + exact Hinv1.
    + now replace (S k - 1) with k by lia.
    + exact Haw1.
    + exists s'. replace (k + S m) with (S k + m) by lia.
      split; [exact Hrun'|]. split; [exact Hinv'|]. now split.
Qed.

(** X18: a step on a well-formed group returns a group in which every
    parameter is what the loop of [update_prev] makes of the old parameter
    and the update that the gather of its shard delivers (the one this rank
    computes from its gradient and momentum when the parameter is its own,
    else the contribution of the rank in charge), with the random draws
    taken in the order of the parameters. *)
Theorem step_applies_gathered_updates :
  exists st',
    step_group c e st0 = Ok st' /\
    rng st' = rng st0 + N /\
    forall idx p, params st0 !! idx = Some p ->
      exists u p',
        gathered c e st0 idx = Ok u /\
        apply_update (lr c) (w_max c) (noise e (rng st0 + idx)) p u = Ok p' /\
        params st' !! idx = Some p'.
Proof.
  pose proof (ok_world c e size st0 Hok) as HW.
  pose proof (ok_rank c e size st0 Hok) as Hrank.
  pose proof (ok_nonempty c e size st0 Hok) as Hne.
  assert (HN : length sh = N) by apply length_fmap.
  destruct (shards_bounds N W HW) as (_ & Hup & Hlow).
  pose proof (shards_pos N W HW Hne) as Hpos.
  unfold step_group.
  change (length (params (enter st0))) with N.
  rewrite range_step_ok by exact HW. cbn [bind].
  destruct (content_fold (shards N W) 0 (enter st0)) as (s1 & Hrun & Hinv & Hap & Haw).
  - cbn [Nat.add]. specialize (Hlow (shards N W - 1) ltac:(lia)). nia.
  - now apply group_loop_start.
  - split; cbn; [lia|intros; lia|reflexivity].
  - split; [now intros|discriminate].
  - rewrite Hrun. cbn [bind]. cbn [Nat.add] in Hinv, Hap, Haw.
    destruct (shards N W) as [|n'] eqn:En; [lia|].
    replace (S n' - 1) with n' in Hap by lia.
    destruct Hinv as [Hcore Hfl Htr].
    destruct (update_prev_inv c e size sh HW Hrank
                (group_shapes c e size st0 Hok) (group_peer c e size st0 Hok) n' s1 Hcore Hfl)
      as (s2 & Hrun2 & _).
    exists s2. split; [exact Hrun2|].
    destruct (aw_handle c e st0 _ s1 Haw n' eq_refl) as (v & Hh & Hown).
    destruct Hfl as (g0 & _ & Hpw & _). rewrite HN in Hpw.
    specialize (Hlow n' ltac:(lia)).
    destruct (apply_shard (n' * W) v s1 s2) as ([Hrng Hdone _] & _);
      try assumption.
    { apply Nat.Div0.mod_mul. }
    replace (Nat.min (n' * W + W) N) with N in Hrng, Hdone by lia.
    split; [exact Hrng|].
    intros idx p Hp. apply Hdone; [|exact Hp]. now apply lookup_lt_Some in Hp.
Qed.

End StepResult.

Section StepResultRuns.
Import Tensor NewtonSchulz Update Muon Group.
Local Open Scope nat_scope.

Lemma step_applies_gathered_updates_witness :
  exists st',
    step_group demo_config demo_env demo_state = Ok st' /\
    rng st' = rng demo_state + length (params demo_state) /\
    forall idx p, params demo_state !! idx = Some p ->
      exists u p',
        gathered demo_config demo_env demo_state idx = Ok u /\
        apply_update (lr demo_config) (w_max demo_config)
          (noise demo_env (rng demo_state + idx)) p u = Ok p' /\
        params st' !! idx = Some p'.
Proof.
  apply (step_applies_gathered_updates demo_config demo_env 4 demo_state).
  exact demo_group_ok.
Defined.

End StepResultRuns.

(** ** Symmetries of the orthogonalization *)

Section EntryAlgebra.
Import Tensor NewtonSchulz Entries.
Local Open Scope R_scope.

Lemma rsum_S (n : nat) (f : nat -> R) : rsum (S n) f = rsum n f + f n.
Proof.
  unfold rsum. rewrite seq_S, map_app, fold_right_app. cbn [map fold_right Nat.add].
  generalize (map f (seq 0 n)). intros l. induction l as [|x l IH]; cbn; [lra|].
  rewrite IH. lra.
Qed.

Lemma rsum_0 (n : nat) : rsum n (fun _ => 0) = 0.
Proof. induction n as [|n IH]; [reflexivity|]. rewrite rsum_S, IH. lra. Qed.

Lemma rsum_plus (n : nat) (f g : nat -> R) :
  rsum n (fun k => f k + g k) = rsum n f + rsum n g.
Proof.
  induction n as [|n IH]; [cbn; lra|]. rewrite !rsum_S, IH. lra.
Qed.

Lemma rsum_scal_r (k : R) (n : nat) (f : nat -> R) :
  rsum n (fun i => f i * k) = rsum n f * k.
Proof.
  induction n as [|n IH]; [cbn; lra|]. rewrite !rsum_S, IH. lra.
Qed.

Lemma rsum_swap (n m : nat) (f : nat -> nat -> R) :
  rsum n (fun i => rsum m (fun j => f i j)) = rsum m (fun j => rsum n (fun i => f i j)).
Proof.
  induction n as [|n IH].
  - cbn. now rewrite rsum_0.
  - rewrite rsum_S, IH, <- rsum_plus. apply rsum_ext. intros j _. now rewrite rsum_S.
Qed.

Lemma mm_assoc (n m : nat) (f g h : nat -> nat -> R) :
  mm m (mm n f g) h = mm n f (mm m g h).
Proof.
  extensionality i. extensionality j. unfold mm.
  transitivity (rsum m (fun k => rsum n (fun l => f i l * g l k * h k j))).
  { apply rsum_ext. intros k _. now rewrite rsum_scal_r. }
  rewrite rsum_swap. apply rsum_ext. intros l _.
  rewrite <- rsum_scal. apply rsum_ext. intros k _. ring.
Qed.

Lemma tr_mm (n : nat) (f g : nat -> nat -> R) : tr (mm n f g) = mm n (tr g) (tr f).
Proof.
  extensionality i. extensionality j. unfold tr, mm.
  apply rsum_ext. intros k _. ring.
Qed.

Lemma mm_padd_l (n : nat) (f g h : nat -> nat -> R) :
  mm n (padd f g) h = padd (mm n f h) (mm n g h).
Proof.
  extensionality i. extensionality j. unfold mm, padd.
  rewrite <- rsum_plus. apply rsum_ext. intros k _. ring.
Qed.

Lemma mm_padd_r (n : nat) (f g h : nat -> nat -> R) :
  mm n f (padd g h) = padd (mm n f g) (mm n f h).
Proof.
  extensionality i. extensionality j. unfold mm, padd.
  rewrite <- rsum_plus. apply rsum_ext. intros k _. ring.
Qed.

Lemma mm_pscal_l (n : nat) (k : R) (f g : nat -> nat -> R) :
  mm n (pscal k f) g = pscal k (mm n f g).
Proof.
  extensionality i. extensionality j. unfold mm, pscal.
  rewrite <- rsum_scal. apply rsum_ext. intros l _. ring.
Qed.

Lemma mm_pscal_r (n : nat) (k : R) (f g : nat -> nat -> R) :
  mm n f (pscal k g) = pscal k (mm n f g).
Proof.
  extensionality i. extensionality j. unfold mm, pscal.
  rewrite <- rsum_scal. apply rsum_ext. intros l _. ring.
Qed.

Lemma tr_padd (f g : nat -> nat -> R) : tr (padd f g) = padd (tr f) (tr g).
Proof. reflexivity. Qed.

Lemma tr_pscal (k : R) (f : nat -> nat -> R) : tr (pscal k f) = pscal k (tr f).
Proof. reflexivity. Qed.

(** The step commutes with the transpose. *)
Lemma qs_tr (abc : R * R * R) (r c : nat) (x : nat -> nat -> R) :
  qs abc c r (tr x) = tr (qs abc r c x).
Proof.
  destruct abc as [[a b] c']. unfold qs.
  change (tr (tr x)) with x.
  set (x' := tr x). set (A := mm c x x'). set (A' := mm r x' x).
  assert (HA : tr A = A) by (unfold A; now rewrite tr_mm).
  assert (HAA : tr (mm r A A) = mm r A A) by now rewrite tr_mm, HA.
  assert (H1 : mm c A' x' = mm r x' A) by (unfold A', A; apply mm_assoc).
  assert (H2 : mm c (mm c A' A') x' = mm r x' (mm r A A)).
  { rewrite mm_assoc, H1. unfold A' at 1. rewrite mm_assoc.
    f_equal. unfold A at 2. now rewrite <- mm_assoc. }
  rewrite tr_padd, tr_pscal, tr_mm, tr_padd, !tr_pscal, HA, HAA.
  fold x'. f_equal.
  rewrite mm_padd_l, mm_padd_r, !mm_pscal_l, !mm_pscal_r, H1, H2. reflexivity.
Qed.

(** The step is odd. *)
Lemma qs_neg (abc : R * R * R) (r c : nat) (x : nat -> nat -> R) :
  qs abc r c (pscal (-1) x) = pscal (-1) (qs abc r c x).
Proof.
  destruct abc as [[a b] c']. unfold qs.
  assert (HA : mm c (pscal (-1) x) (tr (pscal (-1) x)) = mm c x (tr x)).
  { rewrite tr_pscal, mm_pscal_l, mm_pscal_r.
    extensionality i. extensionality j. unfold pscal. ring. }
  rewrite HA, mm_pscal_r.
  extensionality i. extensionality j. unfold padd, pscal. ring.
Qed.

(** The step reads the entries of the matrix only. *)
Lemma qs_ext (abc : R * R * R) (r c : nat) (x y : nat -> nat -> R) :
  (forall i j, (i < r)%nat -> (j < c)%nat -> x i j = y i j) ->
  forall i j, (i < r)%nat -> (j < c)%nat -> qs abc r c x i j = qs abc r c y i j.
Proof.
  intros Hxy. destruct abc as [[a b] c']. unfold qs, padd, pscal, mm, tr.
  assert (HA : forall i k, (i < r)%nat -> (k < r)%nat ->
             rsum c (fun l => x i l * x k l) = rsum c (fun l => y i l * y k l)).
  { intros i k Hi Hk. apply rsum_ext. intros l Hl. now rewrite !Hxy. }
  intros i j Hi Hj. rewrite Hxy by assumption. f_equal.
  apply rsum_ext. intros k Hk. rewrite (Hxy k j) by assumption. f_equal.
  rewrite HA by assumption. do 2 f_equal.
  apply rsum_ext. intros m Hm. now rewrite !HA.
Qed.

Lemma get_matmul_raw (A B : Mat) (i j : nat) :
  (i < nrows A)%nat -> (j < ncols B)%nat ->
  get (matmul_raw A B) i j = rsum (ncols A) (fun k => get A i k * get B k j).
Proof. intros Hi Hj. unfold matmul_raw. now rewrite get_build. Qed.

Lemma get_madd_raw (X Y : Mat) (i j : nat) :
  (i < nrows X)%nat -> (j < ncols X)%nat ->
  get (madd_raw X Y) i j = get X i j + get Y i j.
Proof. intros Hi Hj. unfold madd_raw. now rewrite get_build. Qed.

Lemma get_mT (X : Mat) (i j : nat) :
  (i < ncols X)%nat -> (j < nrows X)%nat -> get (mT X) i j = get X j i.
Proof. intros Hi Hj. unfold mT. now rewrite get_build. Qed.

Lemma dims_madd_raw (X Y : Mat) :
  nrows (madd_raw X Y) = nrows X /\ ncols (madd_raw X Y) = ncols X.
Proof. now split. Qed.

Lemma dims_smul (k : R) (X : Mat) :
  nrows (smul k X) = nrows X /\ ncols (smul k X) = ncols X.
Proof. now split. Qed.

Lemma dims_matmul_raw (A B : Mat) :
  nrows (matmul_raw A B) = nrows A /\ ncols (matmul_raw A B) = ncols B.
Proof. now split. Qed.

Lemma dims_mT (X : Mat) : nrows (mT X) = ncols X /\ ncols (mT X) = nrows X.
Proof. now split. Qed.

Lemma get_gram (X : Mat) (i k : nat) :
  (i < nrows X)%nat -> (k < nrows X)%nat ->
  get (matmul_raw X (mT X)) i k = mm (ncols X) (get X) (tr (get X)) i k.
Proof.
  intros Hi Hk. rewrite get_matmul_raw by (assumption || (cbn; assumption)).
  unfold mm, tr. apply rsum_ext. intros l Hl. now rewrite get_mT.
Qed.

Lemma get_quintic_step (abc : R * R * R) (X : Mat) (i j : nat) :
  (i < nrows X)%nat -> (j < ncols X)%nat ->
  get (quintic_step abc X) i j = qs abc (nrows X) (ncols X) (get X) i j.
Proof.
  intros Hi Hj. destruct abc as [[a b] c']. unfold quintic_step, qs.
  set (A := matmul_raw X (mT X)).
  assert (HrA : nrows A = nrows X) by reflexivity.
  assert (HcA : ncols A = nrows X) by reflexivity.
  rewrite get_madd_raw by (cbn; assumption).
  unfold padd at 1, pscal at 1. rewrite get_smul. f_equal.
  rewrite get_matmul_raw by (cbn; assumption).
  unfold mm at 1.
  rewrite (proj2 (dims_madd_raw _ _)), (proj2 (dims_smul _ _)), HcA.
  apply rsum_ext. intros k Hk. f_equal.
  rewrite get_madd_raw
    by (rewrite ?(proj1 (dims_smul _ _)), ?(proj2 (dims_smul _ _)), ?HrA, ?HcA; assumption).
  rewrite !get_smul. unfold padd, pscal. f_equal; f_equal.
  - now apply get_gram.
  - rewrite get_matmul_raw by (rewrite ?HrA, ?HcA; assumption).
    unfold mm at 1. rewrite HcA.
    apply rsum_ext. intros m Hm. unfold A. now rewrite !get_gram.
Qed.

End EntryAlgebra.

Section OrthogonalizeSymmetry.
Import Tensor NewtonSchulz Entries.
Local Open Scope R_scope.

(** A rectangular matrix is what [build] makes of its entries. *)
Lemma wf_eq_build (M : Mat) : wf M -> build (nrows M) (ncols M) (get M) = M.
Proof.
  destruct M as [r c rs]. unfold wf, build, get. cbn [nrows ncols rows].
  intros [Hlen Hrows]. f_equal.
  apply (nth_ext _ _ [] []).
  { now rewrite length_map, length_seq. }
  intros i Hi. rewrite length_map, length_seq in Hi.
  rewrite nth_map_seq by exact Hi.
  assert (Hrow : length (nth i rs []) = c).
  { rewrite List.Forall_forall in Hrows. apply Hrows, nth_In. lia. }
  apply (nth_ext _ _ 0 0).
  { now rewrite length_map, length_seq. }
  intros j Hj. rewrite length_map, length_seq in Hj.
  now rewrite nth_map_seq.
Qed.

Lemma mat_ext (M M' : Mat) :
  wf M -> wf M' -> nrows M = nrows M' -> ncols M = ncols M' ->
  (forall i j, (i < nrows M)%nat -> (j < ncols M)%nat -> get M i j = get M' i j) ->
  M = M'.
Proof.
  intros HM HM' Hr Hc Hg.
  rewrite <- (wf_eq_build M HM), <- (wf_eq_build M' HM'), <- Hr, <- Hc.
  now apply build_ext.
Qed.

Lemma mT_mT (G : Mat) : wf G -> mT (mT G) = G.
Proof.
  intros HG. rewrite <- (wf_eq_build G HG) at 2. unfold mT at 1.
  cbn [mT nrows ncols build]. apply build_ext. intros i j Hi Hj.
  fold (mT G). now rewrite get_mT.
Qed.

Lemma sdiv_build (r c : nat) (f : nat -> nat -> R) (d : R) :
  sdiv (build r c f) d = build r c (fun i j => f i j / d).
Proof.
  unfold sdiv, build. cbn [nrows ncols rows]. f_equal.
  rewrite map_map. apply map_ext. intros i. now rewrite map_map.
Qed.

Lemma sdiv_mT (X : Mat) (d : R) : sdiv (mT X) d = mT (sdiv X d).
Proof.
  unfold mT at 1. rewrite sdiv_build. unfold mT. cbn [sdiv nrows ncols].
  apply build_ext. intros i j _ _. now rewrite get_sdiv.
Qed.

Lemma sumsq_app (u v : list R) : sumsq (u ++ v) = sumsq u + sumsq v.
Proof.
  unfold sumsq. rewrite map_app, fold_right_app.
  induction (map (fun x => x * x) u) as [|x l IH]; cbn; [lra|]. rewrite IH. lra.
Qed.

Lemma sumsq_map_seq (f : nat -> R) (n : nat) :
  sumsq (map f (seq 0 n)) = rsum n (fun j => f j * f j).
Proof. unfold sumsq, rsum. now rewrite map_map. Qed.

Lemma sumsq_flatten_build (r c : nat) (f : nat -> nat -> R) :
  sumsq (flatten (build r c f)) = rsum r (fun i => rsum c (fun j => f i j * f i j)).
Proof.
  unfold flatten, build. cbn [rows].
  induction r as [|r IH]; [reflexivity|].
  rewrite seq_S, map_app, concat_app, sumsq_app, IH, rsum_S.
  cbn [Nat.add map concat]. rewrite app_nil_r, sumsq_map_seq. reflexivity.
Qed.

Lemma fnorm_mT (X : Mat) : wf X -> fnorm (mT X) = fnorm X.
Proof.
  intros HX. unfold fnorm, vnorm. f_equal.
  rewrite <- (wf_eq_build X HX) at 2. unfold mT.
  rewrite !sumsq_flatten_build. apply rsum_swap.
Qed.

Lemma quintic_step_mT (abc : R * R * R) (X : Mat) :
  quintic_step abc (mT X) = mT (quintic_step abc X).
Proof.
  apply mat_ext.
  - apply wf_quintic_step.
  - apply wf_build.
  - destruct (quintic_step_shape abc X) as [_ Hc].
    destruct (quintic_step_shape abc (mT X)) as [Hr' _].
    rewrite Hr'. cbn [mT nrows build]. now rewrite Hc.
  - destruct (quintic_step_shape abc X) as [Hr _].
    destruct (quintic_step_shape abc (mT X)) as [_ Hc'].
    rewrite Hc'. cbn [mT ncols build]. now rewrite Hr.
  - intros i j Hi Hj.
    destruct (quintic_step_shape abc (mT X)) as [Hr' Hc'].
    rewrite Hr' in Hi. rewrite Hc' in Hj.
    destruct (quintic_step_shape abc X) as [Hr Hc].
    rewrite get_quintic_step by assumption.
    rewrite get_mT by (rewrite ?Hr, ?Hc; assumption).
    cbn [mT nrows ncols build] in Hi, Hj |- *.
    rewrite get_quintic_step by assumption.
    rewrite (qs_ext abc (ncols X) (nrows X) _ (tr (get X))); try assumption.
    + now rewrite qs_tr.
    + intros i0 j0 Hi0 Hj0. fold (mT X). now rewrite get_mT.
Qed.

Lemma fold_quintic_mT (l : list (R * R * R)) (X : Mat) :
  fold_left (fun X abc => quintic_step abc X) l (mT X)
  = mT (fold_left (fun X abc => quintic_step abc X) l X).
Proof.
  revert X. induction l as [|abc l IH]; intros X; [reflexivity|].
  cbn [fold_left]. now rewrite quintic_step_mT, IH.
Qed.

Lemma orthogonalize_spec_mT (G : Mat) :
  wf G -> orthogonalize_spec abc_list (mT G) = mT (orthogonalize_spec abc_list G).
Proof.
  intros HG. unfold orthogonalize_spec, widen.
  cbn [mT nrows ncols build].
  destruct (Nat.lt_trichotomy (nrows G) (ncols G)) as [Hlt|[Heq|Hgt]].
  - (* wide input, tall transpose *)
    destruct (Nat.ltb_spec (nrows G) (ncols G)) as [_|?]; [|lia].
    destruct (Nat.ltb_spec (ncols G) (nrows G)) as [?|_]; [lia|].
    fold (mT G). now rewrite (mT_mT G HG).
  - (* square *)
    destruct (Nat.ltb_spec (nrows G) (ncols G)) as [?|_]; [lia|].
    destruct (Nat.ltb_spec (ncols G) (nrows G)) as [?|_]; [lia|].
    fold (mT G). now rewrite (fnorm_mT G HG), sdiv_mT, fold_quintic_mT.
  - (* tall input, wide transpose *)
    destruct (Nat.ltb_spec (nrows G) (ncols G)) as [?|_]; [lia|].
    destruct (Nat.ltb_spec (ncols G) (nrows G)) as [_|?]; [|lia].
    fold (mT G). rewrite mT_mT; [reflexivity|].
    apply wf_fold_quintic. left. discriminate.
Qed.

(** X19: orthogonalizing the transpose of a rectangular matrix gives the
    transpose of what orthogonalizing the matrix gives. *)
Theorem orthogonalize_transpose (G : Mat) :
  wf G ->
  exists X, orthogonalize G = Ok X /\ orthogonalize (mT G) = Ok (mT X).
Proof.
  intros HG. exists (orthogonalize_spec abc_list G).
  rewrite !orthogonalize_ok. split; [reflexivity|].
  now rewrite orthogonalize_spec_mT.
Qed.

Lemma orthogonalize_transpose_witness :
  exists X,
    orthogonalize (build 2 3 (fun i j => INR (i + j))) = Ok X /\
    orthogonalize (mT (build 2 3 (fun i j => INR (i + j)))) = Ok (mT X).
Proof.
  apply (orthogonalize_transpose (build 2 3 (fun i j => INR (i + j)))).
  apply wf_build.
Defined.

(** *** Sign *)

Lemma flatten_smul (k : R) (X : Mat) : flatten (smul k X) = map (Rmult k) (flatten X).
Proof.
  unfold flatten, smul. cbn [rows].
  induction (rows X) as [|r rs IH]; [reflexivity|].
  cbn [map concat]. now rewrite map_app, IH.
Qed.

Lemma fnorm_neg (X : Mat) : fnorm (neg X) = fnorm X.
Proof.
  unfold fnorm, vnorm, neg. rewrite flatten_smul, sumsq_scal. f_equal. ring.
Qed.

Lemma mT_smul (k : R) (X : Mat) : mT (smul k X) = smul k (mT X).
Proof.
  unfold mT at 2. rewrite smul_build. unfold mT. cbn [smul nrows ncols].
  apply build_ext. intros i j _ _. now rewrite get_smul.
Qed.

Lemma sdiv_smul (k : R) (X : Mat) (d : R) : sdiv (smul k X) d = smul k (sdiv X d).
Proof.
  unfold sdiv, smul. cbn [nrows ncols rows]. f_equal.
  rewrite !map_map. apply map_ext. intros r. rewrite !map_map.
  apply map_ext. intros x. unfold Rdiv. ring.
Qed.

Lemma quintic_step_neg (abc : R * R * R) (X : Mat) :
  quintic_step abc (neg X) = neg (quintic_step abc X).
Proof.
  unfold neg.
  assert (Hq : quintic_step abc X
               = build (nrows X) (ncols X) (get (quintic_step abc X))).
  { destruct (quintic_step_shape abc X) as [Hr Hc]. rewrite <- Hr, <- Hc.
    symmetry. apply wf_eq_build, wf_quintic_step. }
  rewrite Hq at 1. rewrite smul_build.
  assert (Hq' : quintic_step abc (smul (-1) X)
                = build (nrows X) (ncols X) (get (quintic_step abc (smul (-1) X)))).
  { destruct (quintic_step_shape abc (smul (-1) X)) as [Hr Hc].
    change (nrows X) with (nrows (smul (-1) X)).
    change (ncols X) with (ncols (smul (-1) X)).
    rewrite <- Hr, <- Hc. symmetry. apply wf_eq_build, wf_quintic_step. }
  rewrite Hq'. apply build_ext. intros i j Hi Hj.
  rewrite !get_quintic_step by assumption.
  change (nrows (smul (-1) X)) with (nrows X).
  change (ncols (smul (-1) X)) with (ncols X).
  replace (get (smul (-1) X)) with (pscal (-1) (get X)).
  - now rewrite qs_neg.
  - extensionality i0. extensionality j0. now rewrite get_smul.
Qed.

Lemma fold_quintic_neg (l : list (R * R * R)) (X : Mat) :
  fold_left (fun X abc => quintic_step abc X) l (neg X)
  = neg (fold_left (fun X abc => quintic_step abc X) l X).
Proof.
  revert X. induction l as [|abc l IH]; intros X; [reflexivity|].
  cbn [fold_left]. now rewrite quintic_step_neg, IH.
Qed.

Lemma orthogonalize_spec_neg (G : Mat) :
  orthogonalize_spec abc_list (neg G) = neg (orthogonalize_spec abc_list G).
Proof.
  unfold orthogonalize_spec, widen.
  change (ncols (neg G)) with (ncols G). change (nrows (neg G)) with (nrows G).
  assert (HmT : forall X, mT (neg X) = neg (mT X)) by (intros; apply mT_smul).
  assert (Hs : forall X d, sdiv (neg X) d = neg (sdiv X d)) by (intros; apply sdiv_smul).
  destruct (Nat.ltb (ncols G) (nrows G)).
  - now rewrite HmT, fnorm_neg, Hs, fold_quintic_neg, HmT.
  - now rewrite fnorm_neg, Hs, fold_quintic_neg.
Qed.

(** X20: the orthogonalization is odd: on the negated matrix it returns the
    negated result, for every matrix. *)
Theorem orthogonalize_odd (G : Mat) :
  exists X, orthogonalize G = Ok X /\ orthogonalize (neg G) = Ok (neg X).
Proof.
  exists (orthogonalize_spec abc_list G).
  rewrite !orthogonalize_ok. split; [reflexivity|].
  now rewrite orthogonalize_spec_neg.
Qed.

Lemma neg_zeros (r c : nat) : neg (zeros r c) = zeros r c.
Proof.
  unfold neg, zeros. rewrite smul_build. apply build_ext. intros. ring.
Qed.

(** X21: the zero matrix of any shape is returned unchanged: the guard
    1e-7 keeps the normalization from dividing by zero. *)
Theorem orthogonalize_zeros (r c : nat) : orthogonalize (zeros r c) = Ok (zeros r c).
Proof.
  rewrite orthogonalize_ok. f_equal.
  pose proof (orthogonalize_spec_neg (zeros r c)) as Hodd.
  rewrite neg_zeros in Hodd.
  destruct (orthogonalize_spec_shape (zeros r c)) as [Hr Hc].
  apply mat_ext.
  - apply wf_orthogonalize_spec.
  - apply wf_build.
  - exact Hr.
  - exact Hc.
  - intros i j Hi Hj. rewrite Hr in Hi. rewrite Hc in Hj.
    cbn [zeros nrows ncols build] in Hi, Hj.
    rewrite get_zeros by assumption.
    assert (H : get (orthogonalize_spec abc_list (zeros r c)) i j
                = -1 * get (orthogonalize_spec abc_list (zeros r c)) i j).
    { rewrite Hodd at 1. unfold neg. now rewrite get_smul. }
    lra.
Qed.

End OrthogonalizeSymmetry.

(** ** What the power iteration estimates *)

Section EstimateBounds.
Import Tensor NewtonSchulz Update Entries.
Local Open Scope R_scope.

Lemma vdiv_scal (w : list R) (d : R) : vdiv w d = map (Rmult (/ d)) w.
Proof. unfold vdiv. apply map_ext. intros x. unfold Rdiv. ring. Qed.

Lemma vnorm_vdiv (w : list R) (d : R) : 0 < d -> vnorm (vdiv w d) = vnorm w / d.
Proof.
  intros Hd. rewrite vdiv_scal, vnorm_scal.
  - unfold Rdiv. ring.
  - left. now apply Rinv_0_lt_compat.
Qed.





(** *** A multiple of the identity *)




End EstimateBounds.

(** ** How the estimate follows the random draw *)

Section DrawGain.
Import Tensor Update Model Cap.
Local Open Scope R_scope.

Lemma sq_le (u v : R) : 0 <= v -> u * u <= v * v -> u <= v.
Proof.
  intros Hv H. destruct (Rle_lt_dec u v) as [Hle|Hgt]; [exact Hle|]. nra.
Qed.

(** Cauchy-Schwarz. *)
Lemma dot_sq (p q : list R) : dot p q * dot p q <= sumsq p * sumsq q.
Proof.
  revert q. induction p as [|x p IH]; intros [|y q].
  - cbn [dot]. change (sumsq []) with 0. lra.
  - cbn [dot]. change (sumsq []) with 0. lra.
  - cbn [dot]. change (sumsq []) with 0. lra.
  - specialize (IH q). cbn [dot].
    pose proof (sumsq_nonneg p) as HP. pose proof (sumsq_nonneg q) as HQ.
    unfold sumsq in *. cbn [map fold_right].
    set (P := fold_right Rplus 0 (map (fun x => x * x) p)) in *.
    set (Q := fold_right Rplus 0 (map (fun x => x * x) q)) in *.
    set (D := dot p q) in *. clearbody P Q D.
    assert (Hxx : 0 <= x * x) by apply Rle_0_sqr.
    assert (Hyy : 0 <= y * y) by apply Rle_0_sqr.
    assert (Hc : 2 * x * y * D <= x * x * Q + y * y * P).
    { apply sq_le.
      - apply Rplus_le_le_0_compat; apply Rmult_le_pos; assumption.
      - pose proof (Rle_0_sqr (x * x * Q - y * y * P)) as H1. unfold Rsqr in H1.
        assert (H2 : 0 <= (x * x) * (y * y) * (P * Q - D * D)).
        { apply Rmult_le_pos; [now apply Rmult_le_pos|lra]. }
        lra. }
    lra.
Qed.

Lemma dot_le (p q : list R) : dot p q <= vnorm p * vnorm q.
Proof.
  unfold vnorm. apply sq_le.
  - apply Rmult_le_pos; apply sqrt_pos.
  - replace (sqrt (sumsq p) * sqrt (sumsq q) * (sqrt (sumsq p) * sqrt (sumsq q)))
      with ((sqrt (sumsq p) * sqrt (sumsq p)) * (sqrt (sumsq q) * sqrt (sumsq q))) by ring.
    rewrite !sqrt_sqrt by apply sumsq_nonneg. apply dot_sq.
Qed.











End DrawGain.

(** ** The estimate within the range of float32 *)

Section EstimateRange.
Import Tensor Update Entries Cap.
Local Open Scope R_scope.








End EstimateRange.

(** ** The cap of [update_prev] and the draw it rests on *)

Section CapOfDraw.
Import Tensor Update Cap.
Local Open Scope R_scope.










End CapOfDraw.

(** ** The groups of the optimizer *)

Section GroupsPartition.
Import Tensor Muon.
Local Open Scope nat_scope.

Lemma concat_nils {A B : Type} (l : list B) : concat (map (fun _ => @nil A) l) = [].
Proof. induction l as [|x l IH]; [reflexivity|exact IH]. Qed.

Lemma concat_filters (sizes : list nat) (ps : list Mat) :
  NoDup sizes -> (forall p, p ∈ ps -> mat_numel p ∈ sizes) ->
  concat (map (fun size => filter (fun p => mat_numel p = size) ps) sizes) ≡ₚ ps.
Proof.
  intros Hnd. induction ps as [|p ps IH]; intros Hin.
  - cbn. now rewrite concat_nils.
  - assert (Hp : mat_numel p ∈ sizes) by (apply Hin; left).
    apply list_elem_of_split in Hp as (s1 & s2 & Hs).
    assert (Hps : forall q, q ∈ ps -> mat_numel q ∈ sizes)
      by (intros q Hq; apply Hin; now right).
    specialize (IH Hps). rewrite Hs in IH, Hnd |- *.
    apply NoDup_app in Hnd as (_ & Hdis & Hnd2).
    apply NoDup_cons in Hnd2 as [Hnot2 _].
    assert (Hnot1 : mat_numel p ∉ s1).
    { intros H1. apply (Hdis _ H1). left. }
    rewrite map_app, concat_app in IH |- *. cbn [map concat] in IH |- *.
    rewrite filter_cons_True by reflexivity.
    assert (Hsame : forall s, mat_numel p ∉ s ->
              map (fun size => filter (fun q => mat_numel q = size) (p :: ps)) s
              = map (fun size => filter (fun q => mat_numel q = size) ps) s).
    { intros s Hs'. apply map_ext_in. intros size Hsize.
      apply filter_cons_False. intros Heq. apply Hs'. rewrite Heq.
      now apply list_elem_of_In. }
    rewrite (Hsame s1 Hnot1), (Hsame s2 Hnot2).
    cbn [app]. rewrite <- Permutation_middle. now constructor.
Qed.

(** X24: the groups of [Muon.__init__] split the parameters: together they
    hold every parameter as often as the list given to the optimizer does,
    and two parameters with equally many elements are never put into two
    different groups. *)
Theorem init_groups_partition (ps : list Mat) :
  concat (init_groups ps) ≡ₚ ps /\
  forall i j g1 g2 p q,
    init_groups ps !! i = Some g1 -> init_groups ps !! j = Some g2 ->
    p ∈ g1 -> q ∈ g2 -> mat_numel p = mat_numel q -> i = j.
Proof.
  unfold init_groups. split.
  - apply concat_filters.
    + apply NoDup_remove_dups.
    + intros p Hp. apply elem_of_remove_dups.
      change (map mat_numel ps) with (mat_numel <$> ps).
      apply list_elem_of_fmap. now exists p.
  - intros i j g1 g2 p q Hi Hj Hp Hq Heq.
    change (map ?f ?l) with (f <$> l) in Hi, Hj.
    rewrite list_lookup_fmap in Hi, Hj.
    destruct (remove_dups (map mat_numel ps) !! i) as [si|] eqn:Esi; [|discriminate].
    destruct (remove_dups (map mat_numel ps) !! j) as [sj|] eqn:Esj; [|discriminate].
    injection Hi as <-. injection Hj as <-.
    apply list_elem_of_filter in Hp as [Hp _]. apply list_elem_of_filter in Hq as [Hq _].
    apply (NoDup_lookup (remove_dups (map mat_numel ps)) i j si).
    + apply NoDup_remove_dups.
    + exact Esi.
    + rewrite Esj. f_equal. congruence.
Qed.

End GroupsPartition.

(** ** The cap on the rows of the output head *)

Section HeadProjection.
Import Tensor Update Model.
Local Open Scope R_scope.

Lemma row_divisor_pos (w_max : R) (d : nat) (row : list R) :
  0 < w_max -> 1 < row_divisor w_max d row.
Proof.
  intros Hw. unfold row_divisor.
  assert (1 <= Rmax (vnorm row * sqrt (INR d)) w_max / w_max); [|lra].
  apply (Rmult_le_reg_r w_max); [exact Hw|].
  unfold Rdiv. rewrite Rmult_assoc, Rinv_l by lra.
  rewrite Rmult_1_l, Rmult_1_r. apply Rmax_r.
Qed.

Lemma vnorm_div (row : list R) (f : R) :
  0 < f -> vnorm (map (fun x => x / f) row) = vnorm row / f.
Proof.
  intros Hf. change (map (fun x => x / f) row) with (vdiv row f).
  now apply vnorm_vdiv.
Qed.

(** A row after the division. *)
Lemma divided_row_capped (w_max : R) (d : nat) (row : list R) :
  0 < w_max ->
  vnorm (map (fun x => x / row_divisor w_max d row) row) * sqrt (INR d) < w_max.
Proof.
  intros Hw. pose proof (row_divisor_pos w_max d row Hw) as Hf.
  rewrite vnorm_div by lra.
  set (rms := vnorm row * sqrt (INR d)).
  assert (Hrms : 0 <= rms).
  { unfold rms. apply Rmult_le_pos; [apply vnorm_nonneg|apply sqrt_pos]. }
  replace (vnorm row / row_divisor w_max d row * sqrt (INR d))
    with (rms / row_divisor w_max d row) by (unfold rms, Rdiv; ring).
  apply (Rmult_lt_reg_r (row_divisor w_max d row)); [lra|].
  unfold Rdiv at 1. rewrite Rmult_assoc, Rinv_l, Rmult_1_r by lra.
  unfold row_divisor. fold rms.
  assert (Hm : rms <= Rmax rms w_max) by apply Rmax_l.
  assert (Hq : Rmax rms w_max / w_max * w_max = Rmax rms w_max)
    by (unfold Rdiv; rewrite Rmult_assoc, Rinv_l by lra; ring).
  nra.
Qed.

(** X25: with a positive cap, [project_embed_unembed_weights] keeps the
    shape of the weight of the output head; it leaves the weight unchanged
    when the head is trained by Muon (the default), and otherwise divides
    every row by a factor above 1, after which the norm of the row times
    the square root of its length is below the cap; a row that is within
    the cap is divided by 1 + 1e-12 only. *)
Theorem project_caps_rows (lm_head_muon : bool) (w_max : R) (weight : Mat) :
  0 < w_max ->
  let weight' := project_embed_unembed_weights lm_head_muon w_max weight in
  let d := ncols weight in
  nrows weight' = nrows weight /\ ncols weight' = d /\
  length (rows weight') = length (rows weight) /\
  (lm_head_muon = true -> weight' = weight) /\
  (lm_head_muon = false ->
   forall i, (i < length (rows weight))%nat ->
     let row := nth i (rows weight) [] in
     let row' := nth i (rows weight') [] in
     row' = map (fun x => x / row_divisor w_max d row) row /\
     1 < row_divisor w_max d row /\
     vnorm row' * sqrt (INR d) < w_max /\
     (vnorm row * sqrt (INR d) <= w_max -> row_divisor w_max d row = 1 + 1e-12)).
Proof.
  intros Hw weight' d. unfold weight', project_embed_unembed_weights.
  destruct lm_head_muon; cbn [nrows ncols rows].
  - split; [reflexivity|]. split; [reflexivity|]. split; [reflexivity|].
    split; [reflexivity|discriminate].
  - split; [reflexivity|]. split; [reflexivity|]. split; [apply length_map|].
    split; [discriminate|]. intros _ i Hi. cbn zeta.
    set (row := nth i (rows weight) []).
    set (row' := nth i (map (fun row => map (fun x => x / row_divisor w_max (ncols weight) row) row)
                            (rows weight)) []).
    assert (Hrow' : row' = map (fun x => x / row_divisor w_max d row) row).
    { unfold row', row, d.
      rewrite (nth_indep _ [] ((fun r => map (fun x => x / row_divisor w_max (ncols weight) r) r) []))
        by (rewrite length_map; exact Hi).
      now rewrite (map_nth (fun r => map (fun x => x / row_divisor w_max (ncols weight) r) r)). }
    split; [exact Hrow'|]. split; [now apply row_divisor_pos|]. split.
    + rewrite Hrow'. now apply divided_row_capped.
    + intros Hle. unfold row_divisor. rewrite Rmax_right by exact Hle.
      unfold Rdiv. rewrite Rinv_r by lra. reflexivity.
Qed.

Lemma project_caps_rows_witness :
  let weight' := project_embed_unembed_weights false 8 (diag2 30 4) in
  let d := ncols (diag2 30 4) in
  nrows weight' = nrows (diag2 30 4) /\ ncols weight' = d /\
  length (rows weight') = length (rows (diag2 30 4)) /\
  (false = true -> weight' = diag2 30 4) /\
  (false = false ->
   forall i, (i < length (rows (diag2 30 4)))%nat ->
     let row := nth i (rows (diag2 30 4)) [] in
     let row' := nth i (rows weight') [] in
     row' = map (fun x => x / row_divisor 8 d row) row /\
     1 < row_divisor 8 d row /\
     vnorm row' * sqrt (INR d) < 8 /\
     (vnorm row * sqrt (INR d) <= 8 -> row_divisor 8 d row = 1 + 1e-12)).
Proof.
  apply (project_caps_rows false 8 (diag2 30 4)). lra.
Defined.

End HeadProjection.

(** ** The residual block *)

Section ResidualBlock.
Import Tensor Update Model.
Local Open Scope R_scope.

Lemma axpby_length (a b : R) (x y : list R) :
  length x = length y -> length (axpby a x b y) = length x.
Proof.
  revert y. induction x as [|xi x IH]; intros [|yi y] H; try discriminate; [reflexivity|].
  cbn. f_equal. apply IH. now injection H.
Qed.

Lemma vsub_axpby (a b : R) (x y u v : list R) :
  length x = length y -> length u = length x -> length v = length x ->
  vsub (axpby a x b u) (axpby a y b v) = axpby a (vsub x y) b (vsub u v).
Proof.
  unfold vsub. revert y u v.
  induction x as [|xi x IH]; intros [|yi y] [|ui u] [|vi v] H1 H2 H3;
    try discriminate; [reflexivity|].
  cbn. f_equal; [ring|]. apply IH; cbn in *; congruence.
Qed.

Lemma sumsq_axpby (a b : R) (p q : list R) :
  length p = length q ->
  sumsq (axpby a p b q) = a * a * sumsq p + 2 * a * b * dot p q + b * b * sumsq q.
Proof.
  revert q. induction p as [|x p IH]; intros [|y q] H; try discriminate.
  - cbn. ring.
  - cbn [axpby dot]. unfold sumsq in *. cbn [map fold_right].
    rewrite IH by (cbn in H; congruence). ring.
Qed.

(** The triangle inequality for a combination with weights that are not
    negative. *)
Lemma vnorm_axpby (a b : R) (p q : list R) :
  0 <= a -> 0 <= b -> length p = length q ->
  vnorm (axpby a p b q) <= a * vnorm p + b * vnorm q.
Proof.
  intros Ha Hb Hlen.
  pose proof (vnorm_nonneg p) as Hp. pose proof (vnorm_nonneg q) as Hq.
  apply sq_le; [nra|].
  unfold vnorm at 1 2. rewrite sqrt_sqrt by apply sumsq_nonneg.
  rewrite sumsq_axpby by exact Hlen.
  assert (HP : vnorm p * vnorm p = sumsq p) by (unfold vnorm; apply sqrt_sqrt, sumsq_nonneg).
  assert (HQ : vnorm q * vnorm q = sumsq q) by (unfold vnorm; apply sqrt_sqrt, sumsq_nonneg).
  pose proof (dot_le p q) as Hd.
  assert (Hab : 0 <= a * b) by now apply Rmult_le_pos.
  nra.
Qed.

Lemma vsub_length (x y : list R) : length x = length y -> length (vsub x y) = length x.
Proof. apply axpby_length. Qed.

(** One residual connection. *)
Lemma residual_nonexpansive (n : nat) (s : R) (f : list R -> list R) :
  0 <= s <= 1 -> nonexpansive n f ->
  nonexpansive n (fun x => axpby (1 - s) x s (f x)).
Proof.
  intros Hs [Hlen Hlip]. split.
  - intros x Hx. rewrite axpby_length; [exact Hx|]. now rewrite Hlen.
  - intros x y Hx Hy.
    rewrite vsub_axpby by (rewrite ?Hlen; congruence).
    eapply Rle_trans.
    + apply vnorm_axpby; [lra|lra|].
      rewrite !vsub_length by (rewrite ?Hlen; congruence). now rewrite Hlen.
    + pose proof (Hlip x y Hx Hy). pose proof (vnorm_nonneg (vsub x y)). nra.
Qed.

(** X26: with at least one layer, [Block.forward] returns, keeps the length
    of the activations and, whenever its attention and its MLP move two
    activations no further apart than they are, does so itself: the two
    residual connections are convex combinations with the weight
    1 / (2 * num_layers). *)
Theorem Block_forward_nonexpansive (num_layers n : nat) (attn mlp : list R -> list R)
    (x y : list R) :
  (0 < num_layers)%nat -> nonexpansive n attn -> nonexpansive n mlp ->
  length x = n -> length y = n ->
  exists x' y',
    Block_forward num_layers attn mlp x = Ok x' /\
    Block_forward num_layers attn mlp y = Ok y' /\
    length x' = n /\ length y' = n /\
    vnorm (vsub x' y') <= vnorm (vsub x y).
Proof.
  intros HL Hattn Hmlp Hx Hy. unfold Block_forward.
  destruct (Nat.eqb_spec (2 * num_layers) 0) as [?|_]; [lia|].
  set (s := 1 / INR (2 * num_layers)).
  assert (Hs : 0 <= s <= 1).
  { assert (H1 : 1 <= INR (2 * num_layers)).
    { change 1 with (INR 1). apply le_INR. lia. }
    unfold s. split.
    - apply Rlt_le, Rdiv_lt_0_compat; lra.
    - apply (Rmult_le_reg_r (INR (2 * num_layers))); [lra|].
      unfold Rdiv. rewrite Rmult_assoc, Rinv_l by lra. lra. }
  pose proof (residual_nonexpansive n s attn Hs Hattn) as [Hl1 Hn1].
  pose proof (residual_nonexpansive n s mlp Hs Hmlp) as [Hl2 Hn2].
  assert (Hres : forall f z, nonexpansive n f -> length z = n ->
            residual s f z = Ok (axpby (1 - s) z s (f z))).
  { intros f z [Hlen _] Hz. unfold residual. rewrite (Hlen z Hz), Hz.
    now rewrite Nat.eqb_refl. }
  rewrite !(Hres attn) by assumption. cbn [bind].
  rewrite !(Hres mlp) by (try assumption; now apply Hl1).
  do 2 eexists. split; [reflexivity|]. split; [reflexivity|].
  split; [apply Hl2, Hl1, Hx|]. split; [apply Hl2, Hl1, Hy|].
  eapply Rle_trans; [apply Hn2; apply Hl1; assumption|]. now apply Hn1.
Qed.

(** The sub-modules right after their construction, when the output
    projection is zero. *)
Lemma zero_nonexpansive (n : nat) : nonexpansive n (map (fun _ => 0)).
Proof.
  split.
  - intros x Hx. now rewrite length_map.
  - intros x y Hx Hy.
    assert (Hz : forall u v : list R, length u = length v ->
              sumsq (vsub (map (fun _ => 0) u) (map (fun _ => 0) v)) = 0).
    { induction u as [|ui u IH]; intros [|vi v] H; try discriminate; [reflexivity|].
      unfold vsub, sumsq in *. cbn. rewrite IH by (cbn in H; congruence). ring. }
    unfold vnorm at 1. rewrite Hz by congruence. rewrite sqrt_0. apply vnorm_nonneg.
Qed.

Lemma Block_forward_nonexpansive_witness :
  exists x' y',
    Block_forward 12 (map (fun _ => 0)) (map (fun _ => 0)) [1; 2] = Ok x' /\
    Block_forward 12 (map (fun _ => 0)) (map (fun _ => 0)) [3; 5] = Ok y' /\
    length x' = 2%nat /\ length y' = 2%nat /\
    vnorm (vsub x' y') <= vnorm (vsub [1; 2] [3; 5]).
Proof.
  apply (Block_forward_nonexpansive 12 2 (map (fun _ => 0)) (map (fun _ => 0)) [1; 2] [3; 5]).
  - lia.
  - apply zero_nonexpansive.
  - apply zero_nonexpansive.
  - reflexivity.
  - reflexivity.
Defined.

End ResidualBlock.
